(** * CartoType text engine: strings, match methods and comparison

    A shallow embedding of [cartotype_string.h] (namespace [CartoTypeCore]):
    the [StringMatchMethod] flag set, the [MString] interface with its four
    storage classes ([Text], [WritableTextView], [TextBuffer], [String]),
    the lexicographic [Compare] overloads and the [FoldingIterator].

    Conventions.
    - [uint16_t], [int] and [size_t] values are integers of [Z];
      every conversion to a narrower type is written as a reduction modulo
      the width of that type.
    - A pointer to UTF-16 text is the list of units that can be read from
      it: the storage from the pointed unit to the end of its allocation.
      Reading past that end is undefined and is reported as [None] (or
      [Undefined] for a mutator).
    - A member function that may change its object returns the object after
      the call. *)

From Stdlib Require Import ZArith List Bool Lia.
Import ListNotations.
Local Open Scope Z_scope.

(** ** Machine integers *)

Definition to_uint16 (x : Z) : Z := x mod 2 ^ 16.
Definition to_size_t (x : Z) : Z := x mod 2 ^ 64.

(** [static const size_t npos = size_t(-1)] *)
Definition npos : Z := to_size_t (-1).

(** ** Error codes (cartotype_errors.h) *)

Definition Result := Z.
Definition KErrorNone : Result := 0.
Definition KErrorEndOfData : Result := 3.
Definition KErrorUnimplemented : Result := 7.

(** The build configuration decides what [assert] does. *)
Inductive Build := Debug | Release.

(** How a call ends. *)
Inductive outcome (A : Type) : Type :=
| Returns (a : A)        (* normal return *)
| AssertFailed           (* a failed [assert] in a debug build *)
| Throws (e : Result)    (* [throw e] *)
| Undefined.             (* access outside the storage *)
Arguments Returns {A} a.
Arguments AssertFailed {A}.
Arguments Throws {A} e.
Arguments Undefined {A}.

Definition bind {A B} (o : outcome A) (k : A -> outcome B) : outcome B :=
  match o with
  | Returns a => k a
  | AssertFailed => AssertFailed
  | Throws e => Throws e
  | Undefined => Undefined
  end.

Declare Scope outcome_scope.
Delimit Scope outcome_scope with outcome.
Notation "x <- o ;; k" := (bind o (fun x => k))
  (at level 61, o at next level, right associativity) : outcome_scope.

(** [assert(false)]: aborts in a debug build, does nothing when [NDEBUG] is
    defined. *)
Definition assert_false (b : Build) : outcome unit :=
  match b with
  | Debug => AssertFailed
  | Release => Returns tt
  end.

(** ** StringMatchMethodFlag and StringMatchMethod *)

Inductive StringMatchMethodFlag :=
| Exact | Prefix | IgnoreSymbols | FoldAccents | Fuzzy | FoldCase
| IgnoreWhitespace.

Definition flag_value (f : StringMatchMethodFlag) : Z :=
  match f with
  | Exact => 0
  | Prefix => 1
  | IgnoreSymbols => 2
  | FoldAccents => 4
  | Fuzzy => 8
  | FoldCase => 16
  | IgnoreWhitespace => 32
  end.

Module StringMatchMethod.

Record t := Make { m_flags : Z (* uint16_t *) }.

(** [StringMatchMethod() = default], with [m_flags = 0]. *)
Definition default : t := Make 0.

(** The private constructor
    [StringMatchMethod(unsigned int aFlags): m_flags(uint16_t(aFlags & 63))]. *)
Definition of_uint (aFlags : Z) : t := Make (to_uint16 (Z.land aFlags 63)).

(** [static StringMatchMethod FromFlags(unsigned int aFlags)] *)
Definition FromFlags (aFlags : Z) : t := of_uint aFlags.

(** Modelled from the spec: the body of the public constructor taking
    [aFlag1 .. aFlag6] is not part of the header; the spec calls the
    method "constructible from up to six flags", read here as the union
    of the six flags' bits. *)
Definition of_flags (aFlag1 aFlag2 aFlag3 aFlag4 aFlag5 aFlag6
                     : StringMatchMethodFlag) : t :=
  Make (to_uint16
          (Z.lor (flag_value aFlag1)
             (Z.lor (flag_value aFlag2)
                (Z.lor (flag_value aFlag3)
                   (Z.lor (flag_value aFlag4)
                      (Z.lor (flag_value aFlag5) (flag_value aFlag6))))))).

(** [unsigned int Flags() const] *)
Definition Flags (this : t) : Z := m_flags this.

(** [operator+=]: [m_flags |= uint16_t(aFlag); return *this;].  The first
    component is the object after the call, the second the returned copy. *)
Definition op_add_assign (this : t) (aFlag : StringMatchMethodFlag) : t * t :=
  let this' := Make (to_uint16 (Z.lor (m_flags this)
                                  (to_uint16 (flag_value aFlag)))) in
  (this', this').

(** [operator-=]: [m_flags &= ~uint16_t(aFlag); return *this;].  The
    operand of [~] is promoted to [int], so [~] is [Z.lnot]. *)
Definition op_sub_assign (this : t) (aFlag : StringMatchMethodFlag) : t * t :=
  let this' := Make (to_uint16 (Z.land (m_flags this)
                                  (Z.lnot (to_uint16 (flag_value aFlag))))) in
  (this', this').

(** [bool operator&(StringMatchMethodFlag aFlag) const] *)
Definition op_and (this : t) (aFlag : StringMatchMethodFlag) : bool :=
  negb (Z.land (m_flags this) (to_uint16 (flag_value aFlag)) =? 0).

(** [bool MayIgnoreCharacters() const] *)
Definition MayIgnoreCharacters (this : t) : bool :=
  negb (Z.land (m_flags this)
          (Z.lor (to_uint16 (flag_value IgnoreSymbols))
             (to_uint16 (flag_value IgnoreWhitespace))) =? 0).

(** [bool operator==(StringMatchMethod aOther) const] *)
Definition op_eq (this aOther : t) : bool := m_flags this =? m_flags aOther.

(** [bool operator!=(StringMatchMethod aOther) const] *)
Definition op_ne (this aOther : t) : bool :=
  negb (m_flags this =? m_flags aOther).

(** The member functions whose bodies the header gives, as requests made
    to an existing object. *)
Inductive operation :=
| CallFlags
| CallAnd (aFlag : StringMatchMethodFlag)
| CallMayIgnoreCharacters
| CallEq (aOther : t)
| CallNe (aOther : t)
| CallAddAssign (aFlag : StringMatchMethodFlag)
| CallSubAssign (aFlag : StringMatchMethodFlag).

(** The object after a call. *)
Definition after (op : operation) (this : t) : t :=
  match op with
  | CallFlags | CallAnd _ | CallMayIgnoreCharacters | CallEq _ | CallNe _ =>
      this                                     (* [const] members *)
  | CallAddAssign f => fst (op_add_assign this f)
  | CallSubAssign f => fst (op_sub_assign this f)
  end.

(** The members declared [const]. *)
Definition is_const (op : operation) : bool :=
  match op with
  | CallAddAssign _ | CallSubAssign _ => false
  | _ => true
  end.

(** The values a program can build through the header: the two
    constructors whose bodies it gives, followed by any number of
    [+=] and [-=]. *)
Inductive constructible : t -> Prop :=
| C_default : constructible default
| C_FromFlags aFlags : constructible (FromFlags aFlags)
| C_add this aFlag :
    constructible this -> constructible (fst (op_add_assign this aFlag))
| C_sub this aFlag :
    constructible this -> constructible (fst (op_sub_assign this aFlag)).

End StringMatchMethod.

(** ** Storage of the four string classes *)

(** Number of units that can be read from a pointer. *)
Definition len (p : list Z) : Z := Z.of_nat (length p).

(** [static constexpr size_t KOwnTextLength = 32] *)
Definition KOwnTextLength : Z := 32.

(** Where [String::iText] points: at the member array [iOwnText], or at a
    separate allocation made with [new]. *)
Inductive StringText :=
| OwnText
| Allocated (buffer : list Z).

(** The data members of each class derived from [MString]. *)
Inductive Storage :=
| TextStorage (iText : list Z)
| WritableTextViewStorage (iText : list Z) (iMaxLength : Z)
| TextBufferStorage (aMaxLength : Z) (iText : list Z)
| StringStorage (iOwnText : list Z) (iText : StringText) (iReserved : Z).

(** An object of a class derived from [MString]: the base class member
    [iLength] and the members of the derived class. *)
Record MString := mkMString { iLength : Z (* size_t *); storage : Storage }.

Definition set_length (this : MString) (n : Z) : MString :=
  mkMString n (storage this).

(** [virtual const uint16_t* Data() const] *)
Definition Data (this : MString) : list Z :=
  match storage this with
  | TextStorage iText => iText
  | WritableTextViewStorage iText _ => iText
  | TextBufferStorage _ iText => iText
  | StringStorage iOwnText OwnText _ => iOwnText
  | StringStorage _ (Allocated buffer) _ => buffer
  end.

(** [virtual bool Writable() const] *)
Definition Writable (this : MString) : bool :=
  match storage this with
  | TextStorage _ => false
  | WritableTextViewStorage _ _ => true
  | TextBufferStorage _ _ => true
  | StringStorage _ _ _ => true
  end.

(** [virtual size_t MaxWritableLength() const] *)
Definition MaxWritableLength (this : MString) : Z :=
  match storage this with
  | TextStorage _ => 0
  | WritableTextViewStorage _ iMaxLength => iMaxLength
  | TextBufferStorage aMaxLength _ => aMaxLength
  | StringStorage _ _ iReserved => iReserved
  end.

(** [virtual uint16_t* WritableText()]: [None] is the null pointer. *)
Definition WritableText (this : MString) : option (list Z) :=
  match storage this with
  | TextStorage _ => None
  | _ => Some (Data this)
  end.

(** The object after the units reachable from [WritableText()] have been
    overwritten with [buffer]. *)
Definition store (this : MString) (buffer : list Z) : MString :=
  mkMString (iLength this)
    match storage this with
    | TextStorage iText => TextStorage iText
    | WritableTextViewStorage _ iMaxLength =>
        WritableTextViewStorage buffer iMaxLength
    | TextBufferStorage aMaxLength _ => TextBufferStorage aMaxLength buffer
    | StringStorage _ OwnText iReserved => StringStorage buffer OwnText iReserved
    | StringStorage iOwnText (Allocated _) iReserved =>
        StringStorage iOwnText (Allocated buffer) iReserved
    end.

(** Modelled from the spec: [String::ResizeBuffer] is declared in the
    header and defined elsewhere.  The spec's GrowableString "holds an
    inline buffer (capacity 32 units) until content exceeds it, then
    switches to a separate allocation; resize may grow or shrink", and
    "once switched to a separate allocation, never reverts to inline".
    A request within the reserved size only sets the length; a larger one
    moves the text to a new allocation of the requested size (new units
    read as zero here). *)
Definition String_ResizeBuffer (iLength : Z) (iOwnText : list Z)
    (iText : StringText) (iReserved aNewLength : Z) : MString :=
  if aNewLength <=? iReserved
  then mkMString aNewLength (StringStorage iOwnText iText iReserved)
  else
    let old := match iText with OwnText => iOwnText | Allocated b => b end in
    let kept := firstn (Z.to_nat iLength) old in
    mkMString aNewLength
      (StringStorage iOwnText
         (Allocated (kept ++ repeat 0 (Z.to_nat aNewLength - length kept)))
         aNewLength).

(** [virtual void ResizeBuffer(size_t aNewLength)] *)
Definition ResizeBuffer (b : Build) (this : MString) (aNewLength : Z)
  : outcome MString :=
  match storage this with
  | TextStorage _ =>                       (* [{ assert(false); }] *)
      (_ <- assert_false b ;; Returns this)%outcome
  | WritableTextViewStorage _ iMaxLength =>
      Returns (set_length this (Z.min aNewLength iMaxLength))
  | TextBufferStorage aMaxLength _ =>
      Returns (set_length this (Z.min aNewLength aMaxLength))
  | StringStorage iOwnText iText iReserved =>
      Returns (String_ResizeBuffer (iLength this) iOwnText iText iReserved
                 aNewLength)
  end.

(** [memcpy(dest + offset, src, bytes)] on UTF-16 storage: [bytes] is always
    twice a number of units here. *)
Definition memcpy (dest : list Z) (offset : Z) (src : list Z) (bytes : Z)
  : option (list Z) :=
  let count := bytes / 2 in
  if (0 <=? offset) && (offset + count <=? len dest) && (count <=? len src)
  then Some (firstn (Z.to_nat offset) dest
               ++ firstn (Z.to_nat count) src
               ++ skipn (Z.to_nat (offset + count)) dest)
  else None.

(** [memcpy(WritableText() + offset, src, bytes)] *)
Definition write (this : MString) (offset : Z) (src : list Z) (bytes : Z)
  : outcome MString :=
  match WritableText this with
  | None => if bytes =? 0 then Returns this else Undefined
  | Some dest =>
      match memcpy dest offset src bytes with
      | Some buffer => Returns (store this buffer)
      | None => Undefined
      end
  end.

(** The loop [while ( *p++) aLength++;] measuring null-terminated text. *)
Fixpoint measure (p : list Z) (aLength : Z) : option Z :=
  match p with
  | [] => None
  | u :: p' => if u =? 0 then Some aLength
               else measure p' (to_size_t (aLength + 1))
  end.

(** ** Constructors *)

(** [Text()] *)
Definition Text_empty : MString := mkMString 0 (TextStorage []).

(** [Text(const uint16_t* aText,size_t aLength)] *)
Definition Text_of (aText : list Z) (aLength : Z) : MString :=
  mkMString aLength (TextStorage aText).

(** [Text(const MString& aString)] *)
Definition Text_of_MString (aString : MString) : MString :=
  mkMString (iLength aString) (TextStorage (Data aString)).

(** [WritableTextView(uint16_t* aText,size_t aLength)] *)
Definition WritableTextView_of (aText : list Z) (aLength : Z) : MString :=
  mkMString aLength (WritableTextViewStorage aText aLength).

(** [TextBuffer<aMaxLength>()]: the array [iText] is not initialised, so its
    first contents are an argument. *)
Definition TextBuffer_new (aMaxLength : Z) (iText : list Z) : MString :=
  mkMString 0 (TextBufferStorage aMaxLength iText).

(** [iText[index] = unit] on an array: outside the array is undefined. *)
Definition assign (iText : list Z) (index unit : Z) : option (list Z) :=
  if (0 <=? index) && (index <? len iText)
  then Some (firstn (Z.to_nat index) iText
               ++ unit :: skipn (Z.to_nat (index + 1)) iText)
  else None.

(** The loop of [TextBuffer(const char* aText)]:
    [while ( *aText && iLength < aMaxLength) iText[iLength++] = *aText++;]
    yields the final [iLength] and [iText]. *)
Fixpoint TextBuffer_copy (aText : list Z) (iLength aMaxLength : Z)
    (iText : list Z) : option (Z * list Z) :=
  match aText with
  | [] => None
  | c :: aText' =>
      if negb (c =? 0) && (iLength <? aMaxLength)
      then
        match assign iText iLength (to_uint16 c) with
        | Some iText' =>
            TextBuffer_copy aText' (to_size_t (iLength + 1)) aMaxLength iText'
        | None => None
        end
      else Some (iLength, iText)
  end.

(** [TextBuffer<aMaxLength>(const char* aText)], from 8-bit text. *)
Definition TextBuffer_of (aMaxLength : Z) (iText aText : list Z)
  : option MString :=
  match TextBuffer_copy aText 0 aMaxLength iText with
  | Some (iLength, iText') =>
      Some (mkMString iLength (TextBufferStorage aMaxLength iText'))
  | None => None
  end.

(** [String()]: [iText(iOwnText)], [iReserved(KOwnTextLength)], the array
    [iOwnText] zero-initialised. *)
Definition String_new : MString :=
  mkMString 0
    (StringStorage (repeat 0 (Z.to_nat KOwnTextLength)) OwnText KOwnTextLength).

(** [~String()]: does [delete [] iText] exactly when [iText != iOwnText]. *)
Definition String_destructor_deletes (this : MString) : bool :=
  match storage this with
  | StringStorage _ (Allocated _) _ => true
  | _ => false
  end.

(** ** Mutators defined in the header *)

(** [void Clear()] *)
Definition Clear (b : Build) (this : MString) : outcome MString :=
  if negb (Writable this)
  then (_ <- assert_false b ;; Returns this)%outcome
  else ResizeBuffer b this 0.

(** [void SetLengthToZero()] *)
Definition SetLengthToZero (this : MString) : MString := set_length this 0.

(** [void Append(const MString& aString)]; [aString] is an object other
    than [this]. *)
Definition Append (b : Build) (this aString : MString) : outcome MString :=
  if negb (Writable this)
  then (_ <- assert_false b ;; Returns this)%outcome
  else
    let old_length := iLength this in
    (this1 <- ResizeBuffer b this (to_size_t (iLength this + iLength aString)) ;;
     write this1 old_length (Data aString)
       (to_size_t (to_size_t (iLength this1 - old_length) * 2)))%outcome.

(** [void Set(const MString& aString)] *)
Definition Set_ (b : Build) (this aString : MString) : outcome MString :=
  if negb (Writable this)
  then (_ <- assert_false b ;; Returns this)%outcome
  else
    (this1 <- ResizeBuffer b this (iLength aString) ;;
     write this1 0 (Data aString) (to_size_t (iLength this1 * 2)))%outcome.

(** [void Append(const uint16_t* aText,size_t aLength = npos)] *)
Definition Append16 (b : Build) (this : MString) (aText : list Z)
    (aLength : Z) : outcome MString :=
  if negb (Writable this)
  then (_ <- assert_false b ;; Returns this)%outcome
  else
    match (if aLength =? npos then measure aText 0 else Some aLength) with
    | None => Undefined
    | Some aLength =>
        let old_length := iLength this in
        (this1 <- ResizeBuffer b this (to_size_t (iLength this + aLength)) ;;
         write this1 old_length aText
           (to_size_t (to_size_t (iLength this1 - old_length) * 2)))%outcome
    end.

(** [void Set(const uint16_t* aText,size_t aLength = npos)] *)
Definition Set16 (b : Build) (this : MString) (aText : list Z)
    (aLength : Z) : outcome MString :=
  if negb (Writable this)
  then (_ <- assert_false b ;; Returns this)%outcome
  else
    match (if aLength =? npos then measure aText 0 else Some aLength) with
    | None => Undefined
    | Some aLength =>
        (this1 <- ResizeBuffer b this aLength ;;
         write this1 0 aText (to_size_t (iLength this1 * 2)))%outcome
    end.

(** [void Append(uint16_t aChar) { Append(&aChar,1); }] *)
Definition AppendChar (b : Build) (this : MString) (aChar : Z)
  : outcome MString :=
  Append16 b this [to_uint16 aChar] 1.

(** ** Sequences of mutations *)

(** A call of one of the mutators above. *)
Inductive mutation :=
| DoResizeBuffer (aNewLength : Z)
| DoClear
| DoSetLengthToZero
| DoAppend (aString : MString)
| DoSet (aString : MString)
| DoAppend16 (aText : list Z) (aLength : Z)
| DoSet16 (aText : list Z) (aLength : Z)
| DoAppendChar (aChar : Z).

Definition apply_mutation (b : Build) (m : mutation) (this : MString)
  : outcome MString :=
  match m with
  | DoResizeBuffer aNewLength => ResizeBuffer b this aNewLength
  | DoClear => Clear b this
  | DoSetLengthToZero => Returns (SetLengthToZero this)
  | DoAppend aString => Append b this aString
  | DoSet aString => Set_ b this aString
  | DoAppend16 aText aLength => Append16 b this aText aLength
  | DoSet16 aText aLength => Set16 b this aText aLength
  | DoAppendChar aChar => AppendChar b this aChar
  end.

(** Mutations one after the other, as long as they return. *)
Fixpoint apply_mutations (b : Build) (ms : list mutation) (this : MString)
  : outcome MString :=
  match ms with
  | [] => Returns this
  | m :: ms' =>
      (this1 <- apply_mutation b m this ;; apply_mutations b ms' this1)%outcome
  end.

(** [reached b limit s s']: [s'] is [s] after some mutations that all
    returned, the text never being longer than [limit] after one of them. *)
Inductive reached (b : Build) (limit : Z) (s : MString) : MString -> Prop :=
| reached_start : reached b limit s s
| reached_step m s' s'' :
    reached b limit s s' ->
    apply_mutation b m s' = Returns s'' ->
    iLength s'' <= limit ->
    reached b limit s s''.

(** A [String] whose text is in the member array [iOwnText]. *)
Definition inline (s : MString) : Prop :=
  exists iOwnText,
    storage s = StringStorage iOwnText OwnText KOwnTextLength /\
    len iOwnText = KOwnTextLength.

(** The arguments of a mutation are values of [size_t]: not negative. *)
Definition size_t_arguments (m : mutation) : Prop :=
  match m with
  | DoResizeBuffer aNewLength => 0 <= aNewLength
  | DoSet aString => 0 <= iLength aString
  | DoSet16 _ aLength => 0 <= aLength
  | _ => True
  end.


(** ** Lexicographic comparison *)

(** The loop and the three tests after it, shared by
    [Compare(const MString&)] and [Compare(const uint16_t*,size_t)]:
    [n] and [m] count the units left, [p] and [q] are the two pointers. *)
Fixpoint compare_units (n m : nat) (p q : list Z) : option Z :=
  match n, m with
  | S n', S m' =>                        (* [while (n != 0 && m != 0)] *)
      match p, q with
      | x :: p', y :: q' =>
          if x <? y then Some (-2)
          else if x >? y then Some 2
          else compare_units n' m' p' q'
      | _, _ => None
      end
  | _, S _ => Some (-1)                  (* [if (m) return -1;] *)
  | S _, O => Some 1                     (* [if (n) return 1;] *)
  | O, O => Some 0
  end.

(** [int32_t Compare(const MString& aString) const] *)
Definition Compare (this aString : MString) : option Z :=
  compare_units (Z.to_nat (iLength this)) (Z.to_nat (iLength aString))
    (Data this) (Data aString).

(** The loop of [Compare(const uint16_t* aText)] and the test after it. *)
Fixpoint compare_terminated (n : nat) (p q : list Z) : option Z :=
  match n with
  | S n' =>                              (* [while (n-- != 0)] *)
      match q with
      | [] => None
      | y :: q' =>
          if y =? 0 then Some 1
          else
            match p with
            | [] => None
            | x :: p' =>
                if x <? y then Some (-2)
                else if x >? y then Some 2
                else compare_terminated n' p' q'
            end
      end
  | O =>
      match q with
      | [] => None
      | y :: _ => if y =? 0 then Some 0 else Some (-1)
      end
  end.

(** [int32_t Compare(const uint16_t* aText) const] *)
Definition Compare16 (this : MString) (aText : list Z) : option Z :=
  compare_terminated (Z.to_nat (iLength this)) (Data this) aText.

(** [int32_t Compare(const uint16_t* aText,size_t aLength) const] *)
Definition Compare16n (this : MString) (aText : list Z) (aLength : Z)
  : option Z :=
  if aLength =? npos then Compare16 this aText
  else compare_units (Z.to_nat (iLength this)) (Z.to_nat aLength)
         (Data this) aText.

(** ** What the claims speak about *)

(** The text of a string: the [iLength] units at [Data()]. *)
Definition units (s : MString) : list Z :=
  firstn (Z.to_nat (iLength s)) (Data s).

(** The units of the text can all be read. *)
Definition readable (s : MString) : Prop :=
  0 <= iLength s <= len (Data s).

(** The storage fits in the address space: its size in bytes is a
    [size_t]. *)
Definition addressable (s : MString) : Prop :=
  2 * len (Data s) < 2 ^ 64.

(** The class invariant of a string with a fixed capacity. *)
Definition fixed_capacity (s : MString) : Prop :=
  match storage s with
  | WritableTextViewStorage iText iMaxLength =>
      0 <= iLength s <= iMaxLength /\ iMaxLength <= len iText
  | TextBufferStorage aMaxLength iText =>
      0 <= iLength s <= aMaxLength /\ aMaxLength = len iText
  | _ => False
  end.

Definition is_prefix (a b : list Z) : Prop := exists s, b = a ++ s.

Definition proper_prefix (a b : list Z) : Prop :=
  exists s, s <> [] /\ b = a ++ s.

(** Lexicographic order on unit sequences, by unit value. *)
Inductive lex_lt : list Z -> list Z -> Prop :=
| lex_lt_nil y t : lex_lt [] (y :: t)
| lex_lt_head x y s t : x < y -> lex_lt (x :: s) (y :: t)
| lex_lt_tail x s t : lex_lt s t -> lex_lt (x :: s) (x :: t).

(** ** FoldingIterator *)

Section Folding.

(** Declared in headers that are not part of this development:
    [StringMatchMethod::Ignore], [Char::AccentStripped] and
    [Char::GetLowerCase] (which yields the case variant and its length). *)
Variable Ignore : StringMatchMethod.t -> Z -> bool.
Variable AccentStripped : Z -> Z.
Variable GetLowerCase : Z -> list Z.

(** The wrapped [MIter<int32_t>] is the sequence of code points it has yet
    to deliver; its [Next] fails with [KErrorEndOfData] on the empty
    sequence. *)
Record FoldingIterator := mkFoldingIterator {
  iIter : list Z;
  iStringMatchMethod : StringMatchMethod.t;
  iFoldAccents : bool;
  iFoldCase : bool;
  iCaseVariant : list Z;
  iCaseVariantLength : Z;
  iCaseVariantIndex : Z
}.

(** [FoldingIterator(MIter<int32_t>& aIter,StringMatchMethod aStringMatchMethod)] *)
Definition FoldingIterator_of (aIter : list Z)
    (aStringMatchMethod : StringMatchMethod.t) : FoldingIterator :=
  mkFoldingIterator aIter aStringMatchMethod
    (StringMatchMethod.op_and aStringMatchMethod FoldAccents)
    (StringMatchMethod.op_and aStringMatchMethod FoldCase)
    [] 0 0.

(** The [for (;;)] loop of [Next]: the first code point that is not
    ignored, and the rest of the wrapped sequence. *)
Fixpoint next_kept (m : StringMatchMethod.t) (it : list Z)
  : option (Z * list Z) :=
  match it with
  | [] => None
  | c :: rest => if Ignore m c then next_kept m rest else Some (c, rest)
  end.

(** [Result Next(int32_t& aCode)]: the result, [aCode] and the iterator
    after the call. *)
Definition Next (this : FoldingIterator) : Result * Z * FoldingIterator :=
  if iCaseVariantIndex this <? iCaseVariantLength this
  then
    (KErrorNone,
     nth (Z.to_nat (iCaseVariantIndex this)) (iCaseVariant this) 0,
     mkFoldingIterator (iIter this) (iStringMatchMethod this)
       (iFoldAccents this) (iFoldCase this) (iCaseVariant this)
       (iCaseVariantLength this) (iCaseVariantIndex this + 1))
  else
    match next_kept (iStringMatchMethod this) (iIter this) with
    | None =>
        (KErrorEndOfData, -1,
         mkFoldingIterator [] (iStringMatchMethod this)
           (iFoldAccents this) (iFoldCase this) (iCaseVariant this)
           (iCaseVariantLength this) (iCaseVariantIndex this))
    | Some (c, rest) =>
        let c := if iFoldAccents this then AccentStripped c else c in
        if iFoldCase this
        then
          let v := GetLowerCase c in
          (KErrorNone, nth 0 v 0,
           mkFoldingIterator rest (iStringMatchMethod this)
             (iFoldAccents this) (iFoldCase this) v (len v) 1)
        else
          (KErrorNone, c,
           mkFoldingIterator rest (iStringMatchMethod this)
             (iFoldAccents this) (iFoldCase this) (iCaseVariant this)
             (iCaseVariantLength this) (iCaseVariantIndex this))
    end.

(** [void Back() override { throw KErrorUnimplemented; }] *)
Definition Back (this : FoldingIterator) : outcome FoldingIterator :=
  Throws KErrorUnimplemented.

(** The iterator after [k] calls of [Next]. *)
Fixpoint after_Next (k : nat) (this : FoldingIterator) : FoldingIterator :=
  match k with
  | O => this
  | S k' => after_Next k' (snd (Next this))
  end.

End Folding.

(** ** Fuzzy matching *)

(** [static constexpr int KMaxFuzzyDistance = 4] *)
Definition KMaxFuzzyDistance : Z := 4.

(** A distance beyond the cap is reported as [cap + 1] ("exceeds"). *)
Definition saturate (cap x : Z) : Z := Z.min x (cap + 1).

(** One row of the banded table: [a] is unit [i] of the first text, [t] the
    units of the second text from column [j] on, [diag] and [left] the
    cells to the upper left and to the left, [above] the cells of the
    previous row from column [j] on.  Cells outside the band
    [|i - j| <= cap] are not computed. *)
Fixpoint fuzzy_row (cap a i j : Z) (t : list Z) (diag : Z) (above : list Z)
    (left : Z) : list Z :=
  match t, above with
  | b :: t', up :: above' =>
      let cell :=
        if cap <? Z.abs (i - j) then cap + 1
        else saturate cap
               (Z.min (diag + (if a =? b then 0 else 1))
                  (Z.min (up + 1) (left + 1))) in
      cell :: fuzzy_row cap a i (j + 1) t' up above' cell
  | _, _ => []
  end.

(** Row 0 of the table, columns [j] on: [j] insertions. *)
Fixpoint fuzzy_first_row (cap j : Z) (t : list Z) : list Z :=
  match t with
  | [] => []
  | _ :: t' => saturate cap j :: fuzzy_first_row cap (j + 1) t'
  end.

(** The rows for the units [s] of the first text that follow row [i]. *)
Fixpoint fuzzy_rows (cap : Z) (s : list Z) (i : Z) (t : list Z)
    (row : list Z) : list Z :=
  match s with
  | [] => row
  | a :: s' =>
      fuzzy_rows cap s' (i + 1) t
        (fuzzy_row cap a (i + 1) 1 t (saturate cap i) row
           (saturate cap (i + 1)))
  end.

(** Modelled from the spec: the bodies of [MString::FuzzyCompare] and
    [MString::FuzzyMatch] are not in the header.  The spec describes
    "bounded edit distance (insertions, deletions, substitutions weighted
    equally) between folded sequences, capped at KMaxFuzzyDistance = 4;
    returns a boolean (distance <= cap) or the distance, with values
    beyond the cap signaled as exceeds rather than computed exactly", by
    "banded dynamic programming".  The two iterators are the code point
    sequences they deliver. *)
Definition FuzzyCompare (aIter1 aIter2 : list Z) (aMaxDistance : Z) : Z :=
  let cap := Z.min aMaxDistance KMaxFuzzyDistance in
  last (fuzzy_rows cap aIter1 0 aIter2 (fuzzy_first_row cap 1 aIter2))
       (saturate cap (len aIter1)).

(** Modelled from the spec: see [FuzzyCompare]. *)
Definition FuzzyMatch (aIter1 aIter2 : list Z) (aMaxDistance : Z) : bool :=
  FuzzyCompare aIter1 aIter2 aMaxDistance
    <=? Z.min aMaxDistance KMaxFuzzyDistance.

(** An alignment of two texts with [k] unit-cost edits: a unit is kept,
    substituted, deleted from the first text or inserted from the second. *)
Inductive edits : list Z -> list Z -> nat -> Prop :=
| edits_nil : edits [] [] 0
| edits_keep a s t k : edits s t k -> edits (a :: s) (a :: t) k
| edits_substitute a b s t k : edits s t k -> edits (a :: s) (b :: t) (S k)
| edits_delete a s t k : edits s t k -> edits (a :: s) t (S k)
| edits_insert b s t k : edits s t k -> edits s (b :: t) (S k).

(** The edit distance is the least number of edits of an alignment. *)
Definition edit_distance (s t : list Z) (d : nat) : Prop :=
  edits s t d /\ forall k, edits s t k -> (d <= k)%nat.

(** The textbook recursion for the distance, used to relate the table to
    [edit_distance]. *)
Fixpoint lev (s t : list Z) : nat :=
  match s with
  | [] => length t
  | a :: s' =>
      (fix lev_row (t : list Z) : nat :=
         match t with
         | [] => length s
         | b :: t' =>
             Nat.min (lev s' t' + (if a =? b then 0 else 1))
               (Nat.min (lev s' t + 1) (lev_row t' + 1))
         end) t
  end.

(** The saturated distances from [sp] to [tp] extended by each prefix of
    [t] in turn, prefixes being held in reverse. *)
Fixpoint row_of (cap : Z) (sp tp t : list Z) : list Z :=
  match t with
  | [] => []
  | b :: t' =>
      saturate cap (Z.of_nat (lev sp (b :: tp))) :: row_of cap sp (b :: tp) t'
  end.

(** ** Replacing and inserting *)

(** Modelled from the spec: [MString::Replace(size_t,size_t,const
    uint16_t*,size_t)] is declared in the header and defined elsewhere;
    [Insert] and the other overloads of [Replace] call it.  The header
    documents it as replacing "the text from aStart to aEnd with the UTF16
    text starting at aText", null-terminated if [aLength] is [npos].  The
    spec has text mutated "in place via the contract's resize/write
    primitives", a mutation of a read-only target as "a silent no-op" in
    release builds while "debug builds assert", and "inserting text longer
    than a fixed-capacity buffer's remaining room truncates rather than
    erroring".  So: the guard of the other mutators; then the buffer is
    resized with [ResizeBuffer] for the old text with the units from
    [aStart] to [aEnd] replaced by the new ones, and that text is written
    with [memcpy], as far as the length [ResizeBuffer] has set.  Positions
    outside the text and a length beyond the storage of [aText] are not
    described and are left undefined. *)
Definition Replace16 (b : Build) (this : MString) (aStart aEnd : Z)
    (aText : list Z) (aLength : Z) : outcome MString :=
  if negb (Writable this)
  then (_ <- assert_false b ;; Returns this)%outcome
  else
    match (if aLength =? npos then measure aText 0 else Some aLength) with
    | None => Undefined
    | Some aLength =>
        if (0 <=? aStart) && (aStart <=? aEnd) && (aEnd <=? iLength this)
           && (0 <=? aLength) && (aLength <=? len aText)
        then
          let text := firstn (Z.to_nat aStart) (units this)
                        ++ firstn (Z.to_nat aLength) aText
                        ++ skipn (Z.to_nat aEnd) (units this) in
          (this1 <- ResizeBuffer b this
                      (to_size_t (iLength this - (aEnd - aStart) + aLength)) ;;
           write this1 0 text (to_size_t (iLength this1 * 2)))%outcome
        else Undefined
    end.

(** [void Replace(size_t aStart,size_t aEnd,const MString& aString)]:
    [Replace(aStart,aEnd,aString.Data(),aString.Length())] *)
Definition Replace (b : Build) (this : MString) (aStart aEnd : Z)
    (aString : MString) : outcome MString :=
  Replace16 b this aStart aEnd (Data aString) (iLength aString).

(** [void Insert(size_t aIndex,const MString& aString)]:
    [Replace(aIndex,aIndex,aString)] *)
Definition Insert (b : Build) (this : MString) (aIndex : Z)
    (aString : MString) : outcome MString :=
  Replace b this aIndex aIndex aString.

(** [void Insert(size_t aIndex,const uint16_t* aText,size_t aLength = npos)]:
    [Replace(aIndex,aIndex,aText,aLength)] *)
Definition Insert16 (b : Build) (this : MString) (aIndex : Z)
    (aText : list Z) (aLength : Z) : outcome MString :=
  Replace16 b this aIndex aIndex aText aLength.

(** ** Equality and ordering operators of [MString] *)

Fixpoint units_eqb (p q : list Z) : bool :=
  match p, q with
  | [], [] => true
  | x :: p', y :: q' => (x =? y) && units_eqb p' q'
  | _, _ => false
  end.

(** [!memcmp(p, q, bytes)] on UTF-16 storage: both blocks must hold
    [bytes / 2] units. *)
Definition memcmp_zero (p q : list Z) (bytes : Z) : option bool :=
  let count := bytes / 2 in
  if (count <=? len p) && (count <=? len q)
  then Some (units_eqb (firstn (Z.to_nat count) p) (firstn (Z.to_nat count) q))
  else None.

(** [bool operator==(const MString& aString) const]:
    [aString.iLength == iLength && !memcmp(aString.Data(),Data(),iLength * sizeof(uint16_t))] *)
Definition op_eq (this aString : MString) : option bool :=
  if iLength aString =? iLength this
  then memcmp_zero (Data aString) (Data this) (to_size_t (iLength this * 2))
  else Some false.

(** [bool operator!=(const MString& aString) const] *)
Definition op_ne (this aString : MString) : option bool :=
  option_map negb (op_eq this aString).

(** The loop and the return of [operator==(const uint16_t* aText)]; [n] is
    the distance from [p] to [q = Data() + iLength]. *)
Fixpoint eq_terminated (n : nat) (p aText : list Z) : option bool :=
  match n with
  | O =>                                 (* [p == q && *aText == 0] *)
      match aText with
      | [] => None
      | y :: _ => Some (y =? 0)
      end
  | S n' =>
      match aText with
      | [] => None
      | y :: aText' =>
          if y =? 0 then Some false
          else
            match p with
            | [] => None
            | x :: p' =>
                if x =? y then eq_terminated n' p' aText' else Some false
            end
      end
  end.

(** [bool operator==(const uint16_t* aText) const] *)
Definition op_eq16 (this : MString) (aText : list Z) : option bool :=
  eq_terminated (Z.to_nat (iLength this)) (Data this) aText.

(** [bool operator!=(const uint16_t* aText) const] *)
Definition op_ne16 (this : MString) (aText : list Z) : option bool :=
  option_map negb (op_eq16 this aText).

(** [template<class T> bool operator<(const T& aOther) const], and [<=],
    [>], [>=], for [T = MString]. *)
Definition op_lt (this aOther : MString) : option bool :=
  option_map (fun r => r <? 0) (Compare this aOther).
Definition op_le (this aOther : MString) : option bool :=
  option_map (fun r => r <=? 0) (Compare this aOther).
Definition op_gt (this aOther : MString) : option bool :=
  option_map (fun r => r >? 0) (Compare this aOther).
Definition op_ge (this aOther : MString) : option bool :=
  option_map (fun r => r >=? 0) (Compare this aOther).

(** [Text(const uint16_t* aText)], from null-terminated text or a null
    pointer ([None]). *)
Definition Text_terminated (aText : option (list Z)) : option MString :=
  match aText with
  | None => Some (mkMString 0 (TextStorage []))
  | Some p =>
      match measure p 0 with
      | Some n => Some (mkMString n (TextStorage p))
      | None => None
      end
  end.

(** ** Reading a FoldingIterator to its end *)

Section FoldingResults.

Variable Ignore : StringMatchMethod.t -> Z -> bool.
Variable AccentStripped : Z -> Z.
Variable GetLowerCase : Z -> list Z.

(** A caller's loop [while (iter.Next(code) == KErrorNone) ...], run for at
    most [fuel] calls: the codes delivered. *)
Fixpoint delivered (fuel : nat) (this : FoldingIterator) : list Z :=
  match fuel with
  | O => []
  | S fuel' =>
      let '(error, aCode, this') :=
        Next Ignore AccentStripped GetLowerCase this in
      if error =? KErrorNone then aCode :: delivered fuel' this' else []
  end.

(** What folding makes of one code point that is kept. *)
Definition folded_code (aFoldAccents aFoldCase : bool) (c : Z) : list Z :=
  let c := if aFoldAccents then AccentStripped c else c in
  if aFoldCase then GetLowerCase c else [c].

(** What folding makes of a sequence of code points under a method. *)
Definition folded (m : StringMatchMethod.t) (codes : list Z) : list Z :=
  flat_map
    (folded_code (StringMatchMethod.op_and m FoldAccents)
       (StringMatchMethod.op_and m FoldCase))
    (filter (fun c => negb (Ignore m c)) codes).

(** The codes an iterator in any state has yet to deliver: the rest of the
    buffered case variant, then the folded rest of the wrapped sequence. *)
Definition pending (this : FoldingIterator) : list Z :=
  skipn (Z.to_nat (iCaseVariantIndex this))
    (firstn (Z.to_nat (iCaseVariantLength this)) (iCaseVariant this))
  ++ flat_map (folded_code (iFoldAccents this) (iFoldCase this))
       (filter (fun c => negb (Ignore (iStringMatchMethod this) c))
          (iIter this)).

(** The buffered case variant is within its array. *)
Definition variant_in_bounds (this : FoldingIterator) : Prop :=
  0 <= iCaseVariantIndex this /\
  iCaseVariantLength this <= len (iCaseVariant this).

End FoldingResults.

(** ** InputStream (cartotype_stream.h) *)

Definition KErrorInvalidArgument : Result := 15.
Definition to_uint64 (x : Z) : Z := x mod 2 ^ 64.

(** The data members of [InputStream] that its inline functions use.
    [m_data_start] is [None] for [nullptr], and otherwise the block handed
    out by the last [StreamRead]; the pointer [m_data] is kept as its
    distance from [m_data_start], and is null when [m_data_start] is and
    the distance is 0. *)
Record InputStream := mkInputStream {
  m_data_start : option (list Z);
  m_data : Z;
  m_data_bytes : Z;
  m_data_position : Z;
  m_file_pos_bytes : Z
}.

(** A stream as constructed: both pointers [nullptr], no data cached, file
    positions of 4 bytes. *)
Definition InputStream_new : InputStream := mkInputStream None 0 0 0 4.

(** The bytes at [m_data_start]: none at [nullptr]. *)
Definition block (this : InputStream) : list Z :=
  match m_data_start this with
  | Some bytes => bytes
  | None => []
  end.

(** [m_data[index]], for an index relative to the pointer; nothing can be
    read through a null pointer or outside the block. *)
Definition data_at (this : InputStream) (index : Z) : option Z :=
  match m_data_start this with
  | Some bytes =>
      if 0 <=? m_data this + index
      then nth_error bytes (Z.to_nat (m_data this + index))
      else None
  | None => None
  end.

(** [m_data += aBytes; m_data_bytes -= aBytes;] *)
Definition advance (this : InputStream) (aBytes : Z) : InputStream :=
  mkInputStream (m_data_start this) (m_data this + aBytes)
    (m_data_bytes this - aBytes) (m_data_position this)
    (m_file_pos_bytes this).

(** [int64_t Position() const]:
    [m_data_position + (int64_t)(m_data - m_data_start)]; the sum of two
    offsets into one stream, taken without overflow. *)
Definition Position (this : InputStream) : Z :=
  m_data_position this + m_data this.

(** [int32_t FilePosBytes() const] *)
Definition FilePosBytes (this : InputStream) : Z := m_file_pos_bytes this.

(** [void SetFilePosBytes(int32_t aBytes)] *)
Definition SetFilePosBytes (this : InputStream) (aBytes : Z)
  : outcome InputStream :=
  if negb (aBytes =? 4) && negb (aBytes =? 5)
  then Throws KErrorInvalidArgument
  else Returns (mkInputStream (m_data_start this) (m_data this)
                  (m_data_bytes this) (m_data_position this) aBytes).

(** [const uint8_t* Read(size_t aBytes)]: the pointer returned and the
    stream after the call.  The pointer is the old [m_data]: [None] for
    [nullptr], which it is while no block has been read, and otherwise the
    bytes of the block from it on.  [m_data += aBytes] is pointer
    arithmetic: it is undefined when it leaves the block, and at a null
    pointer when [aBytes] is not 0. *)
Definition Read (this : InputStream) (aBytes : Z)
  : outcome (option (list Z) * InputStream) :=
  if m_data_bytes this >=? aBytes
  then
    match m_data_start this with
    | Some bytes =>
        if (0 <=? m_data this) && (0 <=? aBytes)
           && (m_data this + aBytes <=? len bytes)
        then Returns (Some (skipn (Z.to_nat (m_data this)) bytes),
                      advance this aBytes)
        else Undefined
    | None =>
        if (m_data this =? 0) && (aBytes =? 0)
        then Returns (None, advance this aBytes)
        else Undefined
    end
  else Returns (None, this).

(** The bytes [m_data[-n] .. m_data[-1]] joined as the source does it:
    each converted to [uint64_t], shifted to its place and or-ed in. *)
Fixpoint or_bytes (this : InputStream) (n : nat) (acc : Z) : option Z :=
  match n with
  | O => Some acc
  | S n' =>
      match data_at this (- Z.of_nat n) with
      | Some byte =>
          or_bytes this n'
            (Z.lor acc (to_uint64 (Z.shiftl byte (8 * Z.of_nat n'))))
      | None => None
      end
  end.

Section InputStreamHelpers.

(** Defined out of line: what the readers do when too few bytes are
    cached. *)
Variable ReadUint8Helper : InputStream -> outcome (Z * InputStream).
Variable ReadUint40Helper : InputStream -> outcome (Z * InputStream).
Variable ReadUint48Helper : InputStream -> outcome (Z * InputStream).
Variable ReadUint56Helper : InputStream -> outcome (Z * InputStream).

(** [uint8_t ReadUint8()] *)
Definition ReadUint8 (this : InputStream) : outcome (Z * InputStream) :=
  if m_data_bytes this >=? 1
  then
    match data_at this 0 with
    | Some byte => Returns (byte, advance this 1)
    | None => Undefined
    end
  else ReadUint8Helper this.

(** [uint64_t ReadUint40()] *)
Definition ReadUint40 (this : InputStream) : outcome (Z * InputStream) :=
  if m_data_bytes this >=? 5
  then
    let this' := advance this 5 in
    match or_bytes this' 5 0 with
    | Some value => Returns (to_uint64 value, this')
    | None => Undefined
    end
  else ReadUint40Helper this.

(** [uint64_t ReadUint48()] *)
Definition ReadUint48 (this : InputStream) : outcome (Z * InputStream) :=
  if m_data_bytes this >=? 6
  then
    let this' := advance this 6 in
    match or_bytes this' 6 0 with
    | Some value => Returns (to_uint64 value, this')
    | None => Undefined
    end
  else ReadUint48Helper this.

(** [uint64_t ReadUint56()] *)
Definition ReadUint56 (this : InputStream) : outcome (Z * InputStream) :=
  if m_data_bytes this >=? 7
  then
    let this' := advance this 7 in
    match or_bytes this' 7 0 with
    | Some value => Returns (to_uint64 value, this')
    | None => Undefined
    end
  else ReadUint56Helper this.

End InputStreamHelpers.

(** The cached bytes lie in the block and are bytes. *)
Definition cache_in_block (this : InputStream) : Prop :=
  0 <= m_data this /\ 0 <= m_data_bytes this /\
  m_data this + m_data_bytes this <= len (block this) /\
  Forall (fun byte => 0 <= byte < 256) (block this).

(** The cached bytes: the next [m_data_bytes] bytes at [m_data]. *)
Definition cached (this : InputStream) : list Z :=
  firstn (Z.to_nat (m_data_bytes this))
    (skipn (Z.to_nat (m_data this)) (block this)).

(** The number a sequence of bytes is in big-endian order. *)
Definition big_endian (bytes : list Z) : Z :=
  fold_left (fun acc byte => acc * 256 + byte) bytes 0.

(** Calls of [SetFilePosBytes] one after the other; a call that throws
    leaves the stream as it was. *)
Fixpoint SetFilePosBytes_all (this : InputStream) (requests : list Z)
  : InputStream :=
  match requests with
  | [] => this
  | aBytes :: rest =>
      match SetFilePosBytes this aBytes with
      | Returns this' => SetFilePosBytes_all this' rest
      | _ => SetFilePosBytes_all this rest
      end
  end.

(** A reader returned the big-endian number held in the next [k] cached
    bytes and moved past them. *)
Definition read_big_endian (k : nat) (this : InputStream)
    (result : outcome (Z * InputStream)) : Prop :=
  result = Returns (big_endian (firstn k (cached this)),
                    advance this (Z.of_nat k)) /\
  0 <= big_endian (firstn k (cached this)) < 2 ^ (8 * Z.of_nat k) /\
  cached (advance this (Z.of_nat k)) = skipn k (cached this) /\
  Position (advance this (Z.of_nat k)) = Position this + Z.of_nat k /\
  cache_in_block (advance this (Z.of_nat k)).

Section FilePositions.

Variable ReadUint48Helper : InputStream -> outcome (Z * InputStream).
Variable ReadUint56Helper : InputStream -> outcome (Z * InputStream).

(** [int64_t ReadFilePosWithDegreeSquare()]:
    [m_file_pos_bytes == 4 ? ReadUint48() : ReadUint56()] *)
Definition ReadFilePosWithDegreeSquare (this : InputStream)
  : outcome (Z * InputStream) :=
  if m_file_pos_bytes this =? 4
  then ReadUint48 ReadUint48Helper this
  else ReadUint56 ReadUint56Helper this.

End FilePositions.

(** ** DataVersion (cartotype_map_metadata.h) *)

Module DataVersion.

Record t := Make { Major : Z (* uint16_t *); Minor : Z (* uint16_t *) }.

(** [bool operator==(const DataVersion& aOther) const] *)
Definition op_eq (this aOther : t) : bool :=
  (Major this =? Major aOther) && (Minor this =? Minor aOther).

(** [bool operator>=(const DataVersion& aOther) const] *)
Definition op_ge (this aOther : t) : bool :=
  (Major this >? Major aOther)
  || ((Major this =? Major aOther) && (Minor this >=? Minor aOther)).

End DataVersion.

(** ** VariableDictionary (cartotype_expression.h) *)

Module VariableDictionary.

(** The key comparison of [std::map<String,String>]: [std::less<String>],
    which is [MString::operator<], on the texts of two [String] keys. *)
Definition less (a b : list Z) : bool :=
  match compare_units (length a) (length b) a b with
  | Some r => r <? 0
  | None => false
  end.

(** [StringDictionary iDictionary]: the entries of the map in the order of
    their keys, each a key text and a value text. *)
Definition t := list (list Z * list Z).

(** [iDictionary.find(aKey)]: the value of the entry whose key is
    equivalent to [aKey], neither less than the other. *)
Fixpoint find (aKey : list Z) (d : t) : option (list Z) :=
  match d with
  | [] => None
  | (k, v) :: d' =>
      if less aKey k then None
      else if less k aKey then find aKey d'
      else Some v
  end.

(** [iDictionary[aVariableName] = aValue] *)
Fixpoint assign (aVariableName aValue : list Z) (d : t) : t :=
  match d with
  | [] => [(aVariableName, aValue)]
  | (k, v) :: d' =>
      if less aVariableName k then (aVariableName, aValue) :: d
      else if less k aVariableName
           then (k, v) :: assign aVariableName aValue d'
           else (k, aValue) :: d'
  end.

(** [iDictionary.erase(aVariableName)] *)
Fixpoint erase (aVariableName : list Z) (d : t) : t :=
  match d with
  | [] => []
  | (k, v) :: d' =>
      if less aVariableName k then d
      else if less k aVariableName then (k, v) :: erase aVariableName d'
      else d'
  end.

(** [bool Find(const MString& aKey,ExpressionValue& aValue,...) const]:
    [Some] of the string assigned to [aValue] when the result is true,
    [None] when it is false and [aValue] is left alone. *)
Definition Find (this : t) (aKey : list Z) : option (list Z) := find aKey this.

(** [bool Find(int32_t aIndex,...) const] *)
Definition Find_index (this : t) (aIndex : Z) : bool := false.

(** [void Set(const String& aVariableName,const String& aValue)] *)
Definition Set_ (this : t) (aVariableName aValue : list Z) : t :=
  if negb (len aValue =? 0)
  then assign aVariableName aValue this
  else erase aVariableName this.

(** [Apply(aFunctor)] calls the functor on the entries in this order. *)
Definition Apply (this : t) : list (list Z * list Z) := this.

(** A dictionary after a series of [Set] calls. *)
Fixpoint Set_all (this : t) (calls : list (list Z * list Z)) : t :=
  match calls with
  | [] => this
  | (name, value) :: rest => Set_all (Set_ this name value) rest
  end.

(** The keys grow strictly from entry to entry. *)
Inductive increasing : t -> Prop :=
| increasing_nil : increasing []
| increasing_cons k v d :
    (forall k' v', In (k', v') d -> lex_lt k k') ->
    increasing d -> increasing ((k, v) :: d).

End VariableDictionary.

(* ------------------------------------------------------------------ *)
(** * Theorems *)

(** ** StringMatchMethod *)

Lemma to_uint16_small x : 0 <= x < 2 ^ 16 -> to_uint16 x = x.
Proof. intros H. unfold to_uint16. apply Z.mod_small. exact H. Qed.

Lemma land_63_mod x : Z.land x 63 = x mod 64.
Proof. change 63 with (Z.ones 6). rewrite Z.land_ones by lia. reflexivity. Qed.

Lemma land_63_range x : 0 <= Z.land x 63 < 64.
Proof. rewrite land_63_mod. apply Z.mod_pos_bound. lia. Qed.

Lemma below_64_land x : 0 <= x < 64 -> Z.land x 63 = x.
Proof. intros H. rewrite land_63_mod. apply Z.mod_small. exact H. Qed.

Lemma flag_value_range f : 0 <= flag_value f < 64.
Proof. destruct f; simpl; lia. Qed.

Lemma lor_below_64 x y : 0 <= x < 64 -> 0 <= y < 64 -> 0 <= Z.lor x y < 64.
Proof.
  intros Hx Hy.
  rewrite <- (below_64_land x Hx), <- (below_64_land y Hy).
  rewrite <- Z.land_lor_distr_l. apply land_63_range.
Qed.

Lemma land_below_64 x y : 0 <= x < 64 -> 0 <= Z.land x y < 64.
Proof.
  intros Hx. rewrite <- (below_64_land x Hx).
  rewrite (Z.land_comm (Z.land x 63) y), Z.land_assoc. apply land_63_range.
Qed.

Lemma add_assign_flags this flag :
  0 <= StringMatchMethod.Flags this < 64 ->
  StringMatchMethod.Flags (fst (StringMatchMethod.op_add_assign this flag))
  = Z.lor (StringMatchMethod.Flags this) (flag_value flag).
Proof.
  intros H. unfold StringMatchMethod.op_add_assign, StringMatchMethod.Flags in *.
  simpl. pose proof (flag_value_range flag) as Hf.
  rewrite (to_uint16_small (flag_value flag)) by lia.
  apply to_uint16_small.
  pose proof (lor_below_64 _ _ H Hf). lia.
Qed.

Lemma sub_assign_flags this flag :
  0 <= StringMatchMethod.Flags this < 64 ->
  StringMatchMethod.Flags (fst (StringMatchMethod.op_sub_assign this flag))
  = Z.land (StringMatchMethod.Flags this) (Z.lnot (flag_value flag)).
Proof.
  intros H. unfold StringMatchMethod.op_sub_assign, StringMatchMethod.Flags in *.
  simpl. pose proof (flag_value_range flag) as Hf.
  rewrite (to_uint16_small (flag_value flag)) by lia.
  apply to_uint16_small.
  pose proof (land_below_64 _ (Z.lnot (flag_value flag)) H). lia.
Qed.

Lemma FromFlags_flags f :
  StringMatchMethod.Flags (StringMatchMethod.FromFlags f) = f mod 64.
Proof.
  unfold StringMatchMethod.FromFlags, StringMatchMethod.of_uint,
    StringMatchMethod.Flags. simpl.
  rewrite to_uint16_small; [apply land_63_mod|].
  pose proof (land_63_range f). lia.
Qed.

Lemma constructible_below_64 m :
  StringMatchMethod.constructible m -> 0 <= StringMatchMethod.Flags m < 64.
Proof.
  induction 1 as [|f|this flag _ IH|this flag _ IH].
  - simpl. lia.
  - rewrite FromFlags_flags. apply Z.mod_pos_bound. lia.
  - rewrite add_assign_flags by exact IH.
    apply lor_below_64; [exact IH | apply flag_value_range].
  - rewrite sub_assign_flags by exact IH.
    apply land_below_64. exact IH.
Qed.

Lemma of_flags_flags f1 f2 f3 f4 f5 f6 :
  StringMatchMethod.Flags (StringMatchMethod.of_flags f1 f2 f3 f4 f5 f6)
  = Z.lor (flag_value f1) (Z.lor (flag_value f2) (Z.lor (flag_value f3)
      (Z.lor (flag_value f4) (Z.lor (flag_value f5) (flag_value f6)))))
  /\ 0 <= StringMatchMethod.Flags (StringMatchMethod.of_flags f1 f2 f3 f4 f5 f6)
       < 64.
Proof.
  unfold StringMatchMethod.of_flags, StringMatchMethod.Flags. simpl.
  assert (H : 0 <= Z.lor (flag_value f1) (Z.lor (flag_value f2)
            (Z.lor (flag_value f3) (Z.lor (flag_value f4)
               (Z.lor (flag_value f5) (flag_value f6))))) < 64)
    by (repeat apply lor_below_64; apply flag_value_range).
  rewrite to_uint16_small by lia. split; [reflexivity | exact H].
Qed.

(** C10. Every [StringMatchMethod] keeps only the six flag bits: [FromFlags]
    masks the raw pattern, so [FromFlags(f).Flags()] is [f mod 64]; the
    flags of every value built from the constructors and [+=], [-=] are
    below 64; and [+=] and [-=] keep flags that are below 64 below 64, in
    the object and in the returned copy. *)
Theorem StringMatchMethod_flags_below_64
    (f : Z) (m : StringMatchMethod.t) (flag : StringMatchMethodFlag) :
  StringMatchMethod.Flags (StringMatchMethod.FromFlags f) = f mod 64 /\
  (StringMatchMethod.constructible m -> 0 <= StringMatchMethod.Flags m < 64) /\
  (0 <= StringMatchMethod.Flags m < 64 ->
   0 <= StringMatchMethod.Flags (fst (StringMatchMethod.op_add_assign m flag)) < 64 /\
   0 <= StringMatchMethod.Flags (snd (StringMatchMethod.op_add_assign m flag)) < 64 /\
   0 <= StringMatchMethod.Flags (fst (StringMatchMethod.op_sub_assign m flag)) < 64 /\
   0 <= StringMatchMethod.Flags (snd (StringMatchMethod.op_sub_assign m flag)) < 64).
Proof.
  split; [apply FromFlags_flags|].
  split; [apply constructible_below_64|].
  intros H.
  assert (Ha : 0 <= StringMatchMethod.Flags
                      (fst (StringMatchMethod.op_add_assign m flag)) < 64).
  { rewrite add_assign_flags by exact H.
    apply lor_below_64; [exact H | apply flag_value_range]. }
  assert (Hs : 0 <= StringMatchMethod.Flags
                      (fst (StringMatchMethod.op_sub_assign m flag)) < 64).
  { rewrite sub_assign_flags by exact H. apply land_below_64. exact H. }
  repeat split; try apply Ha; try apply Hs.
Qed.

Lemma StringMatchMethod_flags_below_64_witness :
  StringMatchMethod.Flags (StringMatchMethod.FromFlags 200) = 200 mod 64 /\
  0 <= StringMatchMethod.Flags (StringMatchMethod.FromFlags 200) < 64 /\
  0 <= StringMatchMethod.Flags
         (fst (StringMatchMethod.op_add_assign
                 (StringMatchMethod.FromFlags 200) FoldCase)) < 64.
Proof.
  destruct (StringMatchMethod_flags_below_64 200
              (StringMatchMethod.FromFlags 200) FoldCase) as (H1 & H2 & H3).
  split; [exact H1|].
  split; [apply H2; apply StringMatchMethod.C_FromFlags|].
  apply H3. vm_compute. split; [discriminate | reflexivity].
Defined.

(** C5, the claim as stated fails: [+=] changes the object it is applied to.
    A default-constructed method has flags 0; after [+= Prefix] the same
    object has flags 1. *)
Lemma StringMatchMethod_add_assign_mutates :
  StringMatchMethod.Flags StringMatchMethod.default = 0 /\
  StringMatchMethod.Flags
    (StringMatchMethod.after (StringMatchMethod.CallAddAssign Prefix)
       StringMatchMethod.default) = 1 /\
  ~ (forall op this, StringMatchMethod.after op this = this).
Proof.
  split; [reflexivity|]. split; [reflexivity|].
  intros H.
  specialize (H (StringMatchMethod.CallAddAssign Prefix)
                StringMatchMethod.default).
  discriminate H.
Qed.

(** C5, amended. A [StringMatchMethod] is a small value: the members
    declared [const] leave the object as it is; [+=] and [-=] change the
    object in place, setting and clearing the bits of the flag; a method
    made from a raw bit pattern holds the pattern masked with 63, one made
    from up to six flags holds their union, both below 64; and [==] is
    equality of the flags, which is equality of the values. *)
Theorem StringMatchMethod_value_semantics
    (op : StringMatchMethod.operation) (this aOther : StringMatchMethod.t)
    (aFlags : Z) (flag f1 f2 f3 f4 f5 f6 : StringMatchMethodFlag) :
  (StringMatchMethod.is_const op = true ->
   StringMatchMethod.after op this = this) /\
  (StringMatchMethod.constructible this ->
   StringMatchMethod.Flags
     (StringMatchMethod.after (StringMatchMethod.CallAddAssign flag) this)
   = Z.lor (StringMatchMethod.Flags this) (flag_value flag) /\
   StringMatchMethod.Flags
     (StringMatchMethod.after (StringMatchMethod.CallSubAssign flag) this)
   = Z.land (StringMatchMethod.Flags this) (Z.lnot (flag_value flag))) /\
  (StringMatchMethod.Flags (StringMatchMethod.FromFlags aFlags)
   = Z.land aFlags 63 /\
   0 <= StringMatchMethod.Flags (StringMatchMethod.FromFlags aFlags) < 64) /\
  (StringMatchMethod.Flags (StringMatchMethod.of_flags f1 f2 f3 f4 f5 f6)
   = Z.lor (flag_value f1) (Z.lor (flag_value f2) (Z.lor (flag_value f3)
       (Z.lor (flag_value f4) (Z.lor (flag_value f5) (flag_value f6))))) /\
   0 <= StringMatchMethod.Flags (StringMatchMethod.of_flags f1 f2 f3 f4 f5 f6)
     < 64) /\
  (StringMatchMethod.op_eq this aOther = true <->
   StringMatchMethod.Flags this = StringMatchMethod.Flags aOther) /\
  (StringMatchMethod.op_eq this aOther = true <-> this = aOther) /\
  StringMatchMethod.op_ne this aOther
  = negb (StringMatchMethod.op_eq this aOther).
Proof.
  split.
  { destruct op; simpl; intros H; try reflexivity; discriminate H. }
  split.
  { intros Hc. apply constructible_below_64 in Hc. simpl.
    split; [apply add_assign_flags | apply sub_assign_flags]; exact Hc. }
  split.
  { rewrite FromFlags_flags, land_63_mod.
    split; [reflexivity | apply Z.mod_pos_bound; lia]. }
  split; [apply of_flags_flags|].
  unfold StringMatchMethod.op_eq, StringMatchMethod.op_ne,
    StringMatchMethod.Flags.
  split; [apply Z.eqb_eq|].
  split; [|reflexivity].
  rewrite Z.eqb_eq. destruct this as [x], aOther as [y]. simpl.
  split; [intros ->; reflexivity | intros H; injection H; auto].
Qed.

Lemma StringMatchMethod_value_semantics_witness :
  StringMatchMethod.after StringMatchMethod.CallFlags
    (StringMatchMethod.FromFlags 5) = StringMatchMethod.FromFlags 5 /\
  StringMatchMethod.Flags
    (StringMatchMethod.after (StringMatchMethod.CallAddAssign Fuzzy)
       (StringMatchMethod.FromFlags 5)) = 13.
Proof.
  destruct (StringMatchMethod_value_semantics StringMatchMethod.CallFlags
              (StringMatchMethod.FromFlags 5) StringMatchMethod.default
              0 Fuzzy Exact Exact Exact Exact Exact Exact)
    as (H1 & H2 & _).
  split; [apply H1; reflexivity|].
  destruct (H2 (StringMatchMethod.C_FromFlags 5)) as [H _]. exact H.
Defined.
(** ** Lexicographic comparison *)

(** Comparison of two complete unit sequences. *)
Lemma compare_units_firstn n m p q :
  (n <= length p)%nat -> (m <= length q)%nat ->
  compare_units n m p q
  = compare_units (length (firstn n p)) (length (firstn m q))
      (firstn n p) (firstn m q).
Proof.
  revert m p q. induction n as [|n IH]; intros m p q Hn Hm.
  - destruct m as [|m]; [reflexivity|].
    destruct q as [|y q]; [simpl in Hm; lia|]. reflexivity.
  - destruct p as [|x p]; [simpl in Hn; lia|].
    destruct m as [|m]; [reflexivity|].
    destruct q as [|y q]; [simpl in Hm; lia|].
    simpl in Hn, Hm. simpl.
    destruct (x <? y); [reflexivity|]. destruct (x >? y); [reflexivity|].
    apply IH; lia.
Qed.

Lemma compare_units_cons x y a b :
  compare_units (length (x :: a)) (length (y :: b)) (x :: a) (y :: b)
  = if x <? y then Some (-2)
    else if x >? y then Some 2
    else compare_units (length a) (length b) a b.
Proof. reflexivity. Qed.

Ltac order_cases x y :=
  let Hlt := fresh "Hlt" in
  let Hgt := fresh "Hgt" in
  destruct (Z.ltb_spec x y) as [Hlt|Hlt];
  [|destruct (Z.gtb_spec x y) as [Hgt|Hgt];
    [|assert (x = y) by lia; subst y]].

Lemma compare_units_value a b :
  exists r, compare_units (length a) (length b) a b = Some r /\
            (r = 0 \/ r = -1 \/ r = 1 \/ r = -2 \/ r = 2).
Proof.
  revert b. induction a as [|x a IH]; intros [|y b].
  - exists 0. simpl. auto.
  - exists (-1). simpl. auto.
  - exists 1. simpl. auto.
  - rewrite compare_units_cons. order_cases x y.
    + exists (-2). auto 6.
    + exists 2. auto 6.
    + apply IH.
Qed.

Lemma compare_units_equal a b :
  compare_units (length a) (length b) a b = Some 0 <-> a = b.
Proof.
  revert b. induction a as [|x a IH]; intros [|y b];
    try (simpl; split; intros H; (discriminate H || reflexivity)).
  rewrite compare_units_cons. order_cases x y.
  - split; [discriminate|]. intros H; injection H; lia.
  - split; [discriminate|]. intros H; injection H; lia.
  - rewrite IH. split; [intros ->; reflexivity | intros H; injection H; auto].
Qed.

Lemma proper_prefix_cons x y a b :
  proper_prefix (x :: a) (y :: b) <-> x = y /\ proper_prefix a b.
Proof.
  split.
  - intros (s & Hs & E). simpl in E. injection E as E1 E2.
    split; [auto|]. exists s. auto.
  - intros (-> & s & Hs & ->). exists s. auto.
Qed.

Lemma compare_units_prefix a b :
  compare_units (length a) (length b) a b = Some (-1) <-> proper_prefix a b.
Proof.
  revert b. induction a as [|x a IH]; intros [|y b].
  - simpl. split; [discriminate|]. intros (s & Hs & E). simpl in E. congruence.
  - simpl. split; [|reflexivity]. intros _. exists (y :: b).
    split; [discriminate | reflexivity].
  - simpl. split; [discriminate|]. intros (s & _ & E). discriminate E.
  - rewrite compare_units_cons, proper_prefix_cons. order_cases x y.
    + split; [discriminate | lia].
    + split; [discriminate | lia].
    + rewrite IH. tauto.
Qed.

Lemma compare_units_extension a b :
  compare_units (length a) (length b) a b = Some 1 <-> proper_prefix b a.
Proof.
  revert b. induction a as [|x a IH]; intros [|y b].
  - simpl. split; [discriminate|]. intros (s & Hs & E). simpl in E. congruence.
  - simpl. split; [discriminate|]. intros (s & _ & E). discriminate E.
  - simpl. split; [|reflexivity]. intros _. exists (x :: a).
    split; [discriminate | reflexivity].
  - rewrite compare_units_cons, proper_prefix_cons. order_cases x y.
    + split; [discriminate | lia].
    + split; [discriminate | lia].
    + rewrite IH. tauto.
Qed.

Lemma is_prefix_cons x y a b :
  is_prefix (x :: a) (y :: b) <-> x = y /\ is_prefix a b.
Proof.
  split.
  - intros (s & E). simpl in E. injection E as E1 E2.
    split; [auto|]. exists s. auto.
  - intros (-> & s & ->). exists s. reflexivity.
Qed.

Lemma lex_lt_cons x y a b :
  lex_lt (x :: a) (y :: b) <-> x < y \/ (x = y /\ lex_lt a b).
Proof.
  split.
  - intros H. inversion H; subst; auto.
  - intros [H | [-> H]]; [apply lex_lt_head | apply lex_lt_tail]; exact H.
Qed.

Lemma compare_units_less a b :
  compare_units (length a) (length b) a b = Some (-2)
  <-> lex_lt a b /\ ~ is_prefix a b.
Proof.
  revert b. induction a as [|x a IH]; intros [|y b].
  - simpl. split; [discriminate|]. intros [H _]. inversion H.
  - simpl. split; [discriminate|]. intros [_ H]. exfalso. apply H.
    exists (y :: b). reflexivity.
  - simpl. split; [discriminate|]. intros [H _]. inversion H.
  - rewrite compare_units_cons, lex_lt_cons, is_prefix_cons. order_cases x y.
    + split; [|reflexivity]. intros _. split; [auto | lia].
    + split; [discriminate | lia].
    + rewrite IH. split.
      * intros [H1 H2]. split; [auto | tauto].
      * intros [[H1 | [_ H1]] H2]; [lia|]. tauto.
Qed.

Lemma compare_units_greater a b :
  compare_units (length a) (length b) a b = Some 2
  <-> lex_lt b a /\ ~ is_prefix b a.
Proof.
  revert b. induction a as [|x a IH]; intros [|y b].
  - simpl. split; [discriminate|]. intros [H _]. inversion H.
  - simpl. split; [discriminate|]. intros [H _]. inversion H.
  - simpl. split; [discriminate|]. intros [_ H]. exfalso. apply H.
    exists (x :: a). reflexivity.
  - rewrite compare_units_cons, lex_lt_cons, is_prefix_cons. order_cases x y.
    + split; [discriminate | lia].
    + split; [|reflexivity]. intros _. split; [lia | lia].
    + rewrite IH. split.
      * intros [H1 H2]. split; [auto | tauto].
      * intros [[H1 | [_ H1]] H2]; [lia|]. tauto.
Qed.

Lemma compare_units_opp a b r :
  compare_units (length a) (length b) a b = Some r ->
  compare_units (length b) (length a) b a = Some (- r).
Proof.
  revert b. induction a as [|x a IH]; intros [|y b].
  - simpl. intros H; injection H as <-. reflexivity.
  - simpl. intros H; injection H as <-. reflexivity.
  - simpl. intros H; injection H as <-. reflexivity.
  - rewrite !compare_units_cons.
    destruct (Z.ltb_spec x y) as [H1|H1], (Z.gtb_spec x y) as [H2|H2],
      (Z.ltb_spec y x) as [H3|H3], (Z.gtb_spec y x) as [H4|H4]; try lia;
      try (intros H; injection H as <-; reflexivity).
    apply IH.
Qed.

Lemma readable_length s :
  readable s -> (Z.to_nat (iLength s) <= length (Data s))%nat.
Proof. unfold readable, len. lia. Qed.

Lemma Compare_units A B :
  readable A -> readable B ->
  Compare A B
  = compare_units (length (units A)) (length (units B)) (units A) (units B).
Proof.
  intros HA HB. unfold Compare, units.
  apply compare_units_firstn; apply readable_length; assumption.
Qed.

(** C1. For two strings whose text can be read, [Compare] returns one of
    0, -1, 1, -2, 2: 0 exactly when the texts are equal, -1 exactly when
    this text is a proper prefix of the other, 1 exactly when the other is
    a proper prefix of this, -2 exactly when this text is less than the
    other and not a prefix of it, 2 exactly when the other is less than
    this and not a prefix of it; and a string compares 0 with itself. *)
Theorem Compare_five_way A B :
  readable A -> readable B ->
  exists r,
    Compare A B = Some r /\
    (r = 0 \/ r = -1 \/ r = 1 \/ r = -2 \/ r = 2) /\
    (r = 0 <-> units A = units B) /\
    (r = -1 <-> proper_prefix (units A) (units B)) /\
    (r = 1 <-> proper_prefix (units B) (units A)) /\
    (r = -2 <-> lex_lt (units A) (units B) /\ ~ is_prefix (units A) (units B)) /\
    (r = 2 <-> lex_lt (units B) (units A) /\ ~ is_prefix (units B) (units A)) /\
    Compare A A = Some 0.
Proof.
  intros HA HB.
  destruct (compare_units_value (units A) (units B)) as (r & Hr & Hfive).
  exists r. rewrite (Compare_units A B HA HB), (Compare_units A A HA HA).
  assert (Hiff : forall v, r = v <->
            compare_units (length (units A)) (length (units B))
              (units A) (units B) = Some v).
  { intros v. rewrite Hr. split; [intros ->; reflexivity|].
    intros H; injection H; auto. }
  split; [exact Hr|]. split; [exact Hfive|].
  split; [rewrite Hiff; apply compare_units_equal|].
  split; [rewrite Hiff; apply compare_units_prefix|].
  split; [rewrite Hiff; apply compare_units_extension|].
  split; [rewrite Hiff; apply compare_units_less|].
  split; [rewrite Hiff; apply compare_units_greater|].
  apply compare_units_equal. reflexivity.
Qed.

Lemma Compare_five_way_witness :
  exists r,
    Compare (Text_of [72; 105] 2) (Text_of [72; 105; 33] 3) = Some r /\
    (r = -1 <-> proper_prefix [72; 105] [72; 105; 33]).
Proof.
  destruct (Compare_five_way (Text_of [72; 105] 2) (Text_of [72; 105; 33] 3))
    as (r & Hr & _ & _ & Hp & _).
  - unfold readable, len. simpl. lia.
  - unfold readable, len. simpl. lia.
  - exists r. split; [exact Hr | exact Hp].
Defined.

(** C7. For two strings whose text can be read, the result of comparing
    them one way round is the negation of the result the other way round. *)
Theorem Compare_antisymmetric A B :
  readable A -> readable B ->
  exists r, Compare A B = Some r /\ Compare B A = Some (- r).
Proof.
  intros HA HB.
  destruct (compare_units_value (units A) (units B)) as (r & Hr & _).
  exists r. rewrite (Compare_units A B HA HB), (Compare_units B A HB HA).
  split; [exact Hr | apply compare_units_opp; exact Hr].
Qed.

Lemma Compare_antisymmetric_witness :
  exists r,
    Compare (Text_of [65; 66] 2) (Text_of [65; 67; 68] 3) = Some r /\
    Compare (Text_of [65; 67; 68] 3) (Text_of [65; 66] 2) = Some (- r).
Proof.
  apply (Compare_antisymmetric (Text_of [65; 66] 2) (Text_of [65; 67; 68] 3)).
  - unfold readable, len. simpl. lia.
  - unfold readable, len. simpl. lia.
Defined.

(** ** The UTF-16 overloads of [Compare] *)

Lemma compare_terminated_units n p t rest :
  Forall (fun u => u <> 0) t ->
  compare_terminated n p (t ++ 0 :: rest) = compare_units n (length t) p t.
Proof.
  intros Ht. revert n p. induction Ht as [|y t Hy Ht IH]; intros n p.
  - destruct n; reflexivity.
  - destruct n as [|n]; simpl.
    + destruct (Z.eqb_spec y 0); [contradiction | reflexivity].
    + destruct (Z.eqb_spec y 0); [contradiction|].
      destruct p as [|x p]; [reflexivity|].
      destruct (x <? y); [reflexivity|]. destruct (x >? y); [reflexivity|].
      apply IH.
Qed.

Lemma compare_terminated_short n p t :
  Forall (fun u => u <> 0) t -> (n < length t)%nat ->
  compare_terminated n p t = compare_units n (length t) p t.
Proof.
  intros Ht. revert n p. induction Ht as [|y t Hy Ht IH]; intros n p Hn.
  - simpl in Hn. lia.
  - simpl in Hn. destruct n as [|n]; simpl.
    + destruct (Z.eqb_spec y 0); [contradiction | reflexivity].
    + destruct (Z.eqb_spec y 0); [contradiction|].
      destruct p as [|x p]; [reflexivity|].
      destruct (x <? y); [reflexivity|]. destruct (x >? y); [reflexivity|].
      apply IH. lia.
Qed.

Lemma compare_units_app n m p q rest :
  (m <= length q)%nat ->
  compare_units n m p (q ++ rest) = compare_units n m p q.
Proof.
  revert m p q. induction n as [|n IH]; intros m p q Hm.
  - destruct m; reflexivity.
  - destruct m as [|m]; [reflexivity|].
    destruct q as [|y q]; [simpl in Hm; lia|]. simpl in Hm. simpl.
    destruct p as [|x p]; [reflexivity|].
    destruct (x <? y); [reflexivity|]. destruct (x >? y); [reflexivity|].
    apply IH. lia.
Qed.

Lemma npos_value : npos = 2 ^ 64 - 1.
Proof. reflexivity. Qed.

(** C9. For a string [A] whose text can be read and fits in the address
    space, and UTF-16 text [t] without a zero unit: comparing with [t] and
    its length gives what comparing with [t] followed by a zero unit gives,
    whether or not the zero unit is stored after [t]; passing [npos] as the
    length is the null-terminated comparison; and a result is returned. *)
Theorem Compare16_overloads_agree A t :
  readable A -> addressable A -> Forall (fun u => u <> 0) t ->
  Compare16n A t (len t) = Compare16 A (t ++ [0]) /\
  Compare16n A (t ++ [0]) (len t) = Compare16 A (t ++ [0]) /\
  Compare16n A (t ++ [0]) npos = Compare16 A (t ++ [0]) /\
  exists r, Compare16 A (t ++ [0]) = Some r.
Proof.
  intros HA Hmem Ht.
  assert (Hterm : Compare16 A (t ++ [0])
                  = compare_units (Z.to_nat (iLength A)) (length t) (Data A) t).
  { unfold Compare16. apply compare_terminated_units. exact Ht. }
  assert (Hlen : Z.to_nat (len t) = length t) by (unfold len; lia).
  split; [|split; [|split]].
  - rewrite Hterm. unfold Compare16n.
    destruct (Z.eqb_spec (len t) npos) as [E|E].
    + unfold Compare16. apply compare_terminated_short; [exact Ht|].
      unfold readable, addressable in *. rewrite npos_value in E.
      unfold len in *. change (2 ^ 64) with 18446744073709551616 in *.
      lia.
    + rewrite Hlen. reflexivity.
  - unfold Compare16n. destruct (Z.eqb_spec (len t) npos) as [E|E];
      [reflexivity|].
    rewrite Hterm, Hlen. apply compare_units_app. lia.
  - unfold Compare16n. rewrite Z.eqb_refl. reflexivity.
  - rewrite Hterm.
    rewrite compare_units_firstn by (try apply readable_length; auto).
    destruct (compare_units_value (firstn (Z.to_nat (iLength A)) (Data A))
                (firstn (length t) t)) as (r & Hr & _).
    exists r. exact Hr.
Qed.

Lemma Compare16_overloads_agree_witness :
  Compare16n (Text_of [72; 105; 0; 7] 3) [72; 105] (len [72; 105])
  = Compare16 (Text_of [72; 105; 0; 7] 3) ([72; 105] ++ [0]) /\
  Compare16n (Text_of [72; 105; 0; 7] 3) ([72; 105] ++ [0]) npos
  = Compare16 (Text_of [72; 105; 0; 7] 3) ([72; 105] ++ [0]).
Proof.
  destruct (Compare16_overloads_agree (Text_of [72; 105; 0; 7] 3) [72; 105])
    as (H1 & _ & H3 & _).
  - unfold readable, len. simpl. lia.
  - unfold addressable, len. simpl. lia.
  - repeat constructor; discriminate.
  - split; [exact H1 | exact H3].
Defined.

(** ** Strings that are not writable *)

(** C3. On a string that is not writable, [Clear], [Append] and [Set] (from
    a string, from UTF-16 text, and [Append] of one unit) return in a
    release build and leave the object, so its length and text, as it was;
    in a debug build the assertion fails instead. *)
Theorem read_only_mutators_do_nothing
    (this aString : MString) (aText : list Z) (aLength aChar : Z) :
  Writable this = false ->
  (Clear Release this = Returns this /\
   Append Release this aString = Returns this /\
   Set_ Release this aString = Returns this /\
   Append16 Release this aText aLength = Returns this /\
   Set16 Release this aText aLength = Returns this /\
   AppendChar Release this aChar = Returns this) /\
  (Clear Debug this = AssertFailed /\
   Append Debug this aString = AssertFailed /\
   Set_ Debug this aString = AssertFailed).
Proof.
  intros H.
  unfold Clear, Append, Set_, AppendChar, Append16, Set16.
  rewrite H. simpl. repeat split.
Qed.

Lemma read_only_mutators_do_nothing_witness :
  Clear Release (Text_of [72; 105] 2) = Returns (Text_of [72; 105] 2) /\
  Append Release (Text_of [72; 105] 2) (Text_of [33] 1)
  = Returns (Text_of [72; 105] 2) /\
  Set_ Release (Text_of [72; 105] 2) (Text_of [33] 1)
  = Returns (Text_of [72; 105] 2).
Proof.
  destruct (read_only_mutators_do_nothing (Text_of [72; 105] 2)
              (Text_of [33] 1) [33; 0] 1 33 eq_refl)
    as ((H1 & H2 & H3 & _) & _).
  split; [exact H1 | split; [exact H2 | exact H3]].
Defined.

(** ** FoldingIterator *)

(** C6. In every state of a [FoldingIterator], also after any number of
    calls of [Next], [Back] throws [KErrorUnimplemented], which is 7, and
    does not return. *)
Theorem FoldingIterator_Back_unimplemented
    (Ignore : StringMatchMethod.t -> Z -> bool) (AccentStripped : Z -> Z)
    (GetLowerCase : Z -> list Z) (this : FoldingIterator) (k : nat) :
  Back this = Throws KErrorUnimplemented /\
  KErrorUnimplemented = 7 /\
  (forall it, Back this <> Returns it) /\
  Back (after_Next Ignore AccentStripped GetLowerCase k this)
  = Throws KErrorUnimplemented.
Proof.
  split; [reflexivity|]. split; [reflexivity|].
  split; [intros it; discriminate | reflexivity].
Qed.

(** ** Strings of fixed capacity *)

Lemma to_size_t_small x : 0 <= x < 2 ^ 64 -> to_size_t x = x.
Proof. intros H. unfold to_size_t. apply Z.mod_small. exact H. Qed.

Lemma to_size_t_nonneg x : 0 <= to_size_t x.
Proof. unfold to_size_t. apply Z.mod_pos_bound. reflexivity. Qed.

Lemma len_nonneg p : 0 <= len p.
Proof. unfold len. lia. Qed.

Lemma len_app p q : len (p ++ q) = len p + len q.
Proof. unfold len. rewrite length_app. lia. Qed.

Lemma len_firstn n p : 0 <= n <= len p -> len (firstn (Z.to_nat n) p) = n.
Proof. unfold len. intros H. rewrite length_firstn. lia. Qed.

Lemma len_skipn n p : 0 <= n <= len p -> len (skipn (Z.to_nat n) p) = len p - n.
Proof. unfold len. intros H. rewrite length_skipn. lia. Qed.

Lemma memcpy_len dest offset src bytes buffer :
  0 <= bytes -> memcpy dest offset src bytes = Some buffer ->
  len buffer = len dest.
Proof.
  intros Hb. unfold memcpy.
  destruct ((0 <=? offset) && (offset + bytes / 2 <=? len dest)
            && (bytes / 2 <=? len src)) eqn:E; [|discriminate].
  apply andb_prop in E. destruct E as [E E3]. apply andb_prop in E.
  destruct E as [E1 E2].
  apply Z.leb_le in E1, E2, E3.
  assert (Hc : 0 <= bytes / 2) by (apply Z.div_pos; lia).
  intros H; injection H as <-.
  rewrite !len_app, !len_firstn, len_skipn by lia. lia.
Qed.

Lemma memcpy_units dest offset src count :
  0 <= offset -> 0 <= count -> offset + count <= len dest ->
  count <= len src -> 2 * count < 2 ^ 64 ->
  memcpy dest offset src (to_size_t (to_size_t count * 2))
  = Some (firstn (Z.to_nat offset) dest
            ++ firstn (Z.to_nat count) src
            ++ skipn (Z.to_nat (offset + count)) dest).
Proof.
  intros H1 H2 H3 H4 H5.
  rewrite (to_size_t_small count) by lia.
  rewrite to_size_t_small by lia.
  unfold memcpy. rewrite Z.div_mul by lia.
  destruct (Z.leb_spec 0 offset); [|lia].
  destruct (Z.leb_spec (offset + count) (len dest)); [|lia].
  destruct (Z.leb_spec count (len src)); [|lia].
  reflexivity.
Qed.

(** What the classes of fixed capacity share. *)
Lemma fixed_capacity_facts s :
  fixed_capacity s ->
  Writable s = true /\
  0 <= iLength s <= MaxWritableLength s /\
  MaxWritableLength s <= len (Data s) /\
  (forall b n, ResizeBuffer b s n
               = Returns (set_length s (Z.min n (MaxWritableLength s)))) /\
  (forall n, WritableText (set_length s n) = Some (Data s)) /\
  (forall n buffer,
      0 <= n <= MaxWritableLength s -> len buffer = len (Data s) ->
      fixed_capacity (store (set_length s n) buffer) /\
      MaxWritableLength (store (set_length s n) buffer) = MaxWritableLength s /\
      iLength (store (set_length s n) buffer) = n /\
      Data (store (set_length s n) buffer) = buffer) /\
  (forall n, 0 <= n <= MaxWritableLength s ->
      fixed_capacity (set_length s n) /\
      MaxWritableLength (set_length s n) = MaxWritableLength s).
Proof.
  destruct s as [n0 st]. unfold fixed_capacity, Writable, MaxWritableLength,
    ResizeBuffer, WritableText, Data, store, set_length. simpl.
  destruct st as [txt|txt mx|mx txt|own txt res]; try contradiction;
    intros [H1 H2]; repeat split; intros; try lia; subst; auto; lia.
Qed.

Lemma write_fixed s n offset src bytes s' :
  fixed_capacity s -> 0 <= n <= MaxWritableLength s -> 0 <= bytes ->
  write (set_length s n) offset src bytes = Returns s' ->
  fixed_capacity s' /\ MaxWritableLength s' = MaxWritableLength s /\
  iLength s' = n.
Proof.
  intros Hs Hn Hb.
  destruct (fixed_capacity_facts s Hs) as (_ & _ & _ & _ & Hw & Hst & _).
  unfold write. rewrite Hw.
  destruct (memcpy (Data s) offset src bytes) as [buffer|] eqn:E;
    [|discriminate].
  intros H; injection H as <-.
  apply memcpy_len in E; [|exact Hb].
  destruct (Hst n buffer Hn E) as (F1 & F2 & F3 & _). auto.
Qed.

Lemma measure_nonneg p a n : 0 <= a -> measure p a = Some n -> 0 <= n.
Proof.
  revert a. induction p as [|u p IH]; intros a Ha; simpl; [discriminate|].
  destruct (u =? 0).
  - intros H; injection H as <-. exact Ha.
  - apply IH. apply to_size_t_nonneg.
Qed.

(** Every mutator keeps the invariant and the capacity. *)
Lemma fixed_capacity_preserved b m s s' :
  fixed_capacity s -> size_t_arguments m ->
  apply_mutation b m s = Returns s' ->
  fixed_capacity s' /\ MaxWritableLength s' = MaxWritableLength s.
Proof.
  intros Hs Hm.
  destruct (fixed_capacity_facts s Hs) as (Hw & Hl & Hc & Hr & _ & _ & Hset).
  assert (Hclamp : forall n, 0 <= n ->
            0 <= Z.min n (MaxWritableLength s) <= MaxWritableLength s) by lia.
  destruct m as [n| | |t|t|txt n|txt n|c]; simpl in *.
  - rewrite Hr. intros H; injection H as <-. apply Hset. auto.
  - unfold Clear. rewrite Hw, Hr. simpl.
    intros H; injection H as <-. apply Hset. lia.
  - intros H; injection H as <-. apply Hset. lia.
  - unfold Append. rewrite Hw, Hr. simpl. intros H.
    apply write_fixed in H; auto using to_size_t_nonneg. tauto.
  - unfold Set_. rewrite Hw, Hr. simpl. intros H.
    apply write_fixed in H; auto using to_size_t_nonneg. tauto.
  - unfold Append16. rewrite Hw. simpl.
    destruct (if n =? npos then measure txt 0 else Some n) as [k|];
      [|discriminate].
    rewrite Hr. simpl. intros H.
    apply write_fixed in H; auto using to_size_t_nonneg. tauto.
  - unfold Set16. rewrite Hw. simpl.
    destruct (if n =? npos then measure txt 0 else Some n) as [k|] eqn:E;
      [|discriminate].
    assert (Hk : 0 <= k).
    { destruct (n =? npos).
      - apply (measure_nonneg txt 0); [lia | exact E].
      - injection E as <-. exact Hm. }
    rewrite Hr. simpl. intros H.
    apply write_fixed in H; auto using to_size_t_nonneg. tauto.
  - unfold AppendChar, Append16. rewrite Hw. simpl.
    change (1 =? npos) with false. cbv iota.
    rewrite Hr. simpl. intros H.
    apply write_fixed in H; auto using to_size_t_nonneg. tauto.
Qed.

Lemma firstn_written (o n : nat) (dest src : list Z) :
  (o <= length dest)%nat -> (n <= length src)%nat ->
  firstn (o + n) (firstn o dest ++ firstn n src ++ skipn (o + n) dest)
  = firstn o dest ++ firstn n src.
Proof.
  intros Ho Hn. rewrite app_assoc.
  assert (E : (o + n = length (firstn o dest ++ firstn n src) + 0)%nat).
  { rewrite length_app, !length_firstn. lia. }
  rewrite E at 1. rewrite firstn_app_2. simpl. apply app_nil_r.
Qed.

Lemma firstn_clamped (o n k : nat) (dest src : list Z) :
  (o <= length dest)%nat -> (o <= k)%nat ->
  firstn k (firstn o dest ++ firstn n src)
  = firstn o dest ++ firstn (Nat.min (k - o) n) src.
Proof.
  intros Ho Hk. rewrite firstn_app.
  rewrite (firstn_all2 (n := k) (firstn o dest))
    by (rewrite length_firstn; lia).
  rewrite length_firstn, firstn_firstn.
  replace (Nat.min o (length dest)) with o by lia. reflexivity.
Qed.

(** Appending to a string of fixed capacity: the text is what fits of the
    old text followed by the appended one. *)
Lemma Append_fixed b s t :
  fixed_capacity s -> addressable s -> readable t -> addressable t ->
  exists s',
    Append b s t = Returns s' /\
    iLength s' = Z.min (iLength s + iLength t) (MaxWritableLength s) /\
    units s' = firstn (Z.to_nat (MaxWritableLength s)) (units s ++ units t) /\
    fixed_capacity s' /\ MaxWritableLength s' = MaxWritableLength s.
Proof.
  intros Hs Hms Ht Hmt.
  destruct (fixed_capacity_facts s Hs) as (Hw & Hl & Hc & Hr & Hwt & Hst & _).
  unfold readable, addressable in *.
  change (2 ^ 64) with 18446744073709551616 in *.
  pose proof (len_nonneg (Data s)) as Hd.
  set (cap := MaxWritableLength s) in *.
  set (new := Z.min (iLength s + iLength t) cap).
  unfold Append. rewrite Hw, Hr. simpl.
  rewrite (to_size_t_small (iLength s + iLength t))
    by (change (2 ^ 64) with 18446744073709551616; lia).
  fold new. unfold write. rewrite Hwt.
  rewrite memcpy_units;
    try (change (2 ^ 64) with 18446744073709551616); try lia.
  replace (iLength s + (new - iLength s)) with new by lia.
  match goal with |- context [store _ ?buf] => set (buffer := buf) end.
  assert (Hbuf : len buffer = len (Data s)).
  { unfold buffer. rewrite !len_app, !len_firstn, len_skipn by lia. lia. }
  destruct (Hst new buffer ltac:(lia) Hbuf) as (F1 & F2 & F3 & F4).
  eexists. split; [reflexivity|].
  split; [exact F3|]. split; [|split; [exact F1 | exact F2]].
  unfold units at 1. rewrite F3, F4. unfold buffer.
  replace (Z.to_nat new)
    with (Z.to_nat (iLength s) + Z.to_nat (new - iLength s))%nat by lia.
  unfold len in *.
  rewrite firstn_written by lia.
  unfold units. rewrite firstn_clamped by lia.
  f_equal. f_equal. lia.
Qed.

(** Setting a string of fixed capacity: the text is what fits of the new
    one. *)
Lemma Set_fixed b s t :
  fixed_capacity s -> addressable s -> readable t ->
  exists s',
    Set_ b s t = Returns s' /\
    iLength s' = Z.min (iLength t) (MaxWritableLength s) /\
    units s' = firstn (Z.to_nat (MaxWritableLength s)) (units t) /\
    fixed_capacity s' /\ MaxWritableLength s' = MaxWritableLength s.
Proof.
  intros Hs Hms Ht.
  destruct (fixed_capacity_facts s Hs) as (Hw & Hl & Hc & Hr & Hwt & Hst & _).
  unfold readable, addressable in *.
  change (2 ^ 64) with 18446744073709551616 in *.
  pose proof (len_nonneg (Data s)) as Hd.
  set (cap := MaxWritableLength s) in *.
  set (new := Z.min (iLength t) cap).
  unfold Set_. rewrite Hw, Hr. simpl. fold new. unfold write. rewrite Hwt.
  replace (to_size_t (new * 2)) with (to_size_t (to_size_t new * 2))
    by (rewrite (to_size_t_small new);
        [reflexivity | change (2 ^ 64) with 18446744073709551616; lia]).
  rewrite memcpy_units;
    try (change (2 ^ 64) with 18446744073709551616); try lia.
  match goal with |- context [store _ ?buf] => set (buffer := buf) end.
  assert (Hbuf : len buffer = len (Data s)).
  { unfold buffer. rewrite !len_app, !len_firstn, len_skipn by lia. lia. }
  destruct (Hst new buffer ltac:(lia) Hbuf) as (F1 & F2 & F3 & F4).
  eexists. split; [reflexivity|].
  split; [exact F3|]. split; [|split; [exact F1 | exact F2]].
  unfold units at 1. rewrite F3, F4. unfold buffer.
  change (Z.to_nat 0) with 0%nat. rewrite firstn_0. simpl app.
  replace (Z.to_nat new) with (Z.to_nat new + 0)%nat at 1 by lia.
  unfold len in *.
  replace (Z.to_nat new + 0)%nat
    with (length (firstn (Z.to_nat new) (Data t)) + 0)%nat
    by (rewrite length_firstn; lia).
  rewrite firstn_app_2. simpl. rewrite app_nil_r.
  unfold units. rewrite firstn_firstn. f_equal. lia.
Qed.

Lemma constructed_fixed_capacity aText aLength aMaxLength iText :
  (0 <= aLength <= len aText ->
   fixed_capacity (WritableTextView_of aText aLength)) /\
  (aMaxLength = len iText ->
   fixed_capacity (TextBuffer_new aMaxLength iText)).
Proof.
  unfold fixed_capacity. simpl. pose proof (len_nonneg iText). split; lia.
Qed.

Lemma assign_len iText index unit iText' :
  assign iText index unit = Some iText' -> len iText' = len iText.
Proof.
  unfold assign.
  destruct (Z.leb_spec 0 index) as [H0|H0]; [|discriminate].
  destruct (Z.ltb_spec index (len iText)) as [H1|H1]; [|discriminate].
  simpl. intros H; injection H as <-.
  unfold len in *. rewrite length_app. simpl length.
  rewrite length_firstn, length_skipn. lia.
Qed.

Lemma TextBuffer_copy_bounds aText aMaxLength :
  forall iLength iText n iText',
    0 <= iLength <= aMaxLength -> aMaxLength = len iText ->
    aMaxLength < 2 ^ 64 ->
    TextBuffer_copy aText iLength aMaxLength iText = Some (n, iText') ->
    0 <= n <= aMaxLength /\ aMaxLength = len iText'.
Proof.
  induction aText as [|c aText IH]; intros iLength iText n iText' Hl Hm Hb;
    simpl; [discriminate|].
  destruct (negb (c =? 0) && (iLength <? aMaxLength)) eqn:E.
  - apply andb_prop in E. destruct E as [_ E]. apply Z.ltb_lt in E.
    destruct (assign iText iLength (to_uint16 c)) as [iText1|] eqn:Ea;
      [|discriminate].
    apply assign_len in Ea.
    rewrite to_size_t_small by lia.
    apply IH; lia.
  - intros H; injection H as <- <-. auto.
Qed.

(** The constructor from 8-bit text stops at the capacity. *)
Lemma TextBuffer_of_fixed_capacity aMaxLength iText aText s :
  aMaxLength = len iText -> aMaxLength < 2 ^ 64 ->
  TextBuffer_of aMaxLength iText aText = Some s -> fixed_capacity s.
Proof.
  intros Hm Hb. unfold TextBuffer_of.
  destruct (TextBuffer_copy aText 0 aMaxLength iText) as [[n iText']|] eqn:E;
    [|discriminate].
  intros H; injection H as <-.
  apply TextBuffer_copy_bounds in E;
    [|pose proof (len_nonneg iText); lia | exact Hm | exact Hb].
  unfold fixed_capacity. simpl. exact E.
Qed.

Example TextBuffer_of_truncates :
  TextBuffer_of 3 [0; 0; 0] [72; 101; 108; 108; 111; 0]
  = Some (mkMString 3 (TextBufferStorage 3 [72; 101; 108])).
Proof. reflexivity. Qed.

Lemma fixed_capacity_preserved_all b ms :
  forall s s',
    fixed_capacity s -> Forall size_t_arguments ms ->
    apply_mutations b ms s = Returns s' ->
    fixed_capacity s' /\ MaxWritableLength s' = MaxWritableLength s.
Proof.
  induction ms as [|m ms IH]; intros s s' Hs Hms; simpl.
  - intros H; injection H as <-. auto.
  - inversion Hms as [|m' ms' Hm Hrest]; subst.
    destruct (apply_mutation b m s) as [s1| | |] eqn:E; simpl;
      try discriminate.
    destruct (fixed_capacity_preserved b m s s1 Hs Hm E) as [H1 H2].
    intros H. destruct (IH s1 s' H1 Hrest H) as [H3 H4].
    split; [exact H3 | congruence].
Qed.

Lemma measure_terminated t rest a :
  Forall (fun u => u <> 0) t -> 0 <= a -> a + len t < 2 ^ 64 ->
  measure (t ++ 0 :: rest) a = Some (a + len t).
Proof.
  intros Ht. revert a. induction Ht as [|y t Hy Ht IH]; intros a Ha Hb.
  - simpl. f_equal. unfold len. simpl. lia.
  - simpl. destruct (Z.eqb_spec y 0); [contradiction|].
    unfold len in *. simpl length in *.
    rewrite to_size_t_small by lia. rewrite IH by lia. f_equal. lia.
Qed.

Lemma measure_unterminated p a :
  Forall (fun u => u <> 0) p -> measure p a = None.
Proof.
  intros Hp. revert a. induction Hp as [|y p Hy Hp IH]; intros a;
    [reflexivity|].
  simpl. destruct (Z.eqb_spec y 0); [contradiction|]. apply IH.
Qed.

Lemma firstn_len_app (t rest : list Z) :
  firstn (Z.to_nat (len t)) (t ++ rest) = t.
Proof.
  unfold len. rewrite Nat2Z.id.
  rewrite <- (Nat.add_0_r (length t)), firstn_app_2. simpl. apply app_nil_r.
Qed.

Lemma units_length s : readable s -> len (units s) = iLength s.
Proof. intros H. unfold units. apply len_firstn. exact H. Qed.

Lemma fixed_capacity_readable s : fixed_capacity s -> readable s.
Proof.
  intros Hs. destruct (fixed_capacity_facts s Hs) as (_ & Hl & Hc & _).
  unfold readable. lia.
Qed.

(** Writing a text to the start of a fixed-capacity string. *)
Lemma write_text_fixed s n text :
  fixed_capacity s -> addressable s ->
  0 <= n <= MaxWritableLength s -> n <= len text ->
  exists s',
    write (set_length s n) 0 text (to_size_t (n * 2)) = Returns s' /\
    iLength s' = n /\ units s' = firstn (Z.to_nat n) text /\
    fixed_capacity s' /\ MaxWritableLength s' = MaxWritableLength s.
Proof.
  intros Hs Hms Hn Ht.
  destruct (fixed_capacity_facts s Hs) as (_ & _ & Hc & _ & Hwt & Hst & _).
  unfold addressable in Hms.
  change (2 ^ 64) with 18446744073709551616 in *.
  pose proof (len_nonneg (Data s)) as Hd.
  unfold write. rewrite Hwt.
  replace (to_size_t (n * 2)) with (to_size_t (to_size_t n * 2))
    by (rewrite (to_size_t_small n);
        [reflexivity | change (2 ^ 64) with 18446744073709551616; lia]).
  rewrite memcpy_units;
    try (change (2 ^ 64) with 18446744073709551616); try lia.
  match goal with |- context [store _ ?buf] => set (buffer := buf) end.
  assert (Hbuf : len buffer = len (Data s)).
  { unfold buffer. rewrite !len_app, !len_firstn, len_skipn by lia. lia. }
  destruct (Hst n buffer Hn Hbuf) as (F1 & F2 & F3 & F4).
  eexists. split; [reflexivity|].
  split; [exact F3|]. split; [|split; [exact F1 | exact F2]].
  unfold units at 1. rewrite F3, F4. unfold buffer.
  change (Z.to_nat 0) with 0%nat. rewrite firstn_0. simpl app.
  unfold len in Ht.
  replace (Z.to_nat n)
    with (length (firstn (Z.to_nat n) text) + 0)%nat at 1
    by (rewrite length_firstn; lia).
  rewrite firstn_app_2. simpl. apply app_nil_r.
Qed.

Lemma Append16_as_Append b s aText aLength :
  aLength <> npos ->
  Append16 b s aText aLength = Append b s (Text_of aText aLength) /\
  Set16 b s aText aLength = Set_ b s (Text_of aText aLength).
Proof.
  intros Hn. unfold Append16, Set16, Append, Set_.
  destruct (Z.eqb_spec aLength npos); [contradiction|]. split; reflexivity.
Qed.

Lemma Append16_terminated_as_Append b s body rest :
  Forall (fun u => u <> 0) body -> len body < 2 ^ 64 ->
  Append16 b s (body ++ 0 :: rest) npos
  = Append b s (Text_of (body ++ 0 :: rest) (len body)) /\
  Set16 b s (body ++ 0 :: rest) npos
  = Set_ b s (Text_of (body ++ 0 :: rest) (len body)).
Proof.
  intros Hb Hl. unfold Append16, Set16, Append, Set_.
  rewrite Z.eqb_refl.
  rewrite (measure_terminated body rest 0 Hb)
    by (pose proof (len_nonneg body); lia).
  split; reflexivity.
Qed.

Lemma Text_of_readable aText aLength :
  0 <= aLength <= len aText -> 2 * len aText < 2 ^ 64 ->
  readable (Text_of aText aLength) /\ addressable (Text_of aText aLength) /\
  units (Text_of aText aLength) = firstn (Z.to_nat aLength) aText.
Proof.
  intros H1 H2. unfold readable, addressable, units, Text_of, Data.
  cbn [storage iLength]. auto.
Qed.

(** Inserting into a string of fixed capacity: the text is what fits of
    the old text with the new one put in at the index. *)
Lemma Insert_fixed b s aIndex t :
  fixed_capacity s -> addressable s -> readable t -> addressable t ->
  0 <= aIndex <= iLength s ->
  exists s',
    Insert b s aIndex t = Returns s' /\
    iLength s' = Z.min (iLength s + iLength t) (MaxWritableLength s) /\
    units s'
    = firstn (Z.to_nat (MaxWritableLength s))
        (firstn (Z.to_nat aIndex) (units s) ++ units t
           ++ skipn (Z.to_nat aIndex) (units s)) /\
    fixed_capacity s' /\ MaxWritableLength s' = MaxWritableLength s.
Proof.
  intros Hs Hms Ht Hmt Hi.
  destruct (fixed_capacity_facts s Hs) as (Hw & Hl & Hc & Hr & _).
  pose proof (units_length s (fixed_capacity_readable s Hs)) as Hus.
  pose proof (units_length t Ht) as Hut.
  unfold readable, addressable in *.
  change (2 ^ 64) with 18446744073709551616 in *.
  pose proof (len_nonneg (Data s)) as Hd.
  unfold Insert, Replace, Replace16. rewrite Hw. simpl negb. cbv iota.
  destruct (Z.eqb_spec (iLength t) npos) as [E|_];
    [rewrite npos_value in E; lia|].
  destruct (Z.leb_spec 0 aIndex); [|lia].
  destruct (Z.leb_spec aIndex aIndex); [|lia].
  destruct (Z.leb_spec aIndex (iLength s)); [|lia].
  destruct (Z.leb_spec 0 (iLength t)); [|lia].
  destruct (Z.leb_spec (iLength t) (len (Data t))); [|lia].
  simpl andb. cbv iota.
  rewrite Hr. cbn [bind].
  replace (iLength s - (aIndex - aIndex) + iLength t)
    with (iLength s + iLength t) by lia.
  rewrite (to_size_t_small (iLength s + iLength t))
    by (change (2 ^ 64) with 18446744073709551616; lia).
  set (new := Z.min (iLength s + iLength t) (MaxWritableLength s)).
  set (text := firstn (Z.to_nat aIndex) (units s)
                 ++ firstn (Z.to_nat (iLength t)) (Data t)
                 ++ skipn (Z.to_nat aIndex) (units s)).
  assert (Htext : len text = iLength s + iLength t).
  { unfold text. rewrite !len_app, len_firstn, len_firstn, len_skipn by lia.
    lia. }
  change (iLength (set_length s new)) with new.
  destruct (write_text_fixed s new text Hs
              ltac:(unfold addressable;
                    change (2 ^ 64) with 18446744073709551616; lia)
              ltac:(lia) ltac:(lia))
    as (s' & E & F1 & F2 & F3 & F4).
  exists s'. split; [exact E|]. split; [exact F1|].
  split; [|split; [exact F3 | exact F4]].
  rewrite F2. fold (units t) in text. fold text.
  unfold new. unfold len in Htext.
  destruct (Z.le_ge_cases (iLength s + iLength t) (MaxWritableLength s)).
  - rewrite Z.min_l by lia. rewrite !firstn_all2 by lia. reflexivity.
  - rewrite Z.min_r by lia. reflexivity.
Qed.

(** [Append] and [Set] of a pointer with a length given are those of the
    view of that text. *)
Lemma Append16_fixed b s aText aLength :
  fixed_capacity s -> addressable s ->
  aLength <> npos -> 0 <= aLength <= len aText -> 2 * len aText < 2 ^ 64 ->
  exists s' s'',
    Append16 b s aText aLength = Returns s' /\
    iLength s' = Z.min (iLength s + aLength) (MaxWritableLength s) /\
    units s'
    = firstn (Z.to_nat (MaxWritableLength s))
        (units s ++ firstn (Z.to_nat aLength) aText) /\
    Set16 b s aText aLength = Returns s'' /\
    iLength s'' = Z.min aLength (MaxWritableLength s) /\
    units s''
    = firstn (Z.to_nat (MaxWritableLength s)) (firstn (Z.to_nat aLength) aText).
Proof.
  intros Hs Hms Hn Hl Ha.
  destruct (Append16_as_Append b s aText aLength Hn) as [E1 E2].
  destruct (Text_of_readable aText aLength Hl Ha) as (Hr & Hm & Hu).
  destruct (Append_fixed b s _ Hs Hms Hr Hm) as (s' & F1 & F2 & F3 & _).
  destruct (Set_fixed b s _ Hs Hms Hr) as (s'' & G1 & G2 & G3 & _).
  exists s', s''. rewrite E1, E2, <- Hu.
  repeat (split; [assumption|]). assumption.
Qed.

(** The same for null-terminated text, measured by the mutator. *)
Lemma Append16_terminated_fixed b s body rest :
  fixed_capacity s -> addressable s ->
  Forall (fun u => u <> 0) body -> 2 * len (body ++ 0 :: rest) < 2 ^ 64 ->
  exists s' s'',
    Append16 b s (body ++ 0 :: rest) npos = Returns s' /\
    iLength s' = Z.min (iLength s + len body) (MaxWritableLength s) /\
    units s' = firstn (Z.to_nat (MaxWritableLength s)) (units s ++ body) /\
    Set16 b s (body ++ 0 :: rest) npos = Returns s'' /\
    iLength s'' = Z.min (len body) (MaxWritableLength s) /\
    units s'' = firstn (Z.to_nat (MaxWritableLength s)) body.
Proof.
  intros Hs Hms Hb Ha.
  assert (Hlen : len (body ++ 0 :: rest) = len body + 1 + len rest).
  { unfold len. rewrite length_app. simpl length. lia. }
  pose proof (len_nonneg body) as Hb0. pose proof (len_nonneg rest) as Hr0.
  assert (Hsmall : len body < 2 ^ 64)
    by (change (2 ^ 64) with 18446744073709551616 in *; lia).
  destruct (Append16_terminated_as_Append b s body rest Hb Hsmall) as [E1 E2].
  destruct (Text_of_readable (body ++ 0 :: rest) (len body)
              ltac:(lia) Ha) as (Hr & Hm & Hu).
  rewrite firstn_len_app in Hu.
  destruct (Append_fixed b s _ Hs Hms Hr Hm) as (s' & F1 & F2 & F3 & _).
  destruct (Set_fixed b s _ Hs Hms Hr) as (s'' & G1 & G2 & G3 & _).
  rewrite Hu in F3, G3.
  exists s', s''. rewrite E1, E2.
  repeat (split; [assumption|]). assumption.
Qed.

(** [Append] of one unit. *)
Lemma AppendChar_cut b s aChar :
  fixed_capacity s -> addressable s ->
  exists s',
    AppendChar b s aChar = Returns s' /\
    iLength s' = Z.min (iLength s + 1) (MaxWritableLength s) /\
    units s'
    = firstn (Z.to_nat (MaxWritableLength s)) (units s ++ [to_uint16 aChar]).
Proof.
  intros Hs Hms. unfold AppendChar.
  destruct (Append16_fixed b s [to_uint16 aChar] 1 Hs Hms)
    as (s' & _ & F1 & F2 & F3 & _).
  - rewrite npos_value. change (2 ^ 64) with 18446744073709551616. lia.
  - unfold len. simpl. lia.
  - unfold len. simpl. change (2 ^ 64) with 18446744073709551616. lia.
  - exists s'. split; [exact F1|]. split; [exact F2 | exact F3].
Qed.

(** [Replace], and with it every [Insert], keeps the invariant and the
    capacity when it returns. *)
Lemma Replace16_preserved b s aStart aEnd aText aLength s' :
  fixed_capacity s ->
  Replace16 b s aStart aEnd aText aLength = Returns s' ->
  fixed_capacity s' /\ MaxWritableLength s' = MaxWritableLength s.
Proof.
  intros Hs.
  destruct (fixed_capacity_facts s Hs) as (Hw & Hl & Hc & Hr & _).
  unfold Replace16. rewrite Hw. simpl negb. cbv iota.
  destruct (if aLength =? npos then measure aText 0 else Some aLength)
    as [k|]; [|discriminate].
  match goal with |- (if ?c then _ else _) = _ -> _ => destruct c end;
    [|discriminate].
  rewrite Hr. cbn [bind]. intros H.
  pose proof (to_size_t_nonneg (iLength s - (aEnd - aStart) + k)) as Hk.
  apply write_fixed in H; auto using to_size_t_nonneg; [tauto | lia].
Qed.

(** C4. For a string of fixed capacity ([WritableTextView] or
    [TextBuffer]): [ResizeBuffer] returns with the length set to the
    smaller of the requested length and the capacity; [Append] and [Set]
    of a readable string return, without an error, with the text cut at
    the capacity; after any sequence of mutators that return, the length
    is at most the capacity, which has not changed; [Append] and [Set] of
    a pointer, with a length given or null-terminated, and [Append] of one
    unit return with the text cut at the capacity as well; so do the two
    [Insert]s, which put the new text in at the index and cut what does
    not fit; and any [Replace] that returns leaves the length at most the
    capacity, which has not changed. *)
Theorem fixed_capacity_resize_clamps
    (b : Build) (s t : MString) (n : Z) (ms : list mutation) (s1 : MString)
    (aText : list Z) (aLength : Z) (body rest : list Z)
    (aChar aIndex aStart aEnd : Z) (s2 : MString) :
  fixed_capacity s ->
  ResizeBuffer b s n
  = Returns (set_length s (Z.min n (MaxWritableLength s))) /\
  (addressable s -> readable t -> addressable t ->
   exists s',
     Append b s t = Returns s' /\
     iLength s' = Z.min (iLength s + iLength t) (MaxWritableLength s) /\
     units s' = firstn (Z.to_nat (MaxWritableLength s)) (units s ++ units t) /\
     iLength s' <= MaxWritableLength s') /\
  (addressable s -> readable t ->
   exists s',
     Set_ b s t = Returns s' /\
     iLength s' = Z.min (iLength t) (MaxWritableLength s) /\
     units s' = firstn (Z.to_nat (MaxWritableLength s)) (units t) /\
     iLength s' <= MaxWritableLength s') /\
  (Forall size_t_arguments ms -> apply_mutations b ms s = Returns s1 ->
   fixed_capacity s1 /\ MaxWritableLength s1 = MaxWritableLength s /\
   0 <= iLength s1 <= MaxWritableLength s1) /\
  (addressable s -> aLength <> npos -> 0 <= aLength <= len aText ->
   2 * len aText < 2 ^ 64 ->
   exists s' s'',
     Append16 b s aText aLength = Returns s' /\
     iLength s' = Z.min (iLength s + aLength) (MaxWritableLength s) /\
     units s'
     = firstn (Z.to_nat (MaxWritableLength s))
         (units s ++ firstn (Z.to_nat aLength) aText) /\
     Set16 b s aText aLength = Returns s'' /\
     iLength s'' = Z.min aLength (MaxWritableLength s) /\
     units s''
     = firstn (Z.to_nat (MaxWritableLength s))
         (firstn (Z.to_nat aLength) aText)) /\
  (addressable s -> Forall (fun u => u <> 0) body ->
   2 * len (body ++ 0 :: rest) < 2 ^ 64 ->
   exists s' s'',
     Append16 b s (body ++ 0 :: rest) npos = Returns s' /\
     iLength s' = Z.min (iLength s + len body) (MaxWritableLength s) /\
     units s' = firstn (Z.to_nat (MaxWritableLength s)) (units s ++ body) /\
     Set16 b s (body ++ 0 :: rest) npos = Returns s'' /\
     iLength s'' = Z.min (len body) (MaxWritableLength s) /\
     units s'' = firstn (Z.to_nat (MaxWritableLength s)) body) /\
  (addressable s ->
   exists s',
     AppendChar b s aChar = Returns s' /\
     iLength s' = Z.min (iLength s + 1) (MaxWritableLength s) /\
     units s'
     = firstn (Z.to_nat (MaxWritableLength s))
         (units s ++ [to_uint16 aChar])) /\
  (addressable s -> readable t -> addressable t ->
   0 <= aIndex <= iLength s ->
   exists s',
     Insert b s aIndex t = Returns s' /\
     iLength s' = Z.min (iLength s + iLength t) (MaxWritableLength s) /\
     units s'
     = firstn (Z.to_nat (MaxWritableLength s))
         (firstn (Z.to_nat aIndex) (units s) ++ units t
            ++ skipn (Z.to_nat aIndex) (units s)) /\
     iLength s' <= MaxWritableLength s') /\
  (addressable s -> aLength <> npos -> 0 <= aLength <= len aText ->
   2 * len aText < 2 ^ 64 -> 0 <= aIndex <= iLength s ->
   exists s',
     Insert16 b s aIndex aText aLength = Returns s' /\
     iLength s' = Z.min (iLength s + aLength) (MaxWritableLength s) /\
     units s'
     = firstn (Z.to_nat (MaxWritableLength s))
         (firstn (Z.to_nat aIndex) (units s)
            ++ firstn (Z.to_nat aLength) aText
            ++ skipn (Z.to_nat aIndex) (units s)) /\
     iLength s' <= MaxWritableLength s') /\
  (Replace16 b s aStart aEnd aText aLength = Returns s2 ->
   fixed_capacity s2 /\ MaxWritableLength s2 = MaxWritableLength s /\
   0 <= iLength s2 <= MaxWritableLength s2).
Proof.
  intros Hs. split; [apply fixed_capacity_facts; exact Hs|].
  split; [|split; [|split; [|split; [|split; [|split; [|split; [|split]]]]]]].
  - intros Hms Ht Hmt.
    destruct (Append_fixed b s t Hs Hms Ht Hmt) as (s' & H1 & H2 & H3 & H4 & H5).
    exists s'. repeat (split; [assumption|]).
    apply fixed_capacity_facts in H4. lia.
  - intros Hms Ht.
    destruct (Set_fixed b s t Hs Hms Ht) as (s' & H1 & H2 & H3 & H4 & H5).
    exists s'. repeat (split; [assumption|]).
    apply fixed_capacity_facts in H4. lia.
  - intros Hm H.
    destruct (fixed_capacity_preserved_all b ms s s1 Hs Hm H) as [H1 H2].
    split; [exact H1|]. split; [exact H2|].
    apply fixed_capacity_facts in H1. lia.
  - intros Hms Hn Hl Ha. exact (Append16_fixed b s aText aLength Hs Hms Hn Hl Ha).
  - intros Hms Hb Ha. exact (Append16_terminated_fixed b s body rest Hs Hms Hb Ha).
  - intros Hms. exact (AppendChar_cut b s aChar Hs Hms).
  - intros Hms Ht Hmt Hi.
    destruct (Insert_fixed b s aIndex t Hs Hms Ht Hmt Hi)
      as (s' & H1 & H2 & H3 & H4 & H5).
    exists s'. repeat (split; [assumption|]).
    apply fixed_capacity_facts in H4. lia.
  - intros Hms Hn Hl Ha Hi.
    destruct (Text_of_readable aText aLength Hl Ha) as (Hr & Hm & Hu).
    destruct (Insert_fixed b s aIndex (Text_of aText aLength) Hs Hms Hr Hm Hi)
      as (s' & H1 & H2 & H3 & H4 & H5).
    rewrite Hu in H3.
    exists s'. split; [exact H1|]. split; [exact H2|]. split; [exact H3|].
    apply fixed_capacity_facts in H4. lia.
  - intros H.
    destruct (Replace16_preserved b s aStart aEnd aText aLength s2 Hs H)
      as [H1 H2].
    split; [exact H1|]. split; [exact H2|].
    apply fixed_capacity_facts in H1. lia.
Qed.

Lemma fixed_capacity_resize_clamps_witness :
  ResizeBuffer Release (mkMString 2 (TextBufferStorage 4 [72; 105; 0; 0])) 9
  = Returns (mkMString 4 (TextBufferStorage 4 [72; 105; 0; 0])) /\
  (exists s',
    Append Release (mkMString 2 (TextBufferStorage 4 [72; 105; 0; 0]))
      (Text_of [97; 98; 99] 3) = Returns s' /\
    iLength s' = 4 /\ units s' = [72; 105; 97; 98]) /\
  (exists s' s'',
    Append16 Release (mkMString 2 (TextBufferStorage 4 [72; 105; 0; 0]))
      [97; 98; 99] 3 = Returns s' /\
    iLength s' = 4 /\ units s' = [72; 105; 97; 98] /\
    Set16 Release (mkMString 2 (TextBufferStorage 4 [72; 105; 0; 0]))
      [97; 98; 99] 3 = Returns s'' /\
    iLength s'' = 3 /\ units s'' = [97; 98; 99]) /\
  (exists s' s'',
    Append16 Release (mkMString 2 (TextBufferStorage 4 [72; 105; 0; 0]))
      [97; 98; 99; 0; 7] npos = Returns s' /\
    iLength s' = 4 /\ units s' = [72; 105; 97; 98] /\
    Set16 Release (mkMString 2 (TextBufferStorage 4 [72; 105; 0; 0]))
      [97; 98; 99; 0; 7] npos = Returns s'' /\
    iLength s'' = 3 /\ units s'' = [97; 98; 99]) /\
  (exists s',
    AppendChar Release (mkMString 2 (TextBufferStorage 4 [72; 105; 0; 0])) 33
    = Returns s' /\
    iLength s' = 3 /\ units s' = [72; 105; 33]) /\
  (exists s',
    Insert Release (mkMString 2 (TextBufferStorage 4 [72; 105; 0; 0])) 1
      (Text_of [97; 98; 99] 3) = Returns s' /\
    iLength s' = 4 /\ units s' = [72; 97; 98; 99]) /\
  (exists s',
    Insert16 Release (mkMString 2 (TextBufferStorage 4 [72; 105; 0; 0])) 1
      [97; 98; 99] 3 = Returns s' /\
    iLength s' = 4 /\ units s' = [72; 97; 98; 99]) /\
  fixed_capacity (mkMString 0 (TextBufferStorage 4 [72; 105; 0; 0])) /\
  fixed_capacity (mkMString 4 (TextBufferStorage 4 [97; 98; 99; 105])).
Proof.
  destruct (fixed_capacity_resize_clamps Release
              (mkMString 2 (TextBufferStorage 4 [72; 105; 0; 0]))
              (Text_of [97; 98; 99] 3) 9 [DoClear]
              (mkMString 0 (TextBufferStorage 4 [72; 105; 0; 0]))
              [97; 98; 99] 3 [97; 98; 99] [7] 33 1 0 1
              (mkMString 4 (TextBufferStorage 4 [97; 98; 99; 105])))
    as (H1 & H2 & _ & H4 & H5 & H6 & H7 & H8 & H9 & H10).
  - unfold fixed_capacity, len. simpl. lia.
  - assert (Hms : addressable
                    (mkMString 2 (TextBufferStorage 4 [72; 105; 0; 0])))
      by (unfold addressable, len; simpl; lia).
    assert (Ht : readable (Text_of [97; 98; 99] 3))
      by (unfold readable, len; simpl; lia).
    assert (Hmt : addressable (Text_of [97; 98; 99] 3))
      by (unfold addressable, len; simpl; lia).
    assert (Hn : 3 <> npos) by (vm_compute; discriminate).
    assert (Hl : 0 <= 3 <= len [97; 98; 99]) by (unfold len; simpl; lia).
    assert (Ha : 2 * len [97; 98; 99] < 2 ^ 64)
      by (unfold len; simpl; lia).
    assert (Hb : Forall (fun u => u <> 0) [97; 98; 99])
      by (repeat constructor; discriminate).
    assert (Hc : 2 * len ([97; 98; 99] ++ 0 :: [7]) < 2 ^ 64)
      by (unfold len; simpl; lia).
    assert (Hi : 0 <= 1 <= iLength
                   (mkMString 2 (TextBufferStorage 4 [72; 105; 0; 0])))
      by (simpl; lia).
    split; [exact H1|].
    split.
    { destruct (H2 Hms Ht Hmt) as (s' & E1 & E2 & E3 & _).
      exists s'. split; [exact E1|]. split; [exact E2 | exact E3]. }
    split; [exact (H5 Hms Hn Hl Ha)|].
    split; [exact (H6 Hms Hb Hc)|].
    split; [exact (H7 Hms)|].
    split.
    { destruct (H8 Hms Ht Hmt Hi) as (s' & E1 & E2 & E3 & _).
      exists s'. split; [exact E1|]. split; [exact E2 | exact E3]. }
    split.
    { destruct (H9 Hms Hn Hl Ha Hi) as (s' & E1 & E2 & E3 & _).
      exists s'. split; [exact E1|]. split; [exact E2 | exact E3]. }
    split.
    { destruct H4 as (E & _); [repeat constructor | reflexivity | exact E]. }
    { destruct H10 as (E & _); [reflexivity | exact E]. }
Defined.

(** ** The growable String *)

Lemma write_inline s offset src bytes s' :
  0 <= bytes -> write s offset src bytes = Returns s' ->
  iLength s' = iLength s /\ (inline s -> inline s').
Proof.
  intros Hb. unfold write.
  destruct (WritableText s) as [dest|] eqn:Ew.
  - destruct (memcpy dest offset src bytes) as [buffer|] eqn:E;
      [|discriminate].
    intros H; injection H as <-. split; [reflexivity|].
    intros (own & Hst & Hown).
    unfold WritableText, Data in Ew. rewrite Hst in Ew.
    injection Ew as <-. apply memcpy_len in E; [|exact Hb].
    exists buffer. unfold store. rewrite Hst. simpl. split; [reflexivity|].
    congruence.
  - destruct (bytes =? 0); [|discriminate].
    intros H; injection H as <-. auto.
Qed.

Lemma ResizeBuffer_inline b s n :
  inline s ->
  exists s',
    ResizeBuffer b s n = Returns s' /\ iLength s' = n /\
    (n <= KOwnTextLength -> inline s') /\
    (KOwnTextLength < n ->
     ~ inline s' /\ String_destructor_deletes s' = true /\
     MaxWritableLength s' = n).
Proof.
  intros (own & Hst & Hown). unfold ResizeBuffer. rewrite Hst.
  eexists. split; [reflexivity|]. unfold String_ResizeBuffer.
  destruct (Z.leb_spec n KOwnTextLength) as [Hn|Hn]; simpl.
  - split; [reflexivity|]. split; [|lia].
    intros _. exists own. auto.
  - split; [reflexivity|]. split; [lia|]. intros _.
    split; [|split; reflexivity].
    intros (own' & Hst' & _). simpl in Hst'. discriminate Hst'.
Qed.

Lemma inline_Writable s : inline s -> Writable s = true.
Proof. intros (own & Hst & _). unfold Writable. rewrite Hst. reflexivity. Qed.

(** A mutator that leaves at most [KOwnTextLength] units leaves the text in
    [iOwnText]. *)
Lemma inline_preserved b m s s' :
  inline s -> apply_mutation b m s = Returns s' ->
  iLength s' <= KOwnTextLength -> inline s'.
Proof.
  intros Hs.
  pose proof (inline_Writable s Hs) as Hw.
  assert (Hwrite : forall n offset src (bytes : MString -> Z),
             (this1 <- ResizeBuffer b s n ;;
              write this1 offset src (to_size_t (bytes this1)))%outcome
             = Returns s' ->
             iLength s' <= KOwnTextLength -> inline s').
  { intros n offset src bytes.
    destruct (ResizeBuffer_inline b s n Hs) as (s1 & -> & Hl & Hin & _).
    simpl. intros H Hlim.
    apply write_inline in H; [|apply to_size_t_nonneg].
    destruct H as [Hlen Hkeep]. apply Hkeep, Hin. lia. }
  destruct m as [n| | |t|t|txt n|txt n|c]; simpl.
  - destruct (ResizeBuffer_inline b s n Hs) as (s1 & -> & Hl & Hin & _).
    intros H; injection H as <-. intros Hlim. apply Hin. lia.
  - unfold Clear. rewrite Hw. simpl.
    destruct (ResizeBuffer_inline b s 0 Hs) as (s1 & -> & Hl & Hin & _).
    intros H; injection H as <-. intros _. apply Hin.
    unfold KOwnTextLength. lia.
  - intros H; injection H as <-. intros _.
    destruct Hs as (own & Hst & Hown). exists own. auto.
  - unfold Append. rewrite Hw. simpl.
    apply (Hwrite _ _ _
             (fun this1 => to_size_t (iLength this1 - iLength s) * 2)).
  - unfold Set_. rewrite Hw. simpl.
    apply (Hwrite _ _ _ (fun this1 => iLength this1 * 2)).
  - unfold Append16. rewrite Hw. simpl.
    destruct (if n =? npos then measure txt 0 else Some n); [|discriminate].
    apply (Hwrite _ _ _
             (fun this1 => to_size_t (iLength this1 - iLength s) * 2)).
  - unfold Set16. rewrite Hw. simpl.
    destruct (if n =? npos then measure txt 0 else Some n); [|discriminate].
    apply (Hwrite _ _ _ (fun this1 => iLength this1 * 2)).
  - unfold AppendChar, Append16. rewrite Hw. simpl.
    change (1 =? npos) with false. cbv iota.
    apply (Hwrite _ _ _
             (fun this1 => to_size_t (iLength this1 - iLength s) * 2)).
Qed.

Lemma String_new_inline : inline String_new.
Proof. exists (repeat 0 (Z.to_nat KOwnTextLength)). split; reflexivity. Qed.

(** C8. A new [String] has length 0 and its text in the member array
    [iOwnText] of exactly 32 units, with reserved size 32 and nothing
    allocated (the destructor deletes nothing).  It stays so through any
    mutators that leave at most 32 units of text, and a resize to more than
    32 units moves the text to a separate allocation. *)
Theorem String_starts_inline (b : Build) (s s' : MString) (n : Z) :
  (KOwnTextLength = 32 /\
   iLength String_new = 0 /\
   storage String_new = StringStorage (repeat 0 32) OwnText 32 /\
   len (Data String_new) = 32 /\
   MaxWritableLength String_new = 32 /\
   String_destructor_deletes String_new = false) /\
  (reached b KOwnTextLength String_new s ->
   inline s /\ len (Data s) = 32 /\ MaxWritableLength s = 32 /\
   String_destructor_deletes s = false) /\
  (inline s -> 32 < n -> ResizeBuffer b s n = Returns s' ->
   ~ inline s' /\ String_destructor_deletes s' = true /\
   MaxWritableLength s' = n).
Proof.
  split; [repeat split|]. split.
  - intros Hr.
    assert (Hin : inline s).
    { induction Hr as [|m s1 s2 _ IH Hm Hlim];
        [apply String_new_inline|].
      apply (inline_preserved b m s1 s2 IH Hm Hlim). }
    split; [exact Hin|].
    destruct Hin as (own & Hst & Hown).
    unfold Data, MaxWritableLength, String_destructor_deletes.
    rewrite Hst. auto.
  - intros Hin Hn.
    destruct (ResizeBuffer_inline b s n Hin) as (s1 & -> & _ & _ & Hout).
    intros H; injection H as <-. apply Hout. exact Hn.
Qed.

Lemma String_starts_inline_witness :
  inline (mkMString 3 (StringStorage (repeat 0 32) OwnText 32)) /\
  ~ inline (String_ResizeBuffer 0 (repeat 0 32) OwnText 32 40).
Proof.
  destruct (String_starts_inline Release
              (mkMString 3 (StringStorage (repeat 0 32) OwnText 32))
              (String_ResizeBuffer 0 (repeat 0 32) OwnText 32 40) 40)
    as (_ & H2 & H3).
  split.
  - apply H2.
    apply (reached_step Release KOwnTextLength String_new
             (DoResizeBuffer 3) String_new).
    + apply reached_start.
    + reflexivity.
    + unfold KOwnTextLength. simpl. lia.
  - apply H3.
    + apply String_new_inline.
    + lia.
    + reflexivity.
Defined.

(** ** Fuzzy matching *)

Lemma lev_nil_r s : lev s [] = length s.
Proof. destruct s; reflexivity. Qed.

Lemma lev_cons a b s t :
  lev (a :: s) (b :: t)
  = Nat.min (lev s t + (if a =? b then 0 else 1))
      (Nat.min (lev s (b :: t) + 1) (lev (a :: s) t + 1)).
Proof. reflexivity. Qed.

Lemma edits_insert_all t : edits [] t (length t).
Proof.
  induction t as [|b t IH]; [apply edits_nil|].
  simpl. apply edits_insert. exact IH.
Qed.

Lemma edits_delete_all s : edits s [] (length s).
Proof.
  induction s as [|a s IH]; [apply edits_nil|].
  simpl. apply edits_delete. exact IH.
Qed.

(** The recursion is the cost of an alignment ... *)
Lemma lev_edits s t : edits s t (lev s t).
Proof.
  revert t. induction s as [|a s IHs]; intros t.
  - apply edits_insert_all.
  - induction t as [|b t IHt].
    + rewrite lev_nil_r. apply edits_delete_all.
    + rewrite lev_cons.
      destruct (Nat.min_spec (lev s t + (if a =? b then 0 else 1))
                  (Nat.min (lev s (b :: t) + 1) (lev (a :: s) t + 1)))
        as [[_ ->]|[_ ->]].
      * destruct (Z.eqb_spec a b) as [->|_].
        -- rewrite Nat.add_0_r. apply edits_keep, IHs.
        -- rewrite Nat.add_1_r. apply edits_substitute, IHs.
      * destruct (Nat.min_spec (lev s (b :: t) + 1) (lev (a :: s) t + 1))
          as [[_ ->]|[_ ->]]; rewrite Nat.add_1_r.
        -- apply edits_delete, IHs.
        -- apply edits_insert, IHt.
Qed.

Lemma lev_delete a s t : (lev (a :: s) t <= lev s t + 1)%nat.
Proof.
  destruct t as [|b t].
  - rewrite !lev_nil_r. simpl. lia.
  - rewrite lev_cons. lia.
Qed.

Lemma lev_insert b s t : (lev s (b :: t) <= lev s t + 1)%nat.
Proof.
  destruct s as [|a s].
  - simpl. lia.
  - rewrite lev_cons. lia.
Qed.

(** ... and no alignment is cheaper. *)
Lemma lev_least s t k : edits s t k -> (lev s t <= k)%nat.
Proof.
  induction 1 as [|a s t k _ IH|a b s t k _ IH|a s t k _ IH|b s t k _ IH].
  - simpl. lia.
  - rewrite lev_cons, Z.eqb_refl. lia.
  - rewrite lev_cons. destruct (a =? b); lia.
  - pose proof (lev_delete a s t). lia.
  - pose proof (lev_insert b s t). lia.
Qed.

Lemma lev_is_edit_distance s t : edit_distance s t (lev s t).
Proof. split; [apply lev_edits | apply lev_least]. Qed.

Lemma edit_distance_lev s t d : edit_distance s t d -> d = lev s t.
Proof.
  intros [H1 H2]. apply lev_least in H1.
  specialize (H2 _ (lev_edits s t)). lia.
Qed.

(** Alignments can be extended at the far end, so they can be reversed. *)
Lemma edits_app s1 t1 k1 s2 t2 k2 :
  edits s1 t1 k1 -> edits s2 t2 k2 -> edits (s1 ++ s2) (t1 ++ t2) (k1 + k2).
Proof.
  intros H1 H2. induction H1; simpl; try (constructor; assumption).
  exact H2.
Qed.

Lemma edits_rev s t k : edits s t k -> edits (rev s) (rev t) k.
Proof.
  induction 1 as [|a s t k _ IH|a b s t k _ IH|a s t k _ IH|b s t k _ IH];
    simpl.
  - apply edits_nil.
  - rewrite <- (Nat.add_0_r k).
    apply edits_app; [exact IH | apply edits_keep, edits_nil].
  - rewrite <- Nat.add_1_r.
    apply edits_app; [exact IH | apply edits_substitute, edits_nil].
  - rewrite <- Nat.add_1_r, <- (app_nil_r (rev t)).
    apply edits_app; [exact IH | apply edits_delete, edits_nil].
  - rewrite <- Nat.add_1_r, <- (app_nil_r (rev s)).
    apply edits_app; [exact IH | apply edits_insert, edits_nil].
Qed.

Lemma lev_rev s t : lev (rev s) (rev t) = lev s t.
Proof.
  apply Nat.le_antisymm.
  - apply lev_least, edits_rev, lev_edits.
  - rewrite <- (rev_involutive s) at 1. rewrite <- (rev_involutive t) at 1.
    apply lev_least, edits_rev, lev_edits.
Qed.

(** The distance is at least the difference of the lengths: what makes the
    band sound. *)
Lemma edits_lengths s t k :
  edits s t k ->
  (length s <= length t + k)%nat /\ (length t <= length s + k)%nat.
Proof. induction 1; simpl; lia. Qed.

Lemma lev_band s t : Z.abs (len s - len t) <= Z.of_nat (lev s t).
Proof.
  pose proof (edits_lengths s t _ (lev_edits s t)). unfold len. lia.
Qed.

Lemma last_cons (x d : Z) l : last (x :: l) d = last l x.
Proof.
  revert x d. induction l as [|y l IH]; intros x d; [reflexivity|].
  change (last (x :: y :: l) d) with (last (y :: l) d).
  rewrite !IH. reflexivity.
Qed.

Lemma last_row_of cap sp tp t :
  last (row_of cap sp tp t) (saturate cap (Z.of_nat (lev sp tp)))
  = saturate cap (Z.of_nat (lev sp (rev t ++ tp))).
Proof.
  revert tp. induction t as [|b t IH]; intros tp; [reflexivity|].
  simpl row_of. rewrite last_cons, IH. simpl rev.
  rewrite <- app_assoc. reflexivity.
Qed.

Lemma fuzzy_first_row_spec cap j tp t :
  j = len tp + 1 -> fuzzy_first_row cap j t = row_of cap [] tp t.
Proof.
  revert j tp. induction t as [|b t IH]; intros j tp Hj; [reflexivity|].
  simpl. f_equal.
  - f_equal. unfold len in Hj. lia.
  - apply IH. unfold len in *. simpl length. lia.
Qed.

Lemma fuzzy_row_spec cap a sp i t :
  i = len (a :: sp) ->
  forall tp j diag left,
    j = len tp + 1 ->
    diag = saturate cap (Z.of_nat (lev sp tp)) ->
    left = saturate cap (Z.of_nat (lev (a :: sp) tp)) ->
    fuzzy_row cap a i j t diag (row_of cap sp tp t) left
    = row_of cap (a :: sp) tp t.
Proof.
  intros Hi. induction t as [|b t IH]; intros tp j diag left Hj Hd Hl;
    [reflexivity|].
  simpl fuzzy_row. simpl row_of.
  assert (Hcell :
    (if cap <? Z.abs (i - j) then cap + 1
     else saturate cap
            (Z.min (diag + (if a =? b then 0 else 1))
               (Z.min (saturate cap (Z.of_nat (lev sp (b :: tp))) + 1)
                  (left + 1))))
    = saturate cap (Z.of_nat (lev (a :: sp) (b :: tp)))).
  { destruct (Z.ltb_spec cap (Z.abs (i - j))) as [Hout|Hin].
    - pose proof (lev_band (a :: sp) (b :: tp)) as Hband.
      replace (len (b :: tp)) with j in Hband
        by (unfold len in *; simpl length; lia).
      rewrite <- Hi in Hband. unfold saturate. lia.
    - subst diag left. rewrite lev_cons. unfold saturate.
      destruct (a =? b); lia. }
  rewrite Hcell. f_equal.
  apply IH; [unfold len in *; simpl length; lia | reflexivity | reflexivity].
Qed.

Lemma fuzzy_rows_spec cap t s :
  forall sp i,
    i = len sp ->
    fuzzy_rows cap s i t (row_of cap sp [] t) = row_of cap (rev s ++ sp) [] t.
Proof.
  induction s as [|a s IH]; intros sp i Hi; [reflexivity|].
  simpl fuzzy_rows.
  rewrite (fuzzy_row_spec cap a sp (i + 1) t).
  - rewrite (IH (a :: sp)) by (unfold len in *; simpl length; lia).
    simpl rev. rewrite <- app_assoc. reflexivity.
  - unfold len in *. simpl length. lia.
  - reflexivity.
  - rewrite lev_nil_r. f_equal. unfold len in Hi. lia.
  - rewrite lev_nil_r. f_equal. unfold len in Hi. simpl length. lia.
Qed.

(** The table computes the distance, saturated just above the cap. *)
Lemma FuzzyCompare_lev s t aMaxDistance :
  FuzzyCompare s t aMaxDistance
  = saturate (Z.min aMaxDistance KMaxFuzzyDistance) (Z.of_nat (lev s t)).
Proof.
  unfold FuzzyCompare. cbv zeta.
  set (cap := Z.min aMaxDistance KMaxFuzzyDistance).
  rewrite (fuzzy_first_row_spec cap 1 [] t) by reflexivity.
  rewrite (fuzzy_rows_spec cap t s [] 0) by reflexivity.
  rewrite app_nil_r.
  replace (saturate cap (len s))
    with (saturate cap (Z.of_nat (lev (rev s) [])))
    by (rewrite lev_nil_r, length_rev; reflexivity).
  rewrite last_row_of, app_nil_r, lev_rev. reflexivity.
Qed.

(** C2. [KMaxFuzzyDistance] is 4, and for two texts at edit distance [d]
    (unit-cost insertions, deletions and substitutions) and a maximum of at
    most 4, [FuzzyMatch] is true exactly when [d] is at most the maximum;
    [FuzzyCompare] gives [d] up to the maximum and one more than the
    maximum beyond it. *)
Theorem FuzzyMatch_bounded_edit_distance
    (A B : list Z) (d : nat) (aMaxDistance : Z) :
  edit_distance A B d -> aMaxDistance <= KMaxFuzzyDistance ->
  KMaxFuzzyDistance = 4 /\
  (FuzzyMatch A B aMaxDistance = true <-> Z.of_nat d <= aMaxDistance) /\
  FuzzyCompare A B aMaxDistance = Z.min (Z.of_nat d) (aMaxDistance + 1).
Proof.
  intros Hd Hmax. apply edit_distance_lev in Hd. subst d.
  split; [reflexivity|].
  unfold FuzzyMatch. rewrite FuzzyCompare_lev.
  replace (Z.min aMaxDistance KMaxFuzzyDistance) with aMaxDistance by lia.
  unfold saturate. split; [|reflexivity].
  rewrite Z.leb_le. lia.
Qed.

Lemma FuzzyMatch_bounded_edit_distance_witness :
  (FuzzyMatch [80; 105; 99; 97; 100; 105; 108; 108; 121]
     [80; 105; 99; 99; 97; 100; 105; 108; 108; 121] 1 = true
   <-> Z.of_nat 1 <= 1) /\
  (FuzzyMatch [80; 105; 99; 97; 100; 105; 108; 108; 121]
     [80; 105; 99; 99; 97; 100; 105; 108; 108; 121] 0 = true
   <-> Z.of_nat 1 <= 0).
Proof.
  split.
  - apply (FuzzyMatch_bounded_edit_distance
             [80; 105; 99; 97; 100; 105; 108; 108; 121]
             [80; 105; 99; 99; 97; 100; 105; 108; 108; 121] 1 1).
    + exact (lev_is_edit_distance
               [80; 105; 99; 97; 100; 105; 108; 108; 121]
               [80; 105; 99; 99; 97; 100; 105; 108; 108; 121]).
    + unfold KMaxFuzzyDistance. lia.
  - apply (FuzzyMatch_bounded_edit_distance
             [80; 105; 99; 97; 100; 105; 108; 108; 121]
             [80; 105; 99; 99; 97; 100; 105; 108; 108; 121] 1 0).
    + exact (lev_is_edit_distance
               [80; 105; 99; 97; 100; 105; 108; 108; 121]
               [80; 105; 99; 99; 97; 100; 105; 108; 108; 121]).
    + unfold KMaxFuzzyDistance. lia.
Defined.

(** Scenario 3 of the spec: "Picadilly" matches "Piccadilly" within
    distance 1 and not within distance 0. *)
Example FuzzyMatch_Picadilly :
  FuzzyMatch [80; 105; 99; 97; 100; 105; 108; 108; 121]
    [80; 105; 99; 99; 97; 100; 105; 108; 108; 121] 1 = true /\
  FuzzyMatch [80; 105; 99; 97; 100; 105; 108; 108; 121]
    [80; 105; 99; 99; 97; 100; 105; 108; 108; 121] 0 = false.
Proof. split; reflexivity. Qed.

(* ------------------------------------------------------------------ *)
(** * Further properties of the code *)

(** ** Equality and order of strings *)

Lemma units_eqb_eq p q : units_eqb p q = true <-> p = q.
Proof.
  revert q. induction p as [|x p IH]; intros [|y q]; simpl;
    try (split; (discriminate || reflexivity)).
  rewrite andb_true_iff, Z.eqb_eq, IH.
  split; [intros [-> ->]; reflexivity | intros H; injection H; auto].
Qed.

Lemma op_eq_units A B :
  readable A -> readable B -> addressable A ->
  op_eq A B = Some (units_eqb (units B) (units A) && (iLength B =? iLength A)).
Proof.
  intros HA HB Hm. unfold op_eq, readable, addressable in *.
  change (2 ^ 64) with 18446744073709551616 in *.
  destruct (Z.eqb_spec (iLength B) (iLength A)) as [E|E];
    [|rewrite andb_false_r; reflexivity].
  rewrite andb_true_r.
  rewrite to_size_t_small
    by (change (2 ^ 64) with 18446744073709551616; lia).
  unfold memcmp_zero. rewrite Z.div_mul by lia.
  destruct (Z.leb_spec (iLength A) (len (Data B))); [|lia].
  destruct (Z.leb_spec (iLength A) (len (Data A))); [|lia].
  simpl. unfold units. rewrite E. reflexivity.
Qed.


(** X1. For readable strings, [==] is true exactly when the two texts are
    the same units, which is exactly when [Compare] gives 0; [!=] is its
    negation. *)
Theorem op_eq_is_equality_of_text A B :
  readable A -> readable B -> addressable A ->
  exists e,
    op_eq A B = Some e /\ op_ne A B = Some (negb e) /\
    (e = true <-> units A = units B) /\
    (e = true <-> Compare A B = Some 0).
Proof.
  intros HA HB Hm. rewrite (Compare_units A B HA HB).
  unfold op_ne. rewrite (op_eq_units A B HA HB Hm). simpl.
  eexists. split; [reflexivity|]. split; [reflexivity|].
  rewrite compare_units_equal.
  assert (H : units_eqb (units B) (units A) && (iLength B =? iLength A) = true
              <-> units A = units B).
  { rewrite andb_true_iff, units_eqb_eq, Z.eqb_eq. split.
    - intros [H _]. auto.
    - intros H. split; [auto|].
      rewrite <- (units_length A HA), <- (units_length B HB), H. reflexivity. }
  split; [exact H | exact H].
Qed.

Lemma op_eq_is_equality_of_text_witness :
  exists e,
    op_eq (Text_of [72; 105; 9] 2) (mkMString 2 (TextBufferStorage 3 [72; 105; 0]))
    = Some e /\
    (e = true <->
     units (Text_of [72; 105; 9] 2)
     = units (mkMString 2 (TextBufferStorage 3 [72; 105; 0]))).
Proof.
  destruct (op_eq_is_equality_of_text (Text_of [72; 105; 9] 2)
              (mkMString 2 (TextBufferStorage 3 [72; 105; 0])))
    as (e & H1 & _ & H2 & _).
  - unfold readable, len. simpl. lia.
  - unfold readable, len. simpl. lia.
  - unfold addressable, len. simpl. lia.
  - exists e. split; [exact H1 | exact H2].
Defined.

Lemma eq_terminated_compare n p t rest :
  Forall (fun u => u <> 0) t ->
  exists e,
    eq_terminated n p (t ++ 0 :: rest) = option_map (fun _ => e)
                                           (compare_terminated n p (t ++ 0 :: rest)) /\
    (e = true <-> compare_terminated n p (t ++ 0 :: rest) = Some 0).
Proof.
  intros Ht. revert n p. induction Ht as [|y t Hy Ht IH]; intros n p.
  - destruct n as [|n]; simpl.
    + exists true. split; [reflexivity|]. tauto.
    + exists false. split; [reflexivity|]. split; discriminate.
  - destruct n as [|n]; simpl.
    + destruct (Z.eqb_spec y 0); [contradiction|].
      exists false. split; [reflexivity|]. split; discriminate.
    + destruct (Z.eqb_spec y 0); [contradiction|].
      destruct p as [|x p].
      * exists false. split; [reflexivity|]. split; discriminate.
      * destruct (Z.eqb_spec x y) as [->|Hxy].
        -- rewrite Z.ltb_irrefl.
           destruct (Z.gtb_spec y y); [lia|]. apply IH.
        -- exists false. destruct (Z.ltb_spec x y).
           ++ split; [reflexivity|]. split; discriminate.
           ++ destruct (Z.gtb_spec x y); [|lia].
              split; [reflexivity|]. split; discriminate.
Qed.

Lemma op_eq16_agrees_with_Compare16_aux A t rest :
  readable A -> Forall (fun u => u <> 0) t ->
  exists e,
    op_eq16 A (t ++ 0 :: rest) = Some e /\
    (e = true <-> Compare16 A (t ++ 0 :: rest) = Some 0) /\
    (e = true <-> units A = t).
Proof.
  intros HA Ht. unfold op_eq16, Compare16.
  destruct (eq_terminated_compare (Z.to_nat (iLength A)) (Data A) t rest Ht)
    as (e & He & Hiff).
  rewrite compare_terminated_units in * by exact Ht.
  rewrite compare_units_firstn in *
    by (try apply readable_length; auto).
  rewrite firstn_all in *.
  destruct (compare_units_value (firstn (Z.to_nat (iLength A)) (Data A)) t)
    as (r & Hr & _).
  rewrite Hr in *. simpl in He.
  exists e. split; [exact He|]. split; [exact Hiff|].
  rewrite Hiff, <- Hr. apply compare_units_equal.
Qed.

(** X2. For a readable string and null-terminated UTF-16 text, [==] with
    the text returns, and is true exactly when the three-way [Compare] with
    the text gives 0, which is exactly when the string's units are the
    units before the terminator; [!=] is the negation. *)
Theorem op_eq16_agrees_with_Compare16 A t rest :
  readable A -> Forall (fun u => u <> 0) t ->
  exists e,
    op_eq16 A (t ++ 0 :: rest) = Some e /\
    op_ne16 A (t ++ 0 :: rest) = Some (negb e) /\
    (e = true <-> Compare16 A (t ++ 0 :: rest) = Some 0) /\
    (e = true <-> units A = t).
Proof.
  intros HA Ht.
  destruct (op_eq16_agrees_with_Compare16_aux A t rest HA Ht)
    as (e & He & H1 & H2).
  exists e. unfold op_ne16. rewrite He. auto.
Qed.

Lemma op_eq16_agrees_with_Compare16_witness :
  exists e,
    op_eq16 (Text_of [72; 105] 2) ([72; 105] ++ 0 :: [7]) = Some e /\
    (e = true <-> units (Text_of [72; 105] 2) = [72; 105]).
Proof.
  destruct (op_eq16_agrees_with_Compare16 (Text_of [72; 105] 2) [72; 105] [7])
    as (e & H1 & _ & _ & H2).
  - unfold readable, len. simpl. lia.
  - repeat constructor; discriminate.
  - exists e. split; [exact H1 | exact H2].
Defined.

Lemma compare_units_sign a b :
  exists r,
    compare_units (length a) (length b) a b = Some r /\
    (r < 0 <-> lex_lt a b) /\ (0 < r <-> lex_lt b a) /\ (r = 0 <-> a = b).
Proof.
  revert b. induction a as [|x a IH]; intros [|y b].
  - exists 0. simpl. split; [reflexivity|].
    split; [|split]; split; intros H;
      first [lia | reflexivity | discriminate | (inversion H; fail)].
  - exists (-1). simpl. split; [reflexivity|].
    split; [|split]; split; intros H;
      first [lia | discriminate | (inversion H; fail) | apply lex_lt_nil].
  - exists 1. simpl. split; [reflexivity|].
    split; [|split]; split; intros H;
      first [lia | discriminate | (inversion H; fail) | apply lex_lt_nil].
  - rewrite compare_units_cons. order_cases x y.
    + exists (-2). rewrite !lex_lt_cons. split; [reflexivity|].
      split; [|split]; split; try lia. intros H; injection H; lia.
    + exists 2. rewrite !lex_lt_cons. split; [reflexivity|].
      split; [|split]; split; try lia. intros H; injection H; lia.
    + destruct (IH b) as (r & Hr & H1 & H2 & H3). exists r.
      rewrite !lex_lt_cons. split; [exact Hr|].
      split; [|split].
      * rewrite H1. split; [auto | intros [H|[_ H]]; [lia | exact H]].
      * rewrite H2. split; [auto | intros [H|[_ H]]; [lia | exact H]].
      * rewrite H3. split; [intros ->; reflexivity | intros H; injection H; auto].
Qed.

Lemma lex_lt_trans a b c : lex_lt a b -> lex_lt b c -> lex_lt a c.
Proof.
  intros H. revert c. induction H as [y t|x y s t Hxy|x s t _ IH]; intros c Hc.
  - inversion Hc; subst; apply lex_lt_nil.
  - inversion Hc; subst; apply lex_lt_head; lia.
  - inversion Hc; subst.
    + apply lex_lt_head. assumption.
    + apply lex_lt_tail. apply IH. assumption.
Qed.

Lemma lex_lt_irrefl a : ~ lex_lt a a.
Proof.
  induction a as [|x a IH]; intros H; inversion H; subst; [lia | auto].
Qed.

Lemma op_lt_lex A B :
  readable A -> readable B ->
  (op_lt A B = Some true <-> lex_lt (units A) (units B)) /\
  exists v, op_lt A B = Some v.
Proof.
  intros HA HB. unfold op_lt. rewrite (Compare_units A B HA HB).
  destruct (compare_units_sign (units A) (units B)) as (r & -> & H1 & _).
  simpl. split; [|eexists; reflexivity].
  rewrite <- H1. split.
  - intros H; injection H as H. apply Z.ltb_lt. exact H.
  - intros H. f_equal. apply Z.ltb_lt. exact H.
Qed.

(** X3. For readable strings the operators [<], [<=], [>], [>=] return and
    order the texts lexicographically by unit value: [<] and [>] are the
    strict order and its converse, [<=] is the negation of [>], [>=] the
    negation of [<], and exactly one of [A < B], equal texts, [A > B]
    holds. *)
Theorem relational_operators_lexicographic A B :
  readable A -> readable B ->
  exists lt gt,
    op_lt A B = Some lt /\ op_gt A B = Some gt /\
    op_le A B = Some (negb gt) /\ op_ge A B = Some (negb lt) /\
    (lt = true <-> lex_lt (units A) (units B)) /\
    (gt = true <-> lex_lt (units B) (units A)) /\
    ((lt = true /\ units A <> units B /\ gt = false) \/
     (lt = false /\ units A = units B /\ gt = false) \/
     (lt = false /\ units A <> units B /\ gt = true)).
Proof.
  intros HA HB. unfold op_lt, op_gt, op_le, op_ge.
  rewrite (Compare_units A B HA HB).
  destruct (compare_units_sign (units A) (units B)) as (r & -> & H1 & H2 & H3).
  simpl. exists (r <? 0), (r >? 0).
  split; [reflexivity|]. split; [reflexivity|].
  split; [f_equal; destruct (Z.leb_spec r 0), (Z.gtb_spec r 0); simpl; lia|].
  split; [f_equal; destruct (Z.geb_spec r 0), (Z.ltb_spec r 0); simpl; lia|].
  split; [rewrite Z.ltb_lt; exact H1|].
  split; [rewrite Z.gtb_ltb, Z.ltb_lt; exact H2|].
  destruct (Z.ltb_spec r 0), (Z.gtb_spec r 0); try lia.
  - left. split; [reflexivity|]. split; [|reflexivity]. rewrite <- H3. lia.
  - right. right. split; [reflexivity|]. split; [|reflexivity].
    rewrite <- H3. lia.
  - right. left. split; [reflexivity|]. split; [|reflexivity].
    apply H3. lia.
Qed.

Lemma relational_operators_lexicographic_witness :
  exists lt gt,
    op_lt (Text_of [65; 66] 2) (Text_of [65; 67; 68] 3) = Some lt /\
    op_gt (Text_of [65; 66] 2) (Text_of [65; 67; 68] 3) = Some gt /\
    (lt = true <-> lex_lt [65; 66] [65; 67; 68]).
Proof.
  destruct (relational_operators_lexicographic
              (Text_of [65; 66] 2) (Text_of [65; 67; 68] 3))
    as (lt & gt & H1 & H2 & _ & _ & H3 & _).
  - unfold readable, len. simpl. lia.
  - unfold readable, len. simpl. lia.
  - exists lt, gt. split; [exact H1|]. split; [exact H2 | exact H3].
Defined.

(** X4. [<] on readable strings is a strict order: it is transitive and no
    string is less than itself, as a key comparison for [std::map] needs. *)
Theorem op_lt_strict_order A B C :
  readable A -> readable B -> readable C ->
  op_lt A A = Some false /\
  (op_lt A B = Some true -> op_lt B C = Some true -> op_lt A C = Some true).
Proof.
  intros HA HB HC. split.
  - destruct (op_lt_lex A A HA HA) as [H [v Hv]].
    destruct v; [|exact Hv].
    exfalso. apply (lex_lt_irrefl (units A)). apply H. exact Hv.
  - intros H1 H2.
    apply (op_lt_lex A B HA HB) in H1. apply (op_lt_lex B C HB HC) in H2.
    apply (op_lt_lex A C HA HC). exact (lex_lt_trans _ _ _ H1 H2).
Qed.

Lemma op_lt_strict_order_witness :
  op_lt (Text_of [65] 1) (Text_of [65] 1) = Some false /\
  op_lt (Text_of [65] 1) (Text_of [66; 67] 2) = Some true.
Proof.
  destruct (op_lt_strict_order (Text_of [65] 1) (Text_of [65; 66] 2)
              (Text_of [66; 67] 2)) as [H1 H2].
  - unfold readable, len. simpl. lia.
  - unfold readable, len. simpl. lia.
  - unfold readable, len. simpl. lia.
  - split; [exact H1|]. apply H2; reflexivity.
Defined.

(** ** Null-terminated text *)




(** X5. The [Text] made from null-terminated UTF-16 text has the units
    before the first zero unit as its text: its length is their number, it
    is readable and not writable, and it compares and tests equal to the
    text it was made from.  On storage without a zero unit the measuring
    loop runs off the end. *)
Theorem Text_terminated_measures t rest :
  Forall (fun u => u <> 0) t -> len t < 2 ^ 64 ->
  (exists s,
     Text_terminated (Some (t ++ 0 :: rest)) = Some s /\
     iLength s = len t /\ units s = t /\ readable s /\ Writable s = false /\
     Compare16 s (t ++ 0 :: rest) = Some 0 /\
     op_eq16 s (t ++ 0 :: rest) = Some true) /\
  Text_terminated (Some t) = None.
Proof.
  intros Ht Hb. split.
  - unfold Text_terminated.
    rewrite (measure_terminated t rest 0 Ht) by (unfold len in *; lia).
    simpl Z.add.
    set (s := mkMString (len t) (TextStorage (t ++ 0 :: rest))).
    assert (Hu : units s = t) by apply firstn_len_app.
    assert (Hr : readable s).
    { unfold readable, s, len, Data. cbn [storage iLength].
      rewrite length_app. simpl length. lia. }
    exists s. split; [reflexivity|]. split; [reflexivity|].
    split; [exact Hu|]. split; [exact Hr|]. split; [reflexivity|].
    destruct (op_eq16_agrees_with_Compare16_aux s t rest Hr Ht)
      as (e & He & Hc & Hun).
    assert (e = true) by (apply Hun; exact Hu). subst e.
    split; [apply Hc; reflexivity | exact He].
  - unfold Text_terminated. rewrite measure_unterminated by exact Ht.
    reflexivity.
Qed.

Lemma Text_terminated_measures_witness :
  exists s,
    Text_terminated (Some ([72; 105] ++ 0 :: [9])) = Some s /\
    iLength s = len [72; 105] /\ units s = [72; 105].
Proof.
  destruct (Text_terminated_measures [72; 105] [9]) as [(s & H1 & H2 & H3 & _) _].
  - repeat constructor; discriminate.
  - unfold len. simpl. lia.
  - exists s. split; [exact H1|]. split; [exact H2 | exact H3].
Defined.

(** ** How the mutators of a fixed-capacity string compose *)


Lemma write_storage_len s n offset src bytes s' :
  fixed_capacity s -> 0 <= n <= MaxWritableLength s -> 0 <= bytes ->
  write (set_length s n) offset src bytes = Returns s' ->
  len (Data s') = len (Data s).
Proof.
  intros Hs Hn Hb.
  destruct (fixed_capacity_facts s Hs) as (_ & _ & _ & _ & Hw & Hst & _).
  unfold write. rewrite Hw.
  destruct (memcpy (Data s) offset src bytes) as [buffer|] eqn:E;
    [|discriminate].
  intros H; injection H as <-.
  apply memcpy_len in E; [|exact Hb].
  destruct (Hst n buffer Hn E) as (_ & _ & _ & F4). rewrite F4. exact E.
Qed.

Lemma Append_storage_len b s t s' :
  fixed_capacity s -> Append b s t = Returns s' ->
  len (Data s') = len (Data s).
Proof.
  intros Hs.
  destruct (fixed_capacity_facts s Hs) as (Hw & Hl & _ & Hr & _).
  unfold Append. rewrite Hw, Hr. simpl. intros H.
  apply write_storage_len in H; auto using to_size_t_nonneg.
  pose proof (to_size_t_nonneg (iLength s + iLength t)). lia.
Qed.

Lemma Set_storage_len b s t s' :
  fixed_capacity s -> 0 <= iLength t -> Set_ b s t = Returns s' ->
  len (Data s') = len (Data s).
Proof.
  intros Hs Ht.
  destruct (fixed_capacity_facts s Hs) as (Hw & Hl & _ & Hr & _).
  unfold Set_. rewrite Hw, Hr. simpl. intros H.
  apply write_storage_len in H; auto using to_size_t_nonneg. lia.
Qed.

Lemma firstn_firstn_app (k : nat) (l m : list Z) :
  firstn k (firstn k l ++ m) = firstn k (l ++ m).
Proof.
  destruct (Nat.le_gt_cases (length l) k) as [H|H].
  - rewrite (firstn_all2 (n := k) l) by exact H. reflexivity.
  - rewrite !firstn_app, firstn_firstn, Nat.min_id, length_firstn.
    replace (k - Nat.min k (length l))%nat with 0%nat by lia.
    replace (k - length l)%nat with 0%nat by lia. reflexivity.
Qed.

(** X6. Setting a fixed-capacity string from null-terminated UTF-16 text
    (length [npos]) stores the units before the terminator, cut at the
    capacity; appending such text stores the old text followed by those
    units, cut at the capacity. *)
Theorem terminated_text_into_fixed_capacity b s t rest :
  fixed_capacity s -> addressable s ->
  Forall (fun u => u <> 0) t -> 2 * len (t ++ 0 :: rest) < 2 ^ 64 ->
  exists s1 s2,
    Set16 b s (t ++ 0 :: rest) npos = Returns s1 /\
    iLength s1 = Z.min (len t) (MaxWritableLength s) /\
    units s1 = firstn (Z.to_nat (MaxWritableLength s)) t /\
    Append16 b s (t ++ 0 :: rest) npos = Returns s2 /\
    iLength s2 = Z.min (iLength s + len t) (MaxWritableLength s) /\
    units s2 = firstn (Z.to_nat (MaxWritableLength s)) (units s ++ t).
Proof.
  intros Hs Hms Ht Hmt.
  set (v := mkMString (len t) (TextStorage (t ++ 0 :: rest))).
  assert (Hlen : len (t ++ 0 :: rest) = len t + 1 + len rest).
  { unfold len. rewrite length_app. simpl length. lia. }
  pose proof (len_nonneg t) as Ht0. pose proof (len_nonneg rest) as Hr0.
  change (2 ^ 64) with 18446744073709551616 in Hmt.
  assert (Hv : readable v)
    by (unfold readable, v, Data; cbn [storage iLength]; lia).
  assert (Hva : addressable v).
  { unfold addressable, v, Data. cbn [storage iLength].
    change (2 ^ 64) with 18446744073709551616. lia. }
  assert (Hu : units v = t) by apply firstn_len_app.
  assert (Hm : measure (t ++ 0 :: rest) 0 = Some (len t)).
  { rewrite (measure_terminated t rest 0 Ht);
      [reflexivity | lia | change (2 ^ 64) with 18446744073709551616; lia]. }
  assert (E1 : Set16 b s (t ++ 0 :: rest) npos = Set_ b s v).
  { unfold Set16, Set_. rewrite Z.eqb_refl, Hm. reflexivity. }
  assert (E2 : Append16 b s (t ++ 0 :: rest) npos = Append b s v).
  { unfold Append16, Append. rewrite Z.eqb_refl, Hm. reflexivity. }
  destruct (Set_fixed b s v Hs Hms Hv) as (s1 & F1 & F2 & F3 & _).
  destruct (Append_fixed b s v Hs Hms Hv Hva) as (s2 & G1 & G2 & G3 & _).
  rewrite Hu in F3, G3. change (iLength v) with (len t) in F2, G2.
  exists s1, s2. rewrite E1, E2. auto 10.
Qed.

Lemma terminated_text_into_fixed_capacity_witness :
  exists s1 s2,
    Set16 Release (mkMString 1 (TextBufferStorage 3 [65; 0; 0]))
      ([72; 101; 108; 108] ++ 0 :: []) npos = Returns s1 /\
    units s1 = [72; 101; 108] /\
    Append16 Release (mkMString 1 (TextBufferStorage 3 [65; 0; 0]))
      ([72; 101; 108; 108] ++ 0 :: []) npos = Returns s2 /\
    units s2 = [65; 72; 101].
Proof.
  destruct (terminated_text_into_fixed_capacity Release
              (mkMString 1 (TextBufferStorage 3 [65; 0; 0]))
              [72; 101; 108; 108] [])
    as (s1 & s2 & H1 & _ & H2 & H3 & _ & H4).
  - unfold fixed_capacity, len. simpl. lia.
  - unfold addressable, len. simpl. lia.
  - repeat constructor; discriminate.
  - unfold len. simpl. lia.
  - exists s1, s2. split; [exact H1|]. split; [exact H2|].
    split; [exact H3 | exact H4].
Defined.

(** X7. On a fixed-capacity string, [Clear] followed by [Append] of a
    string is [Set] of that string: the two calls end the same way with
    the same object. *)
Theorem Clear_then_Append_is_Set b s t :
  fixed_capacity s -> addressable s -> 0 <= iLength t < 2 ^ 64 ->
  (s0 <- Clear b s ;; Append b s0 t)%outcome = Set_ b s t.
Proof.
  intros Hs Hms Ht.
  destruct (fixed_capacity_facts s Hs) as (Hw & Hl & Hc & Hr & _ & _ & Hset).
  unfold addressable in Hms.
  change (2 ^ 64) with 18446744073709551616 in *.
  unfold Clear. rewrite Hw, Hr. simpl.
  replace (Z.min 0 (MaxWritableLength s)) with 0 by lia.
  destruct (Hset 0 ltac:(lia)) as [Hs0 Hcap0].
  destruct (fixed_capacity_facts _ Hs0) as (Hw0 & _ & _ & Hr0 & _).
  unfold Append, Set_. rewrite Hw0, Hw, Hr0, Hr, Hcap0. simpl.
  rewrite to_size_t_small
    by (change (2 ^ 64) with 18446744073709551616; lia).
  rewrite Z.sub_0_r.
  rewrite (to_size_t_small (Z.min (iLength t) (MaxWritableLength s)))
    by (change (2 ^ 64) with 18446744073709551616; lia).
  reflexivity.
Qed.

Lemma Clear_then_Append_is_Set_witness :
  (s0 <- Clear Release (mkMString 2 (TextBufferStorage 3 [65; 66; 0])) ;;
   Append Release s0 (Text_of [72; 105] 2))%outcome
  = Set_ Release (mkMString 2 (TextBufferStorage 3 [65; 66; 0]))
      (Text_of [72; 105] 2).
Proof.
  apply (Clear_then_Append_is_Set Release
           (mkMString 2 (TextBufferStorage 3 [65; 66; 0]))
           (Text_of [72; 105] 2)).
  - unfold fixed_capacity, len. simpl. lia.
  - unfold addressable, len. simpl. lia.
  - simpl. lia.
Defined.

(** X8. Appending two strings in turn to a fixed-capacity string leaves
    the old text followed by both, cut at the capacity: a truncation never
    loses units that a single append of the joined text would keep. *)
Theorem Append_twice_fixed b s t1 t2 :
  fixed_capacity s -> addressable s ->
  readable t1 -> addressable t1 -> readable t2 -> addressable t2 ->
  exists s2,
    (s1 <- Append b s t1 ;; Append b s1 t2)%outcome = Returns s2 /\
    iLength s2
    = Z.min (iLength s + iLength t1 + iLength t2) (MaxWritableLength s) /\
    units s2
    = firstn (Z.to_nat (MaxWritableLength s)) (units s ++ units t1 ++ units t2).
Proof.
  intros Hs Hms H1 Hm1 H2 Hm2.
  destruct (Append_fixed b s t1 Hs Hms H1 Hm1) as (s1 & E1 & L1 & U1 & F1 & C1).
  assert (Hms1 : addressable s1).
  { unfold addressable in *. rewrite (Append_storage_len b s t1 s1 Hs E1).
    exact Hms. }
  destruct (Append_fixed b s1 t2 F1 Hms1 H2 Hm2)
    as (s2 & E2 & L2 & U2 & _ & _).
  exists s2. rewrite E1. simpl. split; [exact E2|].
  unfold readable in *.
  split; [rewrite L2, L1, C1; lia|].
  rewrite U2, U1, C1, firstn_firstn_app, app_assoc. reflexivity.
Qed.

Lemma Append_twice_fixed_witness :
  exists s2,
    (s1 <- Append Release (mkMString 1 (TextBufferStorage 4 [65; 0; 0; 0]))
             (Text_of [66; 67] 2) ;;
     Append Release s1 (Text_of [68; 69] 2))%outcome = Returns s2 /\
    units s2
    = firstn 4 (units (mkMString 1 (TextBufferStorage 4 [65; 0; 0; 0]))
                  ++ units (Text_of [66; 67] 2) ++ units (Text_of [68; 69] 2)).
Proof.
  destruct (Append_twice_fixed Release
              (mkMString 1 (TextBufferStorage 4 [65; 0; 0; 0]))
              (Text_of [66; 67] 2) (Text_of [68; 69] 2))
    as (s2 & H1 & _ & H2);
    try (unfold readable, len; simpl; lia);
    try (unfold addressable, len; simpl; lia).
  - unfold fixed_capacity, len. simpl. lia.
  - exists s2. split; [exact H1 | exact H2].
Defined.

(** X9. After [Set] on a fixed-capacity string: if the new text fits, the
    string holds it and compares and tests equal to the source; if it does
    not fit, the string is a proper prefix of the source and [Compare]
    with the source gives -1. *)
Theorem Set_then_compare_fixed b s t :
  fixed_capacity s -> addressable s -> readable t ->
  exists s',
    Set_ b s t = Returns s' /\
    (iLength t <= MaxWritableLength s ->
     units s' = units t /\ Compare s' t = Some 0 /\ op_eq s' t = Some true) /\
    (MaxWritableLength s < iLength t ->
     proper_prefix (units s') (units t) /\ Compare s' t = Some (-1) /\
     op_eq s' t = Some false).
Proof.
  intros Hs Hms Ht.
  destruct (Set_fixed b s t Hs Hms Ht) as (s' & E & L & U & F & C).
  pose proof (fixed_capacity_readable s' F) as Hr'.
  assert (Hms' : addressable s').
  { unfold addressable in *.
    rewrite (Set_storage_len b s t s' Hs ltac:(unfold readable in Ht; lia) E).
    exact Hms. }
  destruct (fixed_capacity_facts s Hs) as (_ & Hl & _).
  exists s'. split; [exact E|].
  rewrite (Compare_units s' t Hr' Ht), (op_eq_units s' t Hr' Ht Hms').
  pose proof (units_length t Ht) as Hlt. unfold len in Hlt.
  split.
  - intros Hfit.
    assert (Hu : units s' = units t).
    { rewrite U. apply firstn_all2. lia. }
    split; [exact Hu|]. split; [apply compare_units_equal; exact Hu|].
    rewrite Hu. f_equal. apply andb_true_intro. split.
    + apply units_eqb_eq. reflexivity.
    + apply Z.eqb_eq. lia.
  - intros Hcut.
    assert (Hp : proper_prefix (units s') (units t)).
    { exists (skipn (Z.to_nat (MaxWritableLength s)) (units t)). split.
      - intros Hnil. apply skipn_all_iff in Hnil. lia.
      - rewrite U. symmetry. apply firstn_skipn. }
    split; [exact Hp|]. split; [apply compare_units_prefix; exact Hp|].
    f_equal. apply andb_false_intro2. apply Z.eqb_neq. lia.
Qed.

Lemma Set_then_compare_fixed_witness :
  exists s',
    Set_ Release (mkMString 0 (TextBufferStorage 2 [0; 0]))
      (Text_of [72; 105; 33] 3) = Returns s' /\
    Compare s' (Text_of [72; 105; 33] 3) = Some (-1).
Proof.
  destruct (Set_then_compare_fixed Release
              (mkMString 0 (TextBufferStorage 2 [0; 0]))
              (Text_of [72; 105; 33] 3)) as (s' & H1 & _ & H2).
  - unfold fixed_capacity, len. simpl. lia.
  - unfold addressable, len. simpl. lia.
  - unfold readable, len. simpl. lia.
  - exists s'. split; [exact H1|].
    destruct H2 as (_ & H2 & _); [vm_compute; reflexivity | exact H2].
Defined.

(** X10. On a fixed-capacity string [Clear] only sets the length to zero,
    as [SetLengthToZero] does: the units stay in the storage, and a resize
    back to the old length gives the old string again. *)
Theorem Clear_keeps_units_fixed b s :
  fixed_capacity s ->
  Clear b s = Returns (SetLengthToZero s) /\
  Data (SetLengthToZero s) = Data s /\
  (s0 <- Clear b s ;; ResizeBuffer b s0 (iLength s))%outcome = Returns s.
Proof.
  intros Hs.
  destruct (fixed_capacity_facts s Hs) as (Hw & Hl & Hc & Hr & _ & _ & Hset).
  assert (E : Clear b s = Returns (SetLengthToZero s)).
  { unfold Clear. rewrite Hw, Hr. simpl.
    replace (Z.min 0 (MaxWritableLength s)) with 0 by lia. reflexivity. }
  split; [exact E|]. split; [reflexivity|].
  rewrite E. simpl.
  destruct (Hset 0 ltac:(lia)) as [Hs0 Hcap0].
  destruct (fixed_capacity_facts _ Hs0) as (_ & _ & _ & Hr0 & _).
  unfold SetLengthToZero. rewrite Hr0, Hcap0.
  replace (Z.min (iLength s) (MaxWritableLength s)) with (iLength s) by lia.
  destruct s as [n st]. reflexivity.
Qed.

Lemma Clear_keeps_units_fixed_witness :
  (s0 <- Clear Release (mkMString 2 (TextBufferStorage 3 [72; 105; 0])) ;;
   ResizeBuffer Release s0 2)%outcome
  = Returns (mkMString 2 (TextBufferStorage 3 [72; 105; 0])).
Proof.
  destruct (Clear_keeps_units_fixed Release
              (mkMString 2 (TextBufferStorage 3 [72; 105; 0])))
    as (_ & _ & H).
  - unfold fixed_capacity, len. simpl. lia.
  - exact H.
Defined.

(** ** TextBuffer from 8-bit text *)

Lemma assign_spec iText index unit :
  0 <= index < len iText ->
  exists iText',
    assign iText index unit = Some iText' /\
    len iText' = len iText /\
    firstn (Z.to_nat (index + 1)) iText'
    = firstn (Z.to_nat index) iText ++ [unit] /\
    forall k, index + 1 <= k ->
              skipn (Z.to_nat k) iText' = skipn (Z.to_nat k) iText.
Proof.
  intros Hi. unfold assign.
  destruct (Z.leb_spec 0 index); [|lia].
  destruct (Z.ltb_spec index (len iText)); [|lia].
  simpl. eexists. split; [reflexivity|].
  set (a := firstn (Z.to_nat index) iText).
  set (c := skipn (Z.to_nat (index + 1)) iText).
  assert (Ha : length a = Z.to_nat index).
  { unfold a. rewrite length_firstn. unfold len in *. lia. }
  split; [|split].
  - unfold len in *. rewrite length_app. simpl length.
    unfold c. rewrite Ha, length_skipn. lia.
  - replace (Z.to_nat (index + 1)) with (length a + 1)%nat by lia.
    rewrite firstn_app_2. reflexivity.
  - intros k Hk.
    replace (Z.to_nat k)
      with (length (a ++ [unit]) + (Z.to_nat k - Z.to_nat (index + 1)))%nat
      by (rewrite length_app; simpl; lia).
    change (a ++ unit :: c) with (a ++ [unit] ++ c).
    rewrite app_assoc, skipn_app.
    rewrite skipn_all2 by lia.
    replace (length (a ++ [unit]) + (Z.to_nat k - Z.to_nat (index + 1))
             - length (a ++ [unit]))%nat
      with (Z.to_nat k - Z.to_nat (index + 1))%nat by lia.
    simpl app. unfold c. rewrite skipn_skipn. f_equal.
    rewrite length_app in *. simpl in *. lia.
Qed.

Lemma TextBuffer_copy_spec aMaxLength rest body :
  Forall (fun c => c <> 0) body -> aMaxLength < 2 ^ 64 ->
  forall iLength iText,
    0 <= iLength <= aMaxLength -> len iText = aMaxLength ->
    exists iText',
      TextBuffer_copy (body ++ 0 :: rest) iLength aMaxLength iText
      = Some (Z.min (iLength + len body) aMaxLength, iText') /\
      len iText' = aMaxLength /\
      firstn (Z.to_nat (Z.min (iLength + len body) aMaxLength)) iText'
      = firstn (Z.to_nat iLength) iText
          ++ map to_uint16 (firstn (Z.to_nat (aMaxLength - iLength)) body).
Proof.
  intros Hb Hmax. change (2 ^ 64) with 18446744073709551616 in Hmax.
  induction Hb as [|c body Hc Hb IH]; intros i iText Hi Hl.
  - exists iText. simpl. split; [|split; [exact Hl|]].
    + f_equal. f_equal. unfold len. simpl. lia.
    + rewrite firstn_nil, app_nil_r. f_equal. unfold len. simpl. lia.
  - simpl app. simpl TextBuffer_copy.
    destruct (Z.eqb_spec c 0); [contradiction|]. simpl negb.
    assert (Hlen : len (c :: body) = len body + 1)
      by (unfold len; simpl length; lia).
    pose proof (len_nonneg body) as Hb0.
    destruct (Z.ltb_spec i aMaxLength) as [Hlt|Hge]; simpl andb; cbv iota.
    + destruct (assign_spec iText i (to_uint16 c) ltac:(lia))
        as (iText1 & -> & Hl1 & Hf1 & _).
      rewrite to_size_t_small
        by (change (2 ^ 64) with 18446744073709551616; lia).
      destruct (IH (i + 1) iText1 ltac:(lia) ltac:(lia))
        as (iText' & E & Hl' & Hf').
      exists iText'.
      replace (Z.min (i + len (c :: body)) aMaxLength)
        with (Z.min (i + 1 + len body) aMaxLength) by lia.
      split; [exact E|]. split; [exact Hl'|].
      rewrite Hf', Hf1, <- app_assoc. f_equal.
      replace (Z.to_nat (aMaxLength - i))
        with (S (Z.to_nat (aMaxLength - (i + 1)))) by lia.
      reflexivity.
    + exists iText.
      replace (Z.min (i + len (c :: body)) aMaxLength) with i by lia.
      split; [reflexivity|]. split; [exact Hl|].
      replace (Z.to_nat (aMaxLength - i)) with 0%nat by lia.
      simpl. rewrite app_nil_r. reflexivity.
Qed.

(** X11. A [TextBuffer] made from null-terminated 8-bit text holds the
    characters before the terminator, each converted to a 16-bit unit, cut
    at the capacity; its length is the smaller of their number and the
    capacity, and the array keeps its size. *)
Theorem TextBuffer_of_text aMaxLength iText body rest :
  Forall (fun c => c <> 0) body ->
  len iText = aMaxLength -> aMaxLength < 2 ^ 64 ->
  exists s,
    TextBuffer_of aMaxLength iText (body ++ 0 :: rest) = Some s /\
    iLength s = Z.min (len body) aMaxLength /\
    units s = map to_uint16 (firstn (Z.to_nat aMaxLength) body) /\
    MaxWritableLength s = aMaxLength /\ fixed_capacity s.
Proof.
  intros Hb Hl Hmax. pose proof (len_nonneg iText) as H0.
  destruct (TextBuffer_copy_spec aMaxLength rest body Hb Hmax 0 iText
              ltac:(lia) Hl) as (iText' & E & Hl' & Hf).
  unfold TextBuffer_of. rewrite E. eexists. split; [reflexivity|].
  simpl Z.add in *. rewrite Z.sub_0_r in Hf. simpl in Hf.
  split; [reflexivity|]. split; [exact Hf|]. split; [reflexivity|].
  unfold fixed_capacity. simpl. pose proof (len_nonneg body). lia.
Qed.

Lemma TextBuffer_of_text_witness :
  exists s,
    TextBuffer_of 3 [0; 0; 0] ([72; 101; 108; 108; 111] ++ 0 :: []) = Some s /\
    iLength s = Z.min (len [72; 101; 108; 108; 111]) 3 /\
    units s = map to_uint16 (firstn (Z.to_nat 3) [72; 101; 108; 108; 111]).
Proof.
  destruct (TextBuffer_of_text 3 [0; 0; 0] [72; 101; 108; 108; 111] [])
    as (s & H1 & H2 & H3 & _).
  - repeat constructor; discriminate.
  - reflexivity.
  - reflexivity.
  - exists s. split; [exact H1|]. split; [exact H2 | exact H3].
Defined.

(** ** FoldingIterator *)

Section FoldingProperties.

Variable Ignore : StringMatchMethod.t -> Z -> bool.
Variable AccentStripped : Z -> Z.
Variable GetLowerCase : Z -> list Z.

(** [Char::GetLowerCase] yields at least one code point. *)
Hypothesis GetLowerCase_nonempty : forall c, GetLowerCase c <> [].

Lemma next_kept_filter m codes :
  match next_kept Ignore m codes with
  | None => filter (fun c => negb (Ignore m c)) codes = []
  | Some (c, rest) =>
      filter (fun c => negb (Ignore m c)) codes
      = c :: filter (fun c => negb (Ignore m c)) rest
  end.
Proof.
  induction codes as [|c codes IH]; simpl; [reflexivity|].
  destruct (Ignore m c); simpl; [exact IH | reflexivity].
Qed.

Lemma skipn_nth_firstn (i n : nat) (v : list Z) :
  (i < n)%nat -> (n <= length v)%nat ->
  skipn i (firstn n v) = nth i v 0 :: skipn (S i) (firstn n v).
Proof.
  revert n v. induction i as [|i IH]; intros n v Hi Hn.
  - destruct n as [|n]; [lia|]. destruct v as [|x v]; [simpl in Hn; lia|].
    reflexivity.
  - destruct n as [|n]; [lia|]. destruct v as [|x v]; [simpl in Hn; lia|].
    simpl in Hn. change (skipn (S i) (firstn (S n) (x :: v)))
      with (skipn i (firstn n v)).
    rewrite (IH n v) by lia. reflexivity.
Qed.

(** One call of [Next] delivers the first pending code, or reports the end
    when none is pending. *)
Lemma Next_pending this :
  variant_in_bounds this ->
  match pending Ignore AccentStripped GetLowerCase this with
  | [] =>
      fst (Next Ignore AccentStripped GetLowerCase this) = (KErrorEndOfData, -1)
  | c :: _ =>
      fst (Next Ignore AccentStripped GetLowerCase this) = (KErrorNone, c)
  end /\
  pending Ignore AccentStripped GetLowerCase (snd (Next Ignore AccentStripped GetLowerCase this)) = tl (pending Ignore AccentStripped GetLowerCase this) /\
  variant_in_bounds (snd (Next Ignore AccentStripped GetLowerCase this)).
Proof.
  intros [Hidx Hlen]. unfold Next, pending.
  destruct (Z.ltb_spec (iCaseVariantIndex this) (iCaseVariantLength this))
    as [Hin|Hout].
  - rewrite (skipn_nth_firstn (Z.to_nat (iCaseVariantIndex this))
               (Z.to_nat (iCaseVariantLength this)) (iCaseVariant this))
      by (unfold len in Hlen; lia).
    simpl. split; [reflexivity|]. split.
    + replace (Z.to_nat (iCaseVariantIndex this + 1))
        with (S (Z.to_nat (iCaseVariantIndex this))) by lia.
      reflexivity.
    + unfold variant_in_bounds. simpl. lia.
  - assert (Hnone : skipn (Z.to_nat (iCaseVariantIndex this))
                      (firstn (Z.to_nat (iCaseVariantLength this))
                         (iCaseVariant this)) = []).
    { apply skipn_all2. rewrite length_firstn. lia. }
    rewrite Hnone. simpl app.
    pose proof (next_kept_filter (iStringMatchMethod this) (iIter this))
      as Hk.
    destruct (next_kept Ignore (iStringMatchMethod this) (iIter this))
      as [[c rest]|].
    + rewrite Hk. simpl flat_map.
      destruct (iFoldCase this) eqn:Hcase.
      * pose proof (GetLowerCase_nonempty
                      (if iFoldAccents this then AccentStripped c else c))
          as Hne.
        destruct (GetLowerCase
                    (if iFoldAccents this then AccentStripped c else c))
          as [|x v] eqn:Hv; [contradiction|].
        assert (Hf : folded_code AccentStripped GetLowerCase
                       (iFoldAccents this) true c = x :: v)
          by (unfold folded_code; exact Hv).
        rewrite Hf.
        cbn [fst snd iIter iStringMatchMethod iFoldAccents iFoldCase
             iCaseVariant iCaseVariantLength iCaseVariantIndex app tl nth].
        split; [reflexivity|]. split.
        -- unfold len. rewrite Nat2Z.id, firstn_all.
           change (Z.to_nat 1) with 1%nat. reflexivity.
        -- unfold variant_in_bounds.
           cbn [iCaseVariant iCaseVariantLength iCaseVariantIndex]. lia.
      * assert (Hf : folded_code AccentStripped GetLowerCase
                       (iFoldAccents this) false c
                     = [if iFoldAccents this then AccentStripped c else c])
          by reflexivity.
        rewrite Hf.
        cbn [fst snd iIter iStringMatchMethod iFoldAccents iFoldCase
             iCaseVariant iCaseVariantLength iCaseVariantIndex app tl].
        split; [reflexivity|]. rewrite Hnone.
        split; [reflexivity|]. unfold variant_in_bounds.
        cbn [iCaseVariant iCaseVariantLength iCaseVariantIndex]. lia.
    + rewrite Hk. simpl. split; [reflexivity|]. rewrite Hnone.
      split; [reflexivity|]. unfold variant_in_bounds. simpl. lia.
Qed.

Lemma delivered_pending fuel :
  forall this,
    variant_in_bounds this ->
    delivered Ignore AccentStripped GetLowerCase fuel this
    = firstn fuel (pending Ignore AccentStripped GetLowerCase this).
Proof.
  induction fuel as [|fuel IH]; intros this Hb; [reflexivity|].
  destruct (Next_pending this Hb) as (Hfst & Hrest & Hb').
  simpl delivered.
  destruct (Next Ignore AccentStripped GetLowerCase this) as [[error aCode] this'] eqn:E. simpl in *.
  destruct (pending Ignore AccentStripped GetLowerCase this) as [|c rest].
  - injection Hfst as -> ->. reflexivity.
  - injection Hfst as -> ->. simpl. f_equal.
    rewrite (IH this' Hb'). rewrite Hrest. reflexivity.
Qed.

Lemma after_Next_pending k :
  forall this,
    variant_in_bounds this ->
    variant_in_bounds (after_Next Ignore AccentStripped GetLowerCase k this) /\
    pending Ignore AccentStripped GetLowerCase (after_Next Ignore AccentStripped GetLowerCase k this)
    = skipn k (pending Ignore AccentStripped GetLowerCase this).
Proof.
  induction k as [|k IH]; intros this Hb; [split; [exact Hb | reflexivity]|].
  destruct (Next_pending this Hb) as (_ & Hrest & Hb').
  simpl after_Next. destruct (IH _ Hb') as [H1 H2].
  split; [exact H1|]. rewrite H2, Hrest.
  destruct (pending Ignore AccentStripped GetLowerCase this); [apply skipn_nil | reflexivity].
Qed.

Lemma FoldingIterator_of_pending aIter m :
  variant_in_bounds (FoldingIterator_of aIter m) /\
  pending Ignore AccentStripped GetLowerCase (FoldingIterator_of aIter m)
  = folded Ignore AccentStripped GetLowerCase m aIter.
Proof.
  split; [unfold variant_in_bounds, len; simpl; lia | reflexivity].
Qed.

(** X12. A [FoldingIterator] made over a sequence of code points delivers,
    call after call, the folded sequence: the code points the method does
    not ignore, each accent-stripped if accents are folded and replaced by
    its lower-case variant (one or more code points) if case is folded.
    Once these are delivered every further call of [Next] reports
    [KErrorEndOfData] with code -1. *)
Theorem FoldingIterator_delivers_folded aIter m fuel k :
  delivered Ignore AccentStripped GetLowerCase fuel (FoldingIterator_of aIter m)
  = firstn fuel (folded Ignore AccentStripped GetLowerCase m aIter) /\
  ((length (folded Ignore AccentStripped GetLowerCase m aIter) <= k)%nat ->
   fst (Next Ignore AccentStripped GetLowerCase (after_Next Ignore AccentStripped GetLowerCase k
                 (FoldingIterator_of aIter m)))
   = (KErrorEndOfData, -1)).
Proof.
  destruct (FoldingIterator_of_pending aIter m) as [Hb Hp].
  split.
  - rewrite delivered_pending by exact Hb. rewrite Hp. reflexivity.
  - intros Hk. destruct (after_Next_pending k _ Hb) as [Hb' Hp'].
    destruct (Next_pending _ Hb') as (Hfst & _).
    rewrite Hp', Hp, skipn_all2 in Hfst by exact Hk. exact Hfst.
Qed.

End FoldingProperties.

Lemma FoldingIterator_delivers_folded_witness :
  delivered (fun _ c => c =? 32) (fun c => c)
    (fun c => if c =? 223 then [115; 115] else [c]) 10
    (FoldingIterator_of [223; 32; 97] (StringMatchMethod.FromFlags 16))
  = [115; 115; 97].
Proof.
  assert (Hne : forall c : Z, (if c =? 223 then [115; 115] else [c]) <> [])
    by (intros c; destruct (c =? 223); discriminate).
  destruct (FoldingIterator_delivers_folded (fun _ c => c =? 32) (fun c => c)
              (fun c => if c =? 223 then [115; 115] else [c]) Hne
              [223; 32; 97] (StringMatchMethod.FromFlags 16) 10 3) as [H _].
  exact H.
Defined.

(** ** Setting, clearing and testing flags *)

Lemma below_64_cases (P : Z -> Prop) :
  (forall n, (n < 64)%nat -> P (Z.of_nat n)) ->
  forall x, 0 <= x < 64 -> P x.
Proof.
  intros H x Hx. rewrite <- (Z2Nat.id x) by lia. apply H. lia.
Qed.

Ltac all_flag_sets n tac :=
  do 64 (destruct n as [|n]; [tac|]); exfalso; lia.

(** X13. On a method whose flags are below 64, [+=] sets the flag it is
    given and no other: afterwards [&] with that flag is true (for every
    flag but [Exact], whose value is 0) and [&] with any other flag is as
    before; and [+=] of a flag that is already set leaves the method as it
    was. *)
Theorem add_assign_sets_one_flag m f g :
  0 <= StringMatchMethod.Flags m < 64 ->
  (f <> Exact ->
   StringMatchMethod.op_and (fst (StringMatchMethod.op_add_assign m f)) f
   = true) /\
  (g <> f ->
   StringMatchMethod.op_and (fst (StringMatchMethod.op_add_assign m f)) g
   = StringMatchMethod.op_and m g) /\
  (StringMatchMethod.op_and m f = true ->
   fst (StringMatchMethod.op_add_assign m f) = m).
Proof.
  destruct m as [x]. unfold StringMatchMethod.Flags. simpl.
  revert x. apply below_64_cases. intros n Hn.
  all_flag_sets n
    ltac:(destruct f, g; vm_compute;
          (split; [|split]); intros H;
          first [reflexivity | discriminate H | (exfalso; apply H; reflexivity)]).
Qed.

Lemma add_assign_sets_one_flag_witness :
  StringMatchMethod.op_and
    (fst (StringMatchMethod.op_add_assign (StringMatchMethod.FromFlags 5)
            Fuzzy)) Fuzzy = true /\
  StringMatchMethod.op_and
    (fst (StringMatchMethod.op_add_assign (StringMatchMethod.FromFlags 5)
            Fuzzy)) FoldCase
  = StringMatchMethod.op_and (StringMatchMethod.FromFlags 5) FoldCase.
Proof.
  destruct (add_assign_sets_one_flag (StringMatchMethod.FromFlags 5)
              Fuzzy FoldCase) as (H1 & H2 & _).
  - vm_compute. split; [discriminate | reflexivity].
  - split; [apply H1 | apply H2]; discriminate.
Defined.

(** X14. On a method whose flags are below 64, [-=] clears the flag it is
    given and no other: afterwards [&] with that flag is false and [&]
    with any other flag is as before; [-=] of a flag that is not set
    leaves the method as it was; and [+=] followed by [-=] of a flag that
    was not set gives the method back. *)
Theorem sub_assign_clears_one_flag m f g :
  0 <= StringMatchMethod.Flags m < 64 ->
  StringMatchMethod.op_and (fst (StringMatchMethod.op_sub_assign m f)) f
  = false /\
  (g <> f ->
   StringMatchMethod.op_and (fst (StringMatchMethod.op_sub_assign m f)) g
   = StringMatchMethod.op_and m g) /\
  (StringMatchMethod.op_and m f = false ->
   fst (StringMatchMethod.op_sub_assign m f) = m /\
   fst (StringMatchMethod.op_sub_assign
          (fst (StringMatchMethod.op_add_assign m f)) f) = m).
Proof.
  destruct m as [x]. unfold StringMatchMethod.Flags. simpl.
  revert x. apply below_64_cases. intros n Hn.
  all_flag_sets n
    ltac:(destruct f, g; vm_compute;
          (split; [|split]); try intros H;
          first [reflexivity | discriminate H
                | (exfalso; apply H; reflexivity)
                | (split; reflexivity)]).
Qed.

Lemma sub_assign_clears_one_flag_witness :
  StringMatchMethod.op_and
    (fst (StringMatchMethod.op_sub_assign (StringMatchMethod.FromFlags 5)
            FoldAccents)) FoldAccents = false /\
  StringMatchMethod.op_and
    (fst (StringMatchMethod.op_sub_assign (StringMatchMethod.FromFlags 5)
            FoldAccents)) Prefix
  = StringMatchMethod.op_and (StringMatchMethod.FromFlags 5) Prefix.
Proof.
  destruct (sub_assign_clears_one_flag (StringMatchMethod.FromFlags 5)
              FoldAccents Prefix) as (H1 & H2 & _).
  - vm_compute. split; [discriminate | reflexivity].
  - split; [exact H1 | apply H2; discriminate].
Defined.

(** X15. [FromFlags] and [Flags] are inverse on the methods a program can
    build: [FromFlags(m.Flags())] is [m]; and two raw patterns give equal
    methods exactly when they agree modulo 64. *)
Theorem FromFlags_Flags_round_trip m a b :
  StringMatchMethod.constructible m ->
  StringMatchMethod.FromFlags (StringMatchMethod.Flags m) = m /\
  (StringMatchMethod.op_eq (StringMatchMethod.FromFlags a)
     (StringMatchMethod.FromFlags b) = true <-> a mod 64 = b mod 64).
Proof.
  intros Hm. apply constructible_below_64 in Hm. split.
  - destruct m as [x]. unfold StringMatchMethod.Flags in *. simpl in *.
    unfold StringMatchMethod.FromFlags, StringMatchMethod.of_uint.
    rewrite below_64_land by exact Hm.
    rewrite to_uint16_small by lia. reflexivity.
  - unfold StringMatchMethod.op_eq.
    pose proof (FromFlags_flags a) as Ha. pose proof (FromFlags_flags b) as Hb.
    unfold StringMatchMethod.Flags in Ha, Hb. rewrite Ha, Hb.
    apply Z.eqb_eq.
Qed.

Lemma FromFlags_Flags_round_trip_witness :
  StringMatchMethod.FromFlags
    (StringMatchMethod.Flags
       (fst (StringMatchMethod.op_add_assign StringMatchMethod.default Fuzzy)))
  = fst (StringMatchMethod.op_add_assign StringMatchMethod.default Fuzzy).
Proof.
  destruct (FromFlags_Flags_round_trip
              (fst (StringMatchMethod.op_add_assign StringMatchMethod.default
                      Fuzzy)) 0 0) as [H _].
  - apply StringMatchMethod.C_add, StringMatchMethod.C_default.
  - exact H.
Defined.

(** X16. [MayIgnoreCharacters] is true exactly when [IgnoreSymbols] or
    [IgnoreWhitespace] is set; and [&] with [Exact] is false for every
    method, the exact one included. *)
Theorem MayIgnoreCharacters_is_either_flag m :
  StringMatchMethod.MayIgnoreCharacters m
  = StringMatchMethod.op_and m IgnoreSymbols
    || StringMatchMethod.op_and m IgnoreWhitespace /\
  StringMatchMethod.op_and m Exact = false.
Proof.
  unfold StringMatchMethod.MayIgnoreCharacters, StringMatchMethod.op_and.
  destruct m as [x]. simpl StringMatchMethod.m_flags.
  change (to_uint16 (flag_value IgnoreSymbols)) with 2.
  change (to_uint16 (flag_value IgnoreWhitespace)) with 32.
  change (to_uint16 (flag_value Exact)) with 0.
  split.
  - rewrite Z.land_lor_distr_r.
    destruct (Z.eqb_spec (Z.lor (Z.land x 2) (Z.land x 32)) 0) as [E|E].
    + apply Z.lor_eq_0_iff in E. destruct E as [-> ->]. reflexivity.
    + destruct (Z.eqb_spec (Z.land x 2) 0) as [E1|E1];
        destruct (Z.eqb_spec (Z.land x 32) 0) as [E2|E2]; try reflexivity.
      exfalso. apply E. rewrite E1, E2. reflexivity.
  - rewrite Z.land_0_r. reflexivity.
Qed.

(** ** InputStream: cached reads *)

Lemma nth_error_skipn_cons (l : list Z) (i : nat) :
  (i < length l)%nat ->
  exists b, nth_error l i = Some b /\ skipn i l = b :: skipn (S i) l.
Proof.
  revert l. induction i as [|i IH]; intros [|x l] Hi; simpl in Hi; try lia.
  - exists x. split; reflexivity.
  - destruct (IH l ltac:(lia)) as (b & H1 & H2). exists b.
    split; [exact H1 | exact H2].
Qed.

Lemma lor_low_byte X b :
  0 <= b < 256 -> Z.lor (X * 256) b = X * 256 + b.
Proof.
  intros Hb.
  assert (Hl : Z.land (X * 256) b = 0).
  { apply Z.bits_inj'. intros n Hn. rewrite Z.land_spec, Z.bits_0.
    destruct (Z.lt_ge_cases n 8) as [Hlt|Hge].
    - change 256 with (2 ^ 8). rewrite Z.mul_pow2_bits_low by lia.
      reflexivity.
    - rewrite (Z.bits_above_log2 b n); [apply andb_false_r | lia|].
      destruct (Z.eq_dec b 0) as [->|Hnz]; [simpl; lia|].
      apply Z.log2_lt_pow2; [lia|].
      apply Z.lt_le_trans with (2 ^ 8); [simpl; lia|].
      apply Z.pow_le_mono_r; lia. }
  rewrite (Z.add_nocarry_lxor _ _ Hl), (Z.lxor_lor _ _ Hl). reflexivity.
Qed.

Lemma or_step H b k :
  0 <= b < 256 -> 0 <= k <= 6 ->
  Z.lor (H * 2 ^ (8 * (k + 1))) (to_uint64 (Z.shiftl b (8 * k)))
  = (H * 256 + b) * 2 ^ (8 * k).
Proof.
  intros Hb Hk. unfold to_uint64.
  assert (Hpow : 0 < 2 ^ (8 * k)) by (apply Z.pow_pos_nonneg; lia).
  assert (Hle : 2 ^ (8 * k) <= 2 ^ 48) by (apply Z.pow_le_mono_r; lia).
  rewrite Z.shiftl_mul_pow2 by lia.
  rewrite Z.mod_small
    by (change (2 ^ 64) with (2 ^ 16 * 2 ^ 48);
        change (2 ^ 48) with 281474976710656 in *;
        change (2 ^ 16) with 65536; nia).
  replace (8 * (k + 1)) with (8 + 8 * k) by lia.
  rewrite Z.pow_add_r by lia. change (2 ^ 8) with 256.
  rewrite Z.mul_assoc, <- !Z.shiftl_mul_pow2 by lia.
  rewrite <- Z.shiftl_lor, lor_low_byte by exact Hb. reflexivity.
Qed.

(** Reading through [m_data] is reading in the block. *)
Lemma data_at_block this index :
  data_at this index
  = if 0 <=? m_data this + index
    then nth_error (block this) (Z.to_nat (m_data this + index))
    else None.
Proof.
  unfold data_at, block. destruct (m_data_start this) as [bytes|];
    [reflexivity|].
  destruct (0 <=? m_data this + index); [|reflexivity].
  destruct (Z.to_nat (m_data this + index)); reflexivity.
Qed.

Lemma block_advance this k : block (advance this k) = block this.
Proof. reflexivity. Qed.

Lemma or_bytes_spec st n :
  (n <= 7)%nat ->
  Z.of_nat n <= m_data st <= len (block st) ->
  Forall (fun byte => 0 <= byte < 256) (block st) ->
  forall H,
    or_bytes st n (H * 2 ^ (8 * Z.of_nat n))
    = Some (fold_left (fun acc byte => acc * 256 + byte)
              (firstn n (skipn (Z.to_nat (m_data st) - n) (block st)))
              H).
Proof.
  unfold len. intros Hn Hd Hbytes. induction n as [|n IH]; intros H.
  - simpl. f_equal. lia.
  - cbn [or_bytes]. rewrite data_at_block.
    destruct (Z.leb_spec 0 (m_data st + - Z.of_nat (S n))); [|lia].
    destruct (nth_error_skipn_cons (block st)
                (Z.to_nat (m_data st + - Z.of_nat (S n))) ltac:(lia))
      as (b & Hb & Hs).
    rewrite Hb.
    assert (Hbyte : 0 <= b < 256).
    { apply nth_error_In in Hb. rewrite Forall_forall in Hbytes.
      apply Hbytes. exact Hb. }
    replace (Z.of_nat (S n)) with (Z.of_nat n + 1) by lia.
    rewrite or_step by lia.
    rewrite IH by lia.
    f_equal.
    replace (Z.to_nat (m_data st) - S n)%nat
      with (Z.to_nat (m_data st + - (Z.of_nat n + 1))) by lia.
    replace (Z.to_nat (m_data st + - Z.of_nat (S n)))
      with (Z.to_nat (m_data st + - (Z.of_nat n + 1))) in Hs by lia.
    rewrite Hs. cbn [firstn fold_left].
    replace (S (Z.to_nat (m_data st + - (Z.of_nat n + 1))))
      with (Z.to_nat (m_data st) - n)%nat by lia.
    reflexivity.
Qed.

Lemma big_endian_bound bytes :
  Forall (fun byte => 0 <= byte < 256) bytes ->
  forall H, 0 <= H ->
    0 <= fold_left (fun acc byte => acc * 256 + byte) bytes H
      < (H + 1) * 256 ^ Z.of_nat (length bytes).
Proof.
  induction 1 as [|b bytes Hb _ IH]; intros H HH.
  - simpl. lia.
  - cbn [fold_left length].
    specialize (IH (H * 256 + b) ltac:(lia)).
    replace (Z.of_nat (S (length bytes))) with (1 + Z.of_nat (length bytes))
      by lia.
    rewrite Z.pow_add_r by lia.
    assert (0 < 256 ^ Z.of_nat (length bytes))
      by (apply Z.pow_pos_nonneg; lia).
    change (256 ^ 1) with 256. nia.
Qed.

Lemma Forall_firstn_skipn (P : Z -> Prop) (n : nat) (l : list Z) :
  Forall P l -> Forall P (firstn n l) /\ Forall P (skipn n l).
Proof.
  intros H. rewrite <- (firstn_skipn n l) in H.
  apply Forall_app in H. exact H.
Qed.

Lemma cached_bytes this :
  cache_in_block this -> Forall (fun byte => 0 <= byte < 256) (cached this).
Proof.
  intros (_ & _ & _ & Hb). unfold cached.
  apply Forall_firstn_skipn, Forall_firstn_skipn. exact Hb.
Qed.

Lemma advance_cache this k :
  cache_in_block this -> 0 <= k <= m_data_bytes this ->
  cache_in_block (advance this k) /\
  cached (advance this k) = skipn (Z.to_nat k) (cached this) /\
  Position (advance this k) = Position this + k /\
  FilePosBytes (advance this k) = FilePosBytes this.
Proof.
  intros (H1 & H2 & H3 & H4) Hk.
  split; [unfold cache_in_block; rewrite block_advance;
          cbn [advance m_data m_data_bytes];
          repeat split; try lia; exact H4|].
  split; [|split; [unfold Position; simpl; lia | reflexivity]].
  unfold cached. rewrite block_advance. cbn [advance m_data m_data_bytes].
  rewrite skipn_firstn_comm, skipn_skipn.
  f_equal; [lia | f_equal; lia].
Qed.

(** The value the wide readers compute once [k] bytes are cached. *)
Lemma wide_read_value this k :
  cache_in_block this -> (k <= 7)%nat -> Z.of_nat k <= m_data_bytes this ->
  or_bytes (advance this (Z.of_nat k)) k 0
  = Some (big_endian (firstn k (cached this))) /\
  to_uint64 (big_endian (firstn k (cached this)))
  = big_endian (firstn k (cached this)) /\
  0 <= big_endian (firstn k (cached this)) < 2 ^ (8 * Z.of_nat k).
Proof.
  intros Hc Hk Hb. pose proof Hc as (H1 & H2 & H3 & H4).
  assert (Hlen : length (firstn k (cached this)) = k).
  { unfold cached. rewrite firstn_firstn, length_firstn, length_skipn.
    unfold len in H3. lia. }
  assert (Hrange : 0 <= big_endian (firstn k (cached this))
                   < 2 ^ (8 * Z.of_nat k)).
  { pose proof (big_endian_bound (firstn k (cached this))) as Hbd.
    rewrite Hlen in Hbd. unfold big_endian.
    rewrite Z.pow_mul_r by lia. change (2 ^ 8) with 256.
    specialize (Hbd (proj1 (Forall_firstn_skipn _ k _ (cached_bytes this Hc)))
                     0 ltac:(lia)).
    lia. }
  split; [|split; [|exact Hrange]].
  - pose proof (or_bytes_spec (advance this (Z.of_nat k)) k Hk) as Hspec.
    rewrite block_advance in Hspec. cbn [advance m_data] in Hspec.
    specialize (Hspec ltac:(lia) H4 0). rewrite Z.mul_0_l in Hspec.
    rewrite Hspec. unfold big_endian, cached. rewrite firstn_firstn.
    replace (Z.to_nat (m_data this + Z.of_nat k) - k)%nat
      with (Z.to_nat (m_data this)) by lia.
    replace (Nat.min k (Z.to_nat (m_data_bytes this))) with k by lia.
    reflexivity.
  - unfold to_uint64. apply Z.mod_small.
    assert (2 ^ (8 * Z.of_nat k) <= 2 ^ 64)
      by (apply Z.pow_le_mono_r; lia).
    lia.
Qed.

Lemma wide_read this k result :
  cache_in_block this -> (k <= 7)%nat -> Z.of_nat k <= m_data_bytes this ->
  result
  = match or_bytes (advance this (Z.of_nat k)) k 0 with
    | Some value => Returns (to_uint64 value, advance this (Z.of_nat k))
    | None => Undefined
    end ->
  read_big_endian k this result.
Proof.
  intros Hc Hk Hb ->.
  destruct (wide_read_value this k Hc Hk Hb) as (-> & -> & Hrange).
  destruct (advance_cache this (Z.of_nat k) Hc ltac:(lia))
    as (H1 & H2 & H3 & _).
  rewrite Nat2Z.id in H2. unfold read_big_endian.
  split; [reflexivity|]. split; [exact Hrange|]. split; [exact H2|].
  split; [exact H3 | exact H1].
Qed.

Lemma wide_reads_cached h40 h48 h56 this :
  cache_in_block this ->
  (5 <= m_data_bytes this -> read_big_endian 5 this (ReadUint40 h40 this)) /\
  (6 <= m_data_bytes this -> read_big_endian 6 this (ReadUint48 h48 this)) /\
  (7 <= m_data_bytes this -> read_big_endian 7 this (ReadUint56 h56 this)).
Proof.
  intros Hc. split; [|split]; intros Hb.
  - apply wide_read; [exact Hc | lia | simpl; lia|].
    unfold ReadUint40. destruct (Z.geb_spec (m_data_bytes this) 5); [|lia].
    reflexivity.
  - apply wide_read; [exact Hc | lia | simpl; lia|].
    unfold ReadUint48. destruct (Z.geb_spec (m_data_bytes this) 6); [|lia].
    reflexivity.
  - apply wide_read; [exact Hc | lia | simpl; lia|].
    unfold ReadUint56. destruct (Z.geb_spec (m_data_bytes this) 7); [|lia].
    reflexivity.
Qed.

(** X17. When enough bytes are cached, [ReadUint40], [ReadUint48] and
    [ReadUint56] return the next 5, 6 and 7 bytes read as one big-endian
    number, which is below 2^40, 2^48 and 2^56; they consume exactly those
    bytes, so [Position] grows by 5, 6 and 7, and the cache stays inside
    its block. *)
Theorem wide_reads_big_endian h40 h48 h56 this :
  cache_in_block this ->
  (5 <= m_data_bytes this -> read_big_endian 5 this (ReadUint40 h40 this)) /\
  (6 <= m_data_bytes this -> read_big_endian 6 this (ReadUint48 h48 this)) /\
  (7 <= m_data_bytes this -> read_big_endian 7 this (ReadUint56 h56 this)).
Proof. apply wide_reads_cached. Qed.

Lemma wide_reads_big_endian_witness :
  ReadUint40 (fun _ => Undefined)
    (mkInputStream (Some [9; 1; 2; 3; 4; 5; 6]) 1 6 100 4)
  = Returns (big_endian [1; 2; 3; 4; 5],
             mkInputStream (Some [9; 1; 2; 3; 4; 5; 6]) 6 1 100 4).
Proof.
  destruct (wide_reads_big_endian (fun _ => Undefined) (fun _ => Undefined)
              (fun _ => Undefined)
              (mkInputStream (Some [9; 1; 2; 3; 4; 5; 6]) 1 6 100 4)) as (H & _).
  - unfold cache_in_block, len. simpl.
    repeat split; try lia. repeat constructor; lia.
  - destruct H as (H & _); [simpl; lia | exact H].
Defined.

Lemma ReadUint8_cached h8 this :
  cache_in_block this -> 1 <= m_data_bytes this ->
  exists byte,
    ReadUint8 h8 this = Returns (byte, advance this 1) /\
    cached this = byte :: cached (advance this 1) /\ 0 <= byte < 256.
Proof.
  intros Hc Hb. pose proof Hc as (H1 & H2 & H3 & H4). unfold len in H3.
  unfold ReadUint8. destruct (Z.geb_spec (m_data_bytes this) 1); [|lia].
  rewrite data_at_block, Z.add_0_r.
  destruct (Z.leb_spec 0 (m_data this)); [|lia].
  destruct (nth_error_skipn_cons (block this)
              (Z.to_nat (m_data this)) ltac:(lia)) as (b & Hb1 & Hb2).
  rewrite Hb1. exists b. split; [reflexivity|].
  split.
  - unfold cached. rewrite block_advance. cbn [advance m_data m_data_bytes].
    rewrite Hb2.
    replace (Z.to_nat (m_data_bytes this))
      with (S (Z.to_nat (m_data_bytes this - 1))) by lia.
    replace (Z.to_nat (m_data this + 1)) with (S (Z.to_nat (m_data this)))
      by lia.
    reflexivity.
  - apply nth_error_In in Hb1. rewrite Forall_forall in H4. auto.
Qed.

Lemma fold_left_bytes_from bytes H :
  fold_left (fun acc byte => acc * 256 + byte) bytes H
  = H * 256 ^ Z.of_nat (length bytes) + big_endian bytes.
Proof.
  unfold big_endian. revert H.
  induction bytes as [|b bytes IH]; intros H; [simpl; lia|].
  cbn [fold_left length]. rewrite (IH (H * 256 + b)), (IH (0 * 256 + b)).
  replace (Z.of_nat (S (length bytes))) with (1 + Z.of_nat (length bytes))
    by lia.
  rewrite Z.pow_add_r by lia. change (256 ^ 1) with 256. ring.
Qed.

Lemma advance_advance this a b :
  advance (advance this a) b = advance this (a + b).
Proof. unfold advance. simpl. f_equal; lia. Qed.

Lemma byte_then_wide this k h8 (reader : InputStream -> outcome (Z * InputStream)) :
  cache_in_block this -> Z.of_nat (S k) <= m_data_bytes this ->
  (forall s, cache_in_block s -> Z.of_nat k <= m_data_bytes s ->
             read_big_endian k s (reader s)) ->
  (r8 <- ReadUint8 h8 this ;;
   r <- reader (snd r8) ;;
   Returns (fst r8 * 2 ^ (8 * Z.of_nat k) + fst r, snd r))%outcome
  = Returns (big_endian (firstn (S k) (cached this)),
             advance this (Z.of_nat (S k))).
Proof.
  intros Hc Hb Hreader.
  destruct (ReadUint8_cached h8 this Hc ltac:(lia)) as (b & -> & Hcons & _).
  destruct (advance_cache this 1 Hc ltac:(lia)) as (Hc1 & _).
  cbn [bind fst snd].
  destruct (Hreader (advance this 1) Hc1 ltac:(simpl; lia)) as (-> & _).
  cbn [bind fst snd]. rewrite advance_advance. f_equal. f_equal.
  - rewrite Hcons. cbn [firstn]. unfold big_endian at 2. cbn [fold_left].
    rewrite fold_left_bytes_from.
    assert (Hlen : length (firstn k (cached (advance this 1))) = k).
    { destruct Hc1 as (G1 & G2 & G3 & _). unfold cached.
      rewrite firstn_firstn, length_firstn, length_skipn.
      unfold len in G3. simpl in *. lia. }
    rewrite Hlen, Z.pow_mul_r by lia. change (2 ^ 8) with 256. ring.
  - f_equal. lia.
Qed.

(** X18. With the bytes cached, reading a 48-bit number is reading one
    byte and then a 40-bit number, joined as [byte * 2^40 + number]; and
    reading a 56-bit number is reading one byte and then a 48-bit number,
    joined as [byte * 2^48 + number].  The stream ends in the same state
    either way. *)
Theorem wide_reads_compose h8 h40 h48 h56 this :
  cache_in_block this ->
  (6 <= m_data_bytes this ->
   (r8 <- ReadUint8 h8 this ;;
    r <- ReadUint40 h40 (snd r8) ;;
    Returns (fst r8 * 2 ^ 40 + fst r, snd r))%outcome
   = ReadUint48 h48 this) /\
  (7 <= m_data_bytes this ->
   (r8 <- ReadUint8 h8 this ;;
    r <- ReadUint48 h48 (snd r8) ;;
    Returns (fst r8 * 2 ^ 48 + fst r, snd r))%outcome
   = ReadUint56 h56 this).
Proof.
  intros Hc. split; intros Hb.
  - destruct (wide_reads_cached h40 h48 h56 this Hc) as (_ & H48 & _).
    destruct (H48 Hb) as (-> & _).
    apply (byte_then_wide this 5 h8 (ReadUint40 h40) Hc);
      [simpl; lia|].
    intros s Hs Hbs. apply (wide_reads_cached h40 h48 h56 s Hs).
    simpl in Hbs. lia.
  - destruct (wide_reads_cached h40 h48 h56 this Hc) as (_ & _ & H56).
    destruct (H56 Hb) as (-> & _).
    apply (byte_then_wide this 6 h8 (ReadUint48 h48) Hc);
      [simpl; lia|].
    intros s Hs Hbs. apply (wide_reads_cached h40 h48 h56 s Hs).
    simpl in Hbs. lia.
Qed.

Lemma wide_reads_compose_witness :
  (r8 <- ReadUint8 (fun _ => Undefined)
           (mkInputStream (Some [9; 1; 2; 3; 4; 5; 6]) 1 6 100 4) ;;
   r <- ReadUint40 (fun _ => Undefined) (snd r8) ;;
   Returns (fst r8 * 2 ^ 40 + fst r, snd r))%outcome
  = ReadUint48 (fun _ => Undefined)
      (mkInputStream (Some [9; 1; 2; 3; 4; 5; 6]) 1 6 100 4).
Proof.
  destruct (wide_reads_compose (fun _ => Undefined) (fun _ => Undefined)
              (fun _ => Undefined) (fun _ => Undefined)
              (mkInputStream (Some [9; 1; 2; 3; 4; 5; 6]) 1 6 100 4)) as (H & _).
  - unfold cache_in_block, len. simpl.
    repeat split; try lia. repeat constructor; lia.
  - apply H. simpl. lia.
Defined.

Lemma Read_returns this a :
  cache_in_block this -> 0 <= a <= m_data_bytes this ->
  Read this a
  = Returns (option_map (skipn (Z.to_nat (m_data this))) (m_data_start this),
             advance this a).
Proof.
  intros (H1 & H2 & H3 & _) Ha. unfold Read, block, len in *.
  destruct (Z.geb_spec (m_data_bytes this) a); [|lia].
  destruct (m_data_start this) as [bytes|]; simpl in *.
  - destruct (Z.leb_spec 0 (m_data this)); [|lia].
    destruct (Z.leb_spec 0 a); [|lia].
    destruct (Z.leb_spec (m_data this + a) (Z.of_nat (length bytes))); [|lia].
    reflexivity.
  - destruct (Z.eqb_spec (m_data this) 0); [|lia].
    destruct (Z.eqb_spec a 0); [|lia].
    reflexivity.
Qed.

(** X19. [Read(aBytes)] returns null and leaves the stream untouched when
    fewer than [aBytes] bytes are cached.  Otherwise it returns the old
    [m_data] and moves past [aBytes] bytes: the pointer is null exactly
    when no block has been read, which leaves only a read of 0 bytes, and
    a pointer that is not null points at the next [aBytes] cached bytes.
    Two reads in a row consume what one read of the sum consumes: the
    second pointer is the first moved on by the first count, and the
    stream ends in the same state. *)
Theorem Read_cached_bytes this a b :
  cache_in_block this -> 0 <= a -> 0 <= b ->
  (m_data_bytes this < a -> Read this a = Returns (None, this)) /\
  (a <= m_data_bytes this ->
   exists pointer,
     Read this a = Returns (pointer, advance this a) /\
     (pointer = None <-> m_data_start this = None) /\
     (pointer = None -> a = 0) /\
     (forall bytes, pointer = Some bytes ->
        firstn (Z.to_nat a) bytes = firstn (Z.to_nat a) (cached this)) /\
     Position (advance this a) = Position this + a /\
     cached (advance this a) = skipn (Z.to_nat a) (cached this) /\
     (a + b <= m_data_bytes this ->
      Read (advance this a) b
      = Returns (option_map (skipn (Z.to_nat a)) pointer,
                 advance this (a + b)) /\
      Read this (a + b) = Returns (pointer, advance this (a + b)))).
Proof.
  intros Hc Ha Hb. pose proof Hc as (H1 & H2 & H3 & H4). split.
  - intros Hlt. unfold Read.
    destruct (Z.geb_spec (m_data_bytes this) a); [lia | reflexivity].
  - intros Hle.
    destruct (advance_cache this a Hc ltac:(lia)) as (Hc' & Hcached & Hpos & _).
    exists (option_map (skipn (Z.to_nat (m_data this))) (m_data_start this)).
    split; [apply Read_returns; [exact Hc | lia]|].
    split; [destruct (m_data_start this); simpl; split; congruence|].
    split.
    { unfold block, len in H3.
      destruct (m_data_start this); simpl in *; [discriminate | lia]. }
    split.
    { intros bytes. unfold cached, block.
      destruct (m_data_start this) as [l|]; simpl; [|discriminate].
      intros E; injection E as <-.
      rewrite firstn_firstn. f_equal. lia. }
    split; [exact Hpos|]. split; [exact Hcached|].
    intros Hsum. split.
    + rewrite (Read_returns (advance this a) b Hc')
        by (cbn [advance m_data_bytes]; lia).
      rewrite advance_advance. f_equal. f_equal.
      cbn [advance m_data m_data_start].
      destruct (m_data_start this) as [l|]; simpl; [|reflexivity].
      rewrite skipn_skipn. f_equal. f_equal. lia.
    + apply Read_returns; [exact Hc | lia].
Qed.

Lemma Read_cached_bytes_witness :
  (exists pointer,
    Read (mkInputStream (Some [9; 1; 2; 3; 4; 5; 6]) 1 6 100 4) 2
    = Returns (Some pointer,
               advance (mkInputStream (Some [9; 1; 2; 3; 4; 5; 6]) 1 6 100 4) 2)
    /\ firstn (Z.to_nat 2) pointer
       = firstn (Z.to_nat 2)
           (cached (mkInputStream (Some [9; 1; 2; 3; 4; 5; 6]) 1 6 100 4))) /\
  Read InputStream_new 0 = Returns (None, advance InputStream_new 0) /\
  Read InputStream_new 1 = Returns (None, InputStream_new).
Proof.
  split; [|split].
  - destruct (Read_cached_bytes
                (mkInputStream (Some [9; 1; 2; 3; 4; 5; 6]) 1 6 100 4) 2 3)
      as (_ & H).
    + unfold cache_in_block, block, len. simpl.
      repeat split; try lia. repeat constructor; lia.
    + lia.
    + lia.
    + destruct H as (p & E1 & E2 & _ & E4 & _); [simpl; lia|].
      destruct p as [pointer|];
        [|destruct E2 as [E2 _]; specialize (E2 eq_refl); discriminate].
      exists pointer. split; [exact E1 | exact (E4 pointer eq_refl)].
  - destruct (Read_cached_bytes InputStream_new 0 0) as (_ & H).
    + unfold cache_in_block, block, len. simpl.
      repeat split; try lia. constructor.
    + lia.
    + lia.
    + destruct H as (p & E1 & E2 & _); [simpl; lia|].
      destruct E2 as [_ E2]. rewrite (E2 eq_refl) in E1. exact E1.
  - destruct (Read_cached_bytes InputStream_new 1 0) as (H & _).
    + unfold cache_in_block, block, len. simpl.
      repeat split; try lia. constructor.
    + lia.
    + lia.
    + apply H. simpl. lia.
Defined.

Lemma SetFilePosBytes_cases this aBytes :
  (aBytes = 4 \/ aBytes = 5 ->
   SetFilePosBytes this aBytes
   = Returns (mkInputStream (m_data_start this) (m_data this)
                (m_data_bytes this) (m_data_position this) aBytes)) /\
  (aBytes <> 4 -> aBytes <> 5 ->
   SetFilePosBytes this aBytes = Throws KErrorInvalidArgument).
Proof.
  unfold SetFilePosBytes.
  destruct (Z.eqb_spec aBytes 4), (Z.eqb_spec aBytes 5); simpl;
    split; intros; try reflexivity; lia.
Qed.

(** X20. [SetFilePosBytes] accepts 4 and 5 only: with any other argument
    it throws [KErrorInvalidArgument]; with 4 or 5 it changes the stored
    width and nothing else.  So from a stream whose width is 4 or 5, such
    as a new one, any series of calls, failed ones included, leaves
    [FilePosBytes] at 4 or 5, and the position and cache where they
    were. *)
Theorem FilePosBytes_is_4_or_5 this aBytes requests :
  FilePosBytes this = 4 \/ FilePosBytes this = 5 ->
  FilePosBytes InputStream_new = 4 /\
  (SetFilePosBytes this aBytes = Throws KErrorInvalidArgument <->
   aBytes <> 4 /\ aBytes <> 5) /\
  (forall this', SetFilePosBytes this aBytes = Returns this' ->
                 FilePosBytes this' = aBytes /\
                 Position this' = Position this /\
                 cached this' = cached this) /\
  (FilePosBytes (SetFilePosBytes_all this requests) = 4 \/
   FilePosBytes (SetFilePosBytes_all this requests) = 5) /\
  Position (SetFilePosBytes_all this requests) = Position this /\
  cached (SetFilePosBytes_all this requests) = cached this.
Proof.
  intros Hw. split; [reflexivity|].
  destruct (SetFilePosBytes_cases this aBytes) as [Hok Hbad].
  split; [|split].
  - split.
    + intros H. destruct (Z.eq_dec aBytes 4) as [E|E];
        [rewrite Hok in H by auto; discriminate H|].
      destruct (Z.eq_dec aBytes 5) as [E'|E'];
        [rewrite Hok in H by auto; discriminate H|]. auto.
    + intros [H4 H5]. apply Hbad; assumption.
  - intros this' H.
    destruct (Z.eq_dec aBytes 4) as [E|E];
      [rewrite Hok in H by auto; injection H as <-; auto|].
    destruct (Z.eq_dec aBytes 5) as [E'|E'];
      [rewrite Hok in H by auto; injection H as <-; auto|].
    rewrite Hbad in H by assumption. discriminate H.
  - clear aBytes Hok Hbad. revert this Hw.
    induction requests as [|n requests IH]; intros this Hw;
      [simpl; auto|].
    cbn [SetFilePosBytes_all].
    destruct (SetFilePosBytes_cases this n) as [Hok Hbad].
    destruct (Z.eq_dec n 4) as [E|E].
    { rewrite Hok by auto.
      destruct (IH (mkInputStream (m_data_start this) (m_data this)
                      (m_data_bytes this) (m_data_position this) n))
        as (F1 & F2 & F3); [simpl; auto|].
      split; [exact F1|]. split; [exact F2 | exact F3]. }
    destruct (Z.eq_dec n 5) as [E'|E'].
    { rewrite Hok by auto.
      destruct (IH (mkInputStream (m_data_start this) (m_data this)
                      (m_data_bytes this) (m_data_position this) n))
        as (F1 & F2 & F3); [simpl; auto|].
      split; [exact F1|]. split; [exact F2 | exact F3]. }
    rewrite Hbad by assumption. apply IH. exact Hw.
Qed.

Lemma FilePosBytes_is_4_or_5_witness :
  FilePosBytes (SetFilePosBytes_all InputStream_new [5; 7; 4; 0; 5]) = 4 \/
  FilePosBytes (SetFilePosBytes_all InputStream_new [5; 7; 4; 0; 5]) = 5.
Proof.
  destruct (FilePosBytes_is_4_or_5 InputStream_new 7 [5; 7; 4; 0; 5])
    as (_ & _ & _ & H & _).
  - left. reflexivity.
  - exact H.
Defined.

(** X21. With 4 or 5 bytes per file position and enough bytes cached,
    [ReadFilePosWithDegreeSquare] reads two bytes more than a file position
    has: it returns the next [FilePosBytes + 2] bytes as a big-endian
    number and moves [Position] on by [FilePosBytes + 2]. *)
Theorem ReadFilePosWithDegreeSquare_width h48 h56 this :
  cache_in_block this ->
  FilePosBytes this = 4 \/ FilePosBytes this = 5 ->
  FilePosBytes this + 2 <= m_data_bytes this ->
  read_big_endian (Z.to_nat (FilePosBytes this + 2)) this
    (ReadFilePosWithDegreeSquare h48 h56 this).
Proof.
  intros Hc Hw Hb. unfold ReadFilePosWithDegreeSquare, FilePosBytes in *.
  destruct (wide_reads_cached h56 h48 h56 this Hc) as (_ & H48 & H56).
  destruct Hw as [E|E]; rewrite E in *.
  - change (4 =? 4) with true. cbv iota. apply H48. lia.
  - change (5 =? 4) with false. cbv iota. apply H56. lia.
Qed.

Lemma ReadFilePosWithDegreeSquare_width_witness :
  read_big_endian 7 (mkInputStream (Some [9; 1; 2; 3; 4; 5; 6; 7]) 1 7 100 5)
    (ReadFilePosWithDegreeSquare (fun _ => Undefined) (fun _ => Undefined)
       (mkInputStream (Some [9; 1; 2; 3; 4; 5; 6; 7]) 1 7 100 5)).
Proof.
  apply (ReadFilePosWithDegreeSquare_width (fun _ => Undefined)
           (fun _ => Undefined)
           (mkInputStream (Some [9; 1; 2; 3; 4; 5; 6; 7]) 1 7 100 5)).
  - unfold cache_in_block, len. simpl.
    repeat split; try lia. repeat constructor; lia.
  - right. reflexivity.
  - simpl. lia.
Defined.

(** ** DataVersion *)

(** X22. [>=] on data versions is the total order by major then minor
    number: it is reflexive, transitive and total, two versions are each
    [>=] the other exactly when [==] holds, and [==] holds exactly for
    versions with the same numbers. *)
Theorem DataVersion_ge_total_order (a b c : DataVersion.t) :
  DataVersion.op_ge a a = true /\
  (DataVersion.op_ge a b = true -> DataVersion.op_ge b c = true ->
   DataVersion.op_ge a c = true) /\
  (DataVersion.op_ge a b = true \/ DataVersion.op_ge b a = true) /\
  (DataVersion.op_ge a b = true /\ DataVersion.op_ge b a = true <->
   DataVersion.op_eq a b = true) /\
  (DataVersion.op_eq a b = true <-> a = b).
Proof.
  destruct a as [a1 a2], b as [b1 b2], c as [c1 c2].
  unfold DataVersion.op_ge, DataVersion.op_eq. simpl.
  rewrite !orb_true_iff, !andb_true_iff, !Z.eqb_eq, !Z.geb_le, !Z.gtb_ltb,
    !Z.ltb_lt.
  split; [lia|]. split; [lia|]. split; [lia|]. split; [lia|].
  split; [intros [-> ->]; reflexivity | intros H; injection H; auto].
Qed.

Lemma DataVersion_ge_total_order_witness :
  DataVersion.op_ge (DataVersion.Make 4 1) (DataVersion.Make 3 7) = true.
Proof.
  destruct (DataVersion_ge_total_order (DataVersion.Make 4 1)
              (DataVersion.Make 4 0) (DataVersion.Make 3 7))
    as (_ & H & _).
  apply H; reflexivity.
Defined.

(** ** VariableDictionary *)

Lemma less_cases a b :
  (VariableDictionary.less a b = true /\ VariableDictionary.less b a = false
   /\ lex_lt a b) \/
  (a = b /\ VariableDictionary.less a b = false
   /\ VariableDictionary.less b a = false) \/
  (VariableDictionary.less b a = true /\ VariableDictionary.less a b = false
   /\ lex_lt b a).
Proof.
  unfold VariableDictionary.less.
  destruct (compare_units_sign a b) as (r & Hr & H1 & H2 & H3).
  rewrite Hr, (compare_units_opp a b r Hr).
  destruct (Z.lt_trichotomy r 0) as [Hlt|[Heq|Hgt]].
  - left. split; [apply Z.ltb_lt; exact Hlt|].
    split; [apply Z.ltb_ge; lia | apply H1; exact Hlt].
  - right. left. split; [apply H3; exact Heq|].
    split; apply Z.ltb_ge; lia.
  - right. right. split; [apply Z.ltb_lt; lia|].
    split; [apply Z.ltb_ge; lia | apply H2; exact Hgt].
Qed.

Lemma less_irrefl a : VariableDictionary.less a a = false.
Proof.
  destruct (less_cases a a) as [(_ & H & _)|[(_ & H & _)|(_ & H & _)]];
    exact H.
Qed.

Lemma lex_lt_not_both a b : lex_lt a b -> lex_lt b a -> False.
Proof.
  intros H1 H2. exact (lex_lt_irrefl a (lex_lt_trans a b a H1 H2)).
Qed.

Ltac order_keys a b :=
  let H := fresh "Hord" in
  destruct (less_cases a b)
    as [(?H & ?H & H)|[(?H & ?H & ?H)|(?H & ?H & H)]].

Lemma assign_entries name value d k v :
  In (k, v) (VariableDictionary.assign name value d) ->
  (k = name /\ v = value) \/ In (k, v) d.
Proof.
  induction d as [|[k0 v0] d IH]; simpl.
  - intros [H|[]]. injection H as <- <-. auto.
  - destruct (less_cases name k0)
      as [(-> & _ & _)|[(-> & -> & _)|(_ & -> & Hgt)]].
    + intros [H|H]; [injection H as <- <-; auto | auto].
    + rewrite ?less_irrefl. intros [H|H]; [injection H as <- <-; auto | auto].
    + destruct (VariableDictionary.less k0 name) eqn:E.
      * intros [H|H]; [auto|]. destruct (IH H); auto.
      * destruct (less_cases k0 name)
          as [(E' & _)|[(-> & _)|(_ & _ & Hlt)]].
        -- congruence.
        -- exfalso. exact (lex_lt_irrefl _ Hgt).
        -- exfalso. exact (lex_lt_not_both _ _ Hgt Hlt).
Qed.

Lemma erase_entries name d k v :
  In (k, v) (VariableDictionary.erase name d) -> In (k, v) d.
Proof.
  induction d as [|[k0 v0] d IH]; simpl; [auto|].
  destruct (VariableDictionary.less name k0); [auto|].
  destruct (VariableDictionary.less k0 name).
  - intros [H|H]; auto.
  - auto.
Qed.

Lemma assign_increasing name value d :
  VariableDictionary.increasing d ->
  VariableDictionary.increasing (VariableDictionary.assign name value d).
Proof.
  induction 1 as [|k0 v0 d Hk Hd IH]; simpl.
  - apply VariableDictionary.increasing_cons;
      [intros k' v' [] | apply VariableDictionary.increasing_nil].
  - destruct (less_cases name k0)
      as [(-> & _ & Hlt)|[(-> & -> & _)|(_ & -> & Hgt)]].
    + apply VariableDictionary.increasing_cons.
      * intros k' v' [H|H]; [injection H as <- <-; exact Hlt|].
        exact (lex_lt_trans _ _ _ Hlt (Hk _ _ H)).
      * apply VariableDictionary.increasing_cons; assumption.
    + rewrite ?less_irrefl.
      apply VariableDictionary.increasing_cons; assumption.
    + destruct (less_cases k0 name)
        as [(-> & _)|[(-> & _)|(_ & _ & Hlt)]].
      * apply VariableDictionary.increasing_cons; [|exact IH].
        intros k' v' H. apply assign_entries in H.
        destruct H as [[-> _]|H]; [exact Hgt | exact (Hk _ _ H)].
      * exfalso. exact (lex_lt_irrefl _ Hgt).
      * exfalso. exact (lex_lt_not_both _ _ Hgt Hlt).
Qed.

Lemma erase_increasing name d :
  VariableDictionary.increasing d ->
  VariableDictionary.increasing (VariableDictionary.erase name d).
Proof.
  induction 1 as [|k0 v0 d Hk Hd IH]; simpl;
    [apply VariableDictionary.increasing_nil|].
  destruct (VariableDictionary.less name k0);
    [apply VariableDictionary.increasing_cons; assumption|].
  destruct (VariableDictionary.less k0 name); [|exact Hd].
  apply VariableDictionary.increasing_cons; [|exact IH].
  intros k' v' H. apply erase_entries in H. exact (Hk _ _ H).
Qed.

Lemma find_above name d :
  (forall k v, In (k, v) d -> lex_lt name k) ->
  VariableDictionary.find name d = None.
Proof.
  destruct d as [|[k0 v0] d]; [reflexivity|]. intros H. simpl.
  specialize (H k0 v0 (or_introl eq_refl)).
  destruct (less_cases name k0)
    as [(-> & _)|[(-> & _)|(_ & _ & Hgt)]]; [reflexivity| |].
  - exfalso. exact (lex_lt_irrefl _ H).
  - exfalso. exact (lex_lt_not_both _ _ H Hgt).
Qed.

Lemma find_assign name value d key :
  VariableDictionary.increasing d ->
  VariableDictionary.find key (VariableDictionary.assign name value d)
  = if units_eqb key name then Some value else VariableDictionary.find key d.
Proof.
  assert (Heqb : forall x y : list Z,
             units_eqb x y = true <-> x = y) by apply units_eqb_eq.
  induction 1 as [|k0 v0 d Hk Hd IH]; simpl.
  - destruct (less_cases key name)
      as [(-> & _ & Hlt)|[(-> & -> & _)|(_ & -> & Hgt)]].
    + destruct (units_eqb key name) eqn:E; [|reflexivity].
      apply Heqb in E. subst. exfalso. exact (lex_lt_irrefl _ Hlt).
    + rewrite ?less_irrefl, (proj2 (Heqb name name) eq_refl). reflexivity.
    + destruct (VariableDictionary.less name key) eqn:E'.
      * destruct (units_eqb key name) eqn:E; [|reflexivity].
        apply Heqb in E. subst. exfalso. exact (lex_lt_irrefl _ Hgt).
      * destruct (less_cases name key)
          as [(E1 & _)|[(-> & _)|(_ & _ & Hlt)]]; [congruence| |].
        -- exfalso. exact (lex_lt_irrefl _ Hgt).
        -- exfalso. exact (lex_lt_not_both _ _ Hgt Hlt).
  - destruct (less_cases name k0)
      as [(En & _ & Hn)|[(-> & En & _)|(En' & En & Hn)]]; rewrite En.
    + (* the entry goes in front *)
      simpl.
      destruct (less_cases key name)
        as [(-> & _ & Hlt)|[(-> & -> & _)|(Ekn & -> & Hgt)]].
      * destruct (units_eqb key name) eqn:E.
        { apply Heqb in E. subst. exfalso. exact (lex_lt_irrefl _ Hlt). }
        destruct (less_cases key k0)
          as [(-> & _)|[(-> & _)|(_ & _ & Hk0)]]; [reflexivity| |].
        -- exfalso. exact (lex_lt_not_both _ _ Hlt Hn).
        -- exfalso.
           exact (lex_lt_irrefl _ (lex_lt_trans _ _ _ Hlt
                                     (lex_lt_trans _ _ _ Hn Hk0))).
      * rewrite ?less_irrefl, (proj2 (Heqb name name) eq_refl). reflexivity.
      * rewrite Ekn.
        destruct (units_eqb key name) eqn:E; [|reflexivity].
        apply Heqb in E. subst. exfalso. exact (lex_lt_irrefl _ Hgt).
    + (* the entry replaces the value of an equal key *)
      rewrite ?less_irrefl. simpl.
      destruct (less_cases key k0)
        as [(-> & _ & Hlt)|[(-> & -> & _)|(Ekn & -> & Hgt)]].
      * destruct (units_eqb key k0) eqn:E; [|reflexivity].
        apply Heqb in E. subst. exfalso. exact (lex_lt_irrefl _ Hlt).
      * rewrite ?less_irrefl, (proj2 (Heqb k0 k0) eq_refl). reflexivity.
      * rewrite Ekn.
        destruct (units_eqb key k0) eqn:E; [|reflexivity].
        apply Heqb in E. subst. exfalso. exact (lex_lt_irrefl _ Hgt).
    + (* the entry goes further on *)
      rewrite En'. simpl. rewrite IH.
      destruct (less_cases key k0)
        as [(-> & _ & Hlt)|[(-> & -> & _)|(Ekn & -> & Hgt)]].
      * destruct (units_eqb key name) eqn:E; [|reflexivity].
        apply Heqb in E. subst. exfalso. exact (lex_lt_not_both _ _ Hlt Hn).
      * rewrite ?less_irrefl.
        destruct (units_eqb k0 name) eqn:E; [|reflexivity].
        apply Heqb in E. subst. exfalso. exact (lex_lt_irrefl _ Hn).
      * rewrite Ekn. reflexivity.
Qed.

Lemma find_erase name d key :
  VariableDictionary.increasing d ->
  VariableDictionary.find key (VariableDictionary.erase name d)
  = if units_eqb key name then None else VariableDictionary.find key d.
Proof.
  assert (Heqb : forall x y : list Z,
             units_eqb x y = true <-> x = y) by apply units_eqb_eq.
  induction 1 as [|k0 v0 d Hk Hd IH]; simpl.
  - destruct (units_eqb key name); reflexivity.
  - destruct (less_cases name k0)
      as [(En & _ & Hn)|[(-> & En & _)|(En' & En & Hn)]]; rewrite En.
    + simpl. destruct (units_eqb key name) eqn:E; [|reflexivity].
      apply Heqb in E. subst. rewrite En. reflexivity.
    + rewrite ?less_irrefl.
      destruct (units_eqb key k0) eqn:E.
      * apply Heqb in E. subst. apply find_above. exact Hk.
      * destruct (less_cases key k0)
          as [(-> & _ & Hlt)|[(-> & _)|(Ekn & -> & Hgt)]].
        -- apply find_above. intros k v Hin.
           exact (lex_lt_trans _ _ _ Hlt (Hk _ _ Hin)).
        -- rewrite (proj2 (Heqb k0 k0) eq_refl) in E. discriminate E.
        -- rewrite Ekn. reflexivity.
    + rewrite En'. simpl. rewrite IH.
      destruct (less_cases key k0)
        as [(-> & _ & Hlt)|[(-> & -> & _)|(Ekn & -> & Hgt)]].
      * destruct (units_eqb key name); reflexivity.
      * rewrite ?less_irrefl.
        destruct (units_eqb k0 name) eqn:E; [|reflexivity].
        apply Heqb in E. subst. exfalso. exact (lex_lt_irrefl _ Hn).
      * rewrite Ekn. reflexivity.
Qed.

Lemma Set_increasing d name value :
  VariableDictionary.increasing d ->
  VariableDictionary.increasing (VariableDictionary.Set_ d name value).
Proof.
  intros H. unfold VariableDictionary.Set_.
  destruct (negb (len value =? 0));
    [apply assign_increasing | apply erase_increasing]; exact H.
Qed.

Lemma len_zero_nil (v : list Z) : len v = 0 <-> v = [].
Proof.
  unfold len. destruct v; simpl; split; intros H;
    first [reflexivity | discriminate | lia].
Qed.

(** X23. In a dictionary with increasing keys, after [Set(name, value)]:
    [Find(name)] gives [value] if it is not empty and nothing if it is (an
    empty value removes the variable); [Find] of any other key is as
    before; and the keys are still increasing. *)
Theorem VariableDictionary_Set_then_Find d name value key :
  VariableDictionary.increasing d ->
  VariableDictionary.Find (VariableDictionary.Set_ d name value) name
  = (if len value =? 0 then None else Some value) /\
  (key <> name ->
   VariableDictionary.Find (VariableDictionary.Set_ d name value) key
   = VariableDictionary.Find d key) /\
  VariableDictionary.increasing (VariableDictionary.Set_ d name value).
Proof.
  intros Hd. split; [|split; [|apply Set_increasing; exact Hd]].
  - unfold VariableDictionary.Find, VariableDictionary.Set_.
    destruct (len value =? 0); simpl.
    + rewrite find_erase by exact Hd.
      rewrite (proj2 (units_eqb_eq name name) eq_refl). reflexivity.
    + rewrite find_assign by exact Hd.
      rewrite (proj2 (units_eqb_eq name name) eq_refl). reflexivity.
  - intros Hne. unfold VariableDictionary.Find, VariableDictionary.Set_.
    assert (E : units_eqb key name = false).
    { destruct (units_eqb key name) eqn:E; [|reflexivity].
      apply units_eqb_eq in E. contradiction. }
    destruct (len value =? 0); simpl.
    + rewrite find_erase, E by exact Hd. reflexivity.
    + rewrite find_assign, E by exact Hd. reflexivity.
Qed.

Lemma VariableDictionary_Set_then_Find_witness :
  VariableDictionary.Find
    (VariableDictionary.Set_ [([97], [1]); ([99], [3])] [98] [2]) [98]
  = Some [2] /\
  VariableDictionary.Find
    (VariableDictionary.Set_ [([97], [1]); ([99], [3])] [98] [2]) [99]
  = VariableDictionary.Find [([97], [1]); ([99], [3])] [99].
Proof.
  destruct (VariableDictionary_Set_then_Find [([97], [1]); ([99], [3])]
              [98] [2] [99]) as (H1 & H2 & _).
  - apply VariableDictionary.increasing_cons.
    + intros k' v' [H|[]]. injection H as <- <-. apply lex_lt_head. lia.
    + apply VariableDictionary.increasing_cons;
        [intros k' v' [] | apply VariableDictionary.increasing_nil].
  - split; [exact H1 | apply H2; discriminate].
Defined.

Lemma Set_values d name value :
  (forall k v, In (k, v) d -> v <> []) ->
  forall k v, In (k, v) (VariableDictionary.Set_ d name value) -> v <> [].
Proof.
  intros Hd k v. unfold VariableDictionary.Set_.
  destruct (Z.eqb_spec (len value) 0) as [E|E]; simpl.
  - intros H. apply erase_entries in H. exact (Hd _ _ H).
  - intros H. apply assign_entries in H.
    destruct H as [[_ ->]|H]; [|exact (Hd _ _ H)].
    intros Hnil. apply E. apply len_zero_nil. exact Hnil.
Qed.

Lemma find_entry key d v :
  VariableDictionary.find key d = Some v -> In (key, v) d.
Proof.
  induction d as [|[k0 v0] d IH]; simpl; [discriminate|].
  destruct (less_cases key k0)
    as [(-> & _)|[(-> & -> & _)|(Ekn & -> & _)]]; [discriminate| |].
  - rewrite ?less_irrefl. intros H; injection H as <-. auto.
  - rewrite Ekn. auto.
Qed.

Lemma Set_all_invariant calls :
  forall d,
    VariableDictionary.increasing d ->
    (forall k v, In (k, v) d -> v <> []) ->
    VariableDictionary.increasing (VariableDictionary.Set_all d calls) /\
    (forall k v, In (k, v) (VariableDictionary.Set_all d calls) -> v <> []).
Proof.
  induction calls as [|[name value] calls IH]; intros d Hd Hv; simpl;
    [auto|].
  apply IH; [apply Set_increasing; exact Hd | apply Set_values; exact Hv].
Qed.

(** X24. A dictionary built from the empty one by [Set] calls never holds
    an empty value and keeps its keys strictly increasing: [Find] never
    yields an empty string, [Apply] visits each variable once, in the
    order of the names, and [Find] by index always fails. *)
Theorem VariableDictionary_never_holds_empty calls key aIndex :
  VariableDictionary.increasing
    (VariableDictionary.Apply (VariableDictionary.Set_all [] calls)) /\
  VariableDictionary.Find (VariableDictionary.Set_all [] calls) key
  <> Some [] /\
  VariableDictionary.Find_index (VariableDictionary.Set_all [] calls) aIndex
  = false.
Proof.
  destruct (Set_all_invariant calls [] VariableDictionary.increasing_nil)
    as [H1 H2]; [intros k v []|].
  split; [exact H1|]. split; [|reflexivity].
  intros H. apply find_entry in H. exact (H2 _ _ H eq_refl).
Qed.

(** ** Appending one unit *)

(** X25. [Append(aChar)] on a fixed-capacity string adds the unit when
    there is room and is silently dropped when the string is full: the
    length and the text stay as they were. *)
Theorem AppendChar_fixed b s aChar :
  fixed_capacity s -> addressable s -> 0 <= aChar < 2 ^ 16 ->
  exists s',
    AppendChar b s aChar = Returns s' /\
    MaxWritableLength s' = MaxWritableLength s /\
    (iLength s < MaxWritableLength s ->
     iLength s' = iLength s + 1 /\ units s' = units s ++ [aChar]) /\
    (iLength s = MaxWritableLength s ->
     iLength s' = iLength s /\ units s' = units s).
Proof.
  intros Hs Hms Hc.
  set (v := Text_of [aChar] 1).
  assert (Hv : readable v) by (unfold readable, v, len; simpl; lia).
  assert (Hva : addressable v) by (unfold addressable, v, len; simpl; lia).
  assert (E : AppendChar b s aChar = Append b s v).
  { unfold AppendChar, Append16, Append. rewrite to_uint16_small by exact Hc.
    reflexivity. }
  destruct (Append_fixed b s v Hs Hms Hv Hva) as (s' & F1 & F2 & F3 & _ & F5).
  destruct (fixed_capacity_facts s Hs) as (_ & Hl & Hcap & _).
  pose proof (fixed_capacity_readable s Hs) as Hr.
  pose proof (units_length s Hr) as Hlen. unfold len in Hlen.
  change (iLength v) with 1 in F2. change (units v) with [aChar] in F3.
  exists s'. rewrite E. split; [exact F1|]. split; [exact F5|]. split.
  - intros Hroom. split; [lia|]. rewrite F3. apply firstn_all2.
    rewrite length_app. simpl. lia.
  - intros Hfull. split; [lia|]. rewrite F3, firstn_app.
    rewrite (firstn_all2 (n := Z.to_nat (MaxWritableLength s)) (units s))
      by lia.
    replace (Z.to_nat (MaxWritableLength s) - length (units s))%nat
      with 0%nat by lia.
    simpl. apply app_nil_r.
Qed.

Lemma AppendChar_fixed_witness :
  exists s',
    AppendChar Release (mkMString 2 (TextBufferStorage 2 [72; 105])) 33
    = Returns s' /\
    iLength s' = 2 /\ units s' = [72; 105].
Proof.
  destruct (AppendChar_fixed Release
              (mkMString 2 (TextBufferStorage 2 [72; 105])) 33)
    as (s' & H1 & _ & _ & H2).
  - unfold fixed_capacity, len. simpl. lia.
  - unfold addressable, len. simpl. lia.
  - lia.
  - exists s'. split; [exact H1|]. apply H2. reflexivity.
Defined.
